(** * BM25-PDF-Search: retrieval and reranking core

    A shallow embedding of [BM25-String-Embed-Rerank-PDF-Search.py]:
    the corpus loader, the embedding attachment pass, the three retrieval
    strategies of [SearchApp.search], the rerankers and the stepping
    through the results; and of the two producers of the [.emb] files
    in [create-JSON-EMB.py].

    Conventions.
    - A Python [str] is a list of Unicode code points ([list N]).
    - A Python [float] that is used as a score is a rational ([Q]): every
      finite float is a rational and comparison of floats is comparison
      of rationals; the rounded float operations (product, power, dot
      product) are operations of [Numeric] that the development never
      looks into.
    - A [dict] is a [gmap]; a list indexed by position uses [!!].
    - What Python raises ([KeyError], [IndexError]) is [None].
    - The Unicode tables of the interpreter, numpy, the BM25 library and
      the embedding models are not part of the program: they are
      operations of the classes [Unicode], [Numeric], [BM25Lib] and
      [Embedder]. *)

From Stdlib Require Import QArith.
From stdpp Require Import gmap list strings sorting.

Open Scope nat_scope.

(** ** Python strings *)

Abbreviation str := (list N).

(** The part of the interpreter's Unicode support that the program calls. *)
Class Unicode := {
  (** [s.lower()] *)
  lower : str → str;
  (** [unicodedata.normalize('NFD', s)] *)
  normalize_NFD : str → str;
  (** [unicodedata.combining(c)], the canonical combining class *)
  combining : N → N;
  (** the characters [str.split], [str.strip] and the pattern [\s] treat
      as white space *)
  isspace : N → bool;
  (** the characters the pattern [\w] matches *)
  isword : N → bool;
}.

Definition quote : N := 34%N.

Section Strings.
Context `{Unicode}.

(** [remove_accents(input_str)] *)
Definition remove_accents (input_str : str) : str :=
  let nfkd_form := normalize_NFD input_str in
  filter (λ c, combining c = 0%N) nfkd_form.

(** [remove_accents(s.lower())], the normal form every matcher uses. *)
Definition fold_text (s : str) : str := remove_accents (lower s).

(** Maximal runs of characters satisfying [p], in order: the result of
    [re.findall] for the pattern [p+], and of [str.split()] when [p] is
    "not white space". [cur] is the run being read, reversed. *)
Fixpoint runs_aux (p : N → bool) (cur : str) (s : str) : list str :=
  match s with
  | [] => if cur is [] then [] else [reverse cur]
  | c :: s' =>
      if p c then runs_aux p (c :: cur) s'
      else (if cur is [] then [] else [reverse cur]) ++ runs_aux p [] s'
  end.

Definition runs (p : N → bool) (s : str) : list str := runs_aux p [] s.

(** [s.split()] *)
Definition split (s : str) : list str := runs (λ c, negb (isspace c)) s.

(** [re.findall(r"\w+", s)] *)
Definition findall_word (s : str) : list str := runs isword s.

(** [s.strip()] *)
Fixpoint lstrip (s : str) : str :=
  match s with
  | [] => []
  | c :: s' => if isspace c then lstrip s' else s
  end.
Definition strip (s : str) : str := reverse (lstrip (reverse (lstrip s))).

(** [s.startswith(p)] *)
Fixpoint startswith (p s : str) : bool :=
  match p, s with
  | [], _ => true
  | _ :: _, [] => false
  | a :: p', b :: s' => if decide (a = b) then startswith p' s' else false
  end.

(** [needle in hay] on strings. *)
Fixpoint contains (hay needle : str) : bool :=
  startswith needle hay ||
  match hay with
  | [] => false
  | _ :: hay' => contains hay' needle
  end.

End Strings.

(** ** Sorting

    [list.sort(key=..., reverse=...)] is stable, and for keys that are
    totally ordered the stable sorted arrangement of a list is unique
    ([sort_desc_unique] below); it is computed here by insertion.
    [leb x y] says that [x] may stand before [y]. *)
Section Sort.
Context {A : Type} (leb : A → A → bool).

Fixpoint insert_sorted (x : A) (l : list A) : list A :=
  match l with
  | [] => [x]
  | y :: l' => if leb x y then x :: l else y :: insert_sorted x l'
  end.

Fixpoint stable_sort (l : list A) : list A :=
  match l with
  | [] => []
  | x :: l' => insert_sorted x (stable_sort l')
  end.
End Sort.

(** [l.sort(key=key, reverse=True)] for a float key. *)
Definition sort_desc {A : Type} (key : A → Q) (l : list A) : list A :=
  stable_sort (λ x y, Qle_bool (key y) (key x)) l.

(** [l.sort(key=key)] for an integer key. *)
Definition sort_asc {A : Type} (key : A → nat) (l : list A) : list A :=
  stable_sort (λ x y, key x <=? key y) l.

(** ** The external libraries *)

(** numpy and the float arithmetic of the interpreter. *)
Class Numeric := {
  (** [np.array(v, dtype=np.float32)] *)
  np_array_float32 : list Q → list Q;
  (** [float(np.dot(emb, query_embedding))] *)
  np_dot : list Q → list Q → Q;
  (** [length ** 0.5] *)
  pow_half : nat → Q;
  (** the float product [x * y] *)
  fmul : Q → Q → Q;
}.

(** The BM25 library. *)
Class BM25Lib := {
  (** [bm25s.tokenize(text, stopwords="en")] on one text; on a list of
      texts the library tokenizes each text on its own. *)
  tokenize : str → list str;
  (** [GLOBAL_BM25_MODEL.index(tokenized_corpus)]: whether the call
      returns; [false] when the library raises, as it does on a corpus
      whose texts give it no token. The indexed model is held as the
      tokenized corpus it was given. *)
  index : list (list str) → bool;
  (** [model.retrieve(tokenized_query, k=k)] for the model indexed on a
      tokenized corpus: the rows [results[0]] and [scores[0]], which have
      the same length, paired by position; [None] when the library
      raises. *)
  retrieve : list (list str) → list str → nat → option (list (nat * Q));
}.

(** The embedding model and the cross encoder of fastembed. *)
Class Embedder := {
  (** [list(GLOBAL_EMBED_MODEL.query_embed(raw_query))[0]] *)
  query_embed : str → list Q;
  (** [list(encoder.rerank(query_phrase, documents))] *)
  cross_encoder_rerank : str → list str → list Q;
}.

(** [os.path] *)
Class Paths := {
  isabs : str → bool;
  join : str → str → str;
  dirname : str → str;
}.

(** ** The corpus *)

(** A chunk record, a JSON object; the keys the program reads, each
    with a value of the type the producer writes. [filename] is [None]
    also for a value that Python takes as false ([doc.get('filename',
    '')] is all the program does with it). *)
Record doc := Doc {
  text : option str;
  filename : option str;
  page_number : option nat;
  embedding : option (list Q);
}.

(** A record of an [.emb] file: [emb_embedding] is [None] for an item
    in which the test ['embedding' in item] is false. *)
Record emb_record := EmbRecord { emb_embedding : option (list Q) }.

(** What [json.load] gives for a file, as far as the loader looks at
    it; [A] is the type of a record.
    - [JList items]: a JSON array. An item is [None] when the loader
      raises at it: in a [.json] file an item that is no object, or an
      object whose [filename] is a true value that is no string
      ([doc.get] or [os.path.isabs] raises); in an [.emb] file an item
      at which the test ['embedding' in item], the access or the
      conversion to an array raises.
    - [JObject n]: a JSON object with [n] keys.
    - [JString n]: a JSON string of [n] characters.
    - [JScalar]: a number, [true], [false] or [null]. *)
Inductive json_value (A : Type) :=
  | JList (items : list (option A))
  | JObject (n : nat)
  | JString (n : nat)
  | JScalar.
Arguments JList {A} items.
Arguments JObject {A} n.
Arguments JString {A} n.
Arguments JScalar {A}.

(** A JSON array of records. *)
Definition records {A : Type} (l : list A) : json_value A := JList (Some <$> l).

(** [len(v)]; [None] when it raises. *)
Definition len {A : Type} (v : json_value A) : option nat :=
  match v with
  | JList items => Some (length items)
  | JObject n | JString n => Some n
  | JScalar => None
  end.

(** A [.json] file as the loader sees it. The loader opens and parses
    it twice, once in each pass. *)
Record json_file := JsonFile {
  file_path : str;
  (** what [json.load] gives; [None] when opening or parsing raises *)
  json_content : option (json_value doc);
  (** the [.emb] file of the same base name: [None] when there is none,
      [Some None] when opening or parsing it raises *)
  emb_content : option (option (json_value emb_record));
}.

(** A row of [folders.ini] with what the file system holds at its path:
    whether it is a directory, and its files whose name ends in
    [.json], in the order of [os.listdir]. *)
Record folder_entry := FolderEntry {
  checked : bool;
  path : str;
  isdir : bool;
  json_files_in_folder : list json_file;
}.

Inductive error_message :=
  | FolderNotFound (folder_path : str)
  | ErrorReading (path : str).

Inductive status_message :=
  | NoJsonFilesFound
  | NoDocumentsFound
  | NoTextualData
  | BM25Initialized.

Inductive printed :=
  | MismatchWarning (path : str)
  | LoadedEmbeddings (emb_count : nat).

Definition MAX_SEARCH_RESULTS : nat := 50.

Definition set_embedding (d : doc) (e : list Q) : doc :=
  {| text := text d; filename := filename d; page_number := page_number d;
     embedding := Some e |}.

Definition set_filename (d : doc) (f : str) : doc :=
  {| text := text d; filename := Some f; page_number := page_number d;
     embedding := embedding d |}.

Section Loader.
Context `{Numeric, BM25Lib, Paths}.

(** [pages_with_emb[i]] for [i] below [len(pages_with_emb)]; [None]
    when the subscript or the test on the item raises. A JSON object
    has no key [i]; a character of a JSON string does not hold the
    word [embedding]. *)
Definition emb_item (pages_with_emb : json_value emb_record) (i : nat)
    : option emb_record :=
  match pages_with_emb with
  | JList items => mjoin (items !! i)
  | JObject _ => None
  | JString n => if i <? n then Some (EmbRecord None) else None
  | JScalar => None
  end.

(** The body of [for i in range(min_len)], on the pair of
    [GLOBAL_CORPUS] and [emb_count]. *)
Definition attach_one (pages_with_emb : json_value emb_record)
    (corpus_index i : nat) (st : list doc * nat) : option (list doc * nat) :=
  d ← st.1 !! (corpus_index + i);
  page ← emb_item pages_with_emb i;
  match emb_embedding page with
  | Some e =>
      Some (<[corpus_index + i := set_embedding d (np_array_float32 e)]> st.1,
            S st.2)
  | None => Some st
  end.

Fixpoint attach_range (pages_with_emb : json_value emb_record)
    (corpus_index : nat) (range : list nat) (st : list doc * nat)
    : option (list doc * nat) :=
  match range with
  | [] => Some st
  | i :: range' =>
      st' ← attach_one pages_with_emb corpus_index i st;
      attach_range pages_with_emb corpus_index range' st'
  end.

(** The state of [load_embeddings_for_corpus]. *)
Record emb_state := EmbState {
  es_corpus : list doc;
  es_emb_count : nat;
  es_corpus_index : nat;
  es_printed : list printed;
}.

(** The body of [for file_path in json_file_list]. Each of the two
    [json.load] stands in a [try] of its own that gives the empty list;
    the two [len] and the loop stand in none. *)
Definition load_embeddings_file (f : json_file) (st : emb_state)
    : option emb_state :=
  let pages_in_json := default (JList []) (json_content f) in
  num_pages ← len pages_in_json;
  match emb_content f with
  | None =>
      Some (EmbState (es_corpus st) (es_emb_count st)
              (es_corpus_index st + num_pages) (es_printed st))
  | Some emb =>
      let pages_with_emb := default (JList []) emb in
      num_emb ← len pages_with_emb;
      let mismatch := bool_decide (num_pages ≠ num_emb) in
      let out :=
        if mismatch then es_printed st ++ [MismatchWarning (file_path f)]
        else es_printed st in
      let min_len := if mismatch then num_pages `min` num_emb else num_pages in
      '(corpus, emb_count) ←
        attach_range pages_with_emb (es_corpus_index st) (seq 0 min_len)
          (es_corpus st, es_emb_count st);
      Some (EmbState corpus emb_count (es_corpus_index st + num_pages) out)
  end.

Fixpoint load_embeddings_files (json_file_list : list json_file)
    (st : emb_state) : option emb_state :=
  match json_file_list with
  | [] => Some st
  | f :: rest =>
      st' ← load_embeddings_file f st;
      load_embeddings_files rest st'
  end.

(** [load_embeddings_for_corpus(json_file_list)]: the new
    [GLOBAL_CORPUS] and what was printed. *)
Definition load_embeddings_for_corpus (json_file_list : list json_file)
    (GLOBAL_CORPUS : list doc) : option (list doc * list printed) :=
  st ← load_embeddings_files json_file_list (EmbState GLOBAL_CORPUS 0 0 []);
  Some (es_corpus st, es_printed st ++ [LoadedEmbeddings (es_emb_count st)]).

(** What the first pass does to a record: a relative file name is made
    absolute. *)
Definition absolutize (folder_of_json : str) (d : doc) : doc :=
  let pdf_name := default [] (filename d) in
  if bool_decide (pdf_name ≠ []) && negb (isabs pdf_name)
  then set_filename d (join folder_of_json pdf_name)
  else d.

(** The [try] block of the first pass on what [json.load] gave: the
    loop [for doc in docs] and the records that
    [GLOBAL_CORPUS.extend(docs)] then adds; [None] when the loop
    raises, and nothing is added. Iterating over an object or a string
    gives strings, over a scalar it raises. *)
Definition first_pass (folder_of_json : str) (docs : json_value doc)
    : option (list doc) :=
  match docs with
  | JList items => mapM (λ item, absolutize folder_of_json <$> item) items
  | JObject 0 | JString 0 => Some []
  | JObject (S _) | JString (S _) => None
  | JScalar => None
  end.

(** What the [try] block of the first pass gives for a file; [None]
    when it raises, at [json.load] or after. *)
Definition read_file (f : json_file) : option (list doc) :=
  docs ← json_content f; first_pass (dirname (file_path f)) docs.

(** The records one file adds to [GLOBAL_CORPUS]. *)
Definition docs_of_file (f : json_file) : list doc := default [] (read_file f).

Definition all_json_files (folders_list : list folder_entry) : list json_file :=
  folders_list ≫= λ e,
    if checked e && isdir e then json_files_in_folder e else [].

Definition folder_errors (folders_list : list folder_entry) : list error_message :=
  folders_list ≫= λ e,
    if checked e && negb (isdir e) then [FolderNotFound (path e)] else [].

Definition file_errors (files : list json_file) : list error_message :=
  files ≫= λ f,
    if read_file f is None then [ErrorReading (file_path f)] else [].

(** The texts the BM25 index is built from. *)
Definition texts (corpus : list doc) : list str := omap text corpus.

(** What a load leaves behind: the two globals, what the function
    returns and what it printed. *)
Record loaded := Loaded {
  loaded_corpus : list doc;
  (** the tokenized corpus the model was indexed on *)
  loaded_model : option (list (list str));
  error_messages : list error_message;
  status : status_message;
  stdout : list printed;
}.

(** [load_corpus_and_initialize_bm25(folders_list)]; [None] when the
    library raises at the index or the embedding pass raises. *)
Definition load_corpus_and_initialize_bm25 (folders_list : list folder_entry)
    : option loaded :=
  let files := all_json_files folders_list in
  let errs := folder_errors folders_list in
  if bool_decide (files = []) then
    Some (Loaded [] None errs NoJsonFilesFound [])
  else
    let corpus := files ≫= docs_of_file in
    let errs := errs ++ file_errors files in
    if bool_decide (corpus = []) then
      Some (Loaded [] None errs NoDocumentsFound [])
    else if bool_decide (texts corpus = []) then
      Some (Loaded corpus None errs NoTextualData [])
    else
      let model := tokenize <$> texts corpus in
      if index model then
        '(corpus', out) ← load_embeddings_for_corpus files corpus;
        Some (Loaded corpus' (Some model) errs BM25Initialized out)
      else None.
End Loader.

(** ** Minimal span scoring *)

(** [enumerate(l)] *)
Definition enumerate {A : Type} (l : list A) : list (nat * A) := imap pair l.

(** [max(d.values())] and [min(d.values())]. The program calls them on
    [found_terms] inside the loop guarded by
    [len(found_terms) == len(norm_query_terms)] and after an insertion,
    where the dict is not empty. *)
Definition max_values (d : gmap str nat) : nat :=
  foldr (λ kv acc, kv.2 `max` acc) 0 (map_to_list d).

Definition min_values (d : gmap str nat) : nat :=
  match map_to_list d with
  | [] => 0
  | (_, v) :: kvs => foldr (λ kv acc, kv.2 `min` acc) v kvs
  end.

(** The variables of the two-pointer scan. *)
Record span_state := SpanState {
  best_span : nat;
  found_terms : gmap str nat;
  left : nat;
}.

Section MinimalSpan.
Context `{Unicode}.

(** [{term: [] for term in norm_query_terms}] *)
Definition positions_init (norm_query_terms : list str) : gmap str (list nat) :=
  foldl (λ positions term, <[term := []]> positions) ∅ norm_query_terms.

(** [for i, w in enumerate(words): if w in positions: positions[w].append(i)] *)
Definition positions_fill (words : list str) (positions : gmap str (list nat))
    : gmap str (list nat) :=
  foldl (λ positions iw,
           match positions !! iw.2 with
           | Some ps => <[iw.2 := ps ++ [iw.1]]> positions
           | None => positions
           end)
        positions (enumerate words).

(** [positions[t]], for a [t] that is a key. *)
Definition positions_of (positions : gmap str (list nat)) (t : str) : list nat :=
  default [] (positions !! t).

(** The list [all_positions] after [all_positions.sort(key=lambda x: x[0])]. *)
Definition all_positions_of (norm_query_terms : list str)
    (positions : gmap str (list nat)) : list (nat * str) :=
  sort_asc fst
    (norm_query_terms ≫= λ t, (λ p, (p, t)) <$> positions_of positions t).

(** The [while len(found_terms) == len(norm_query_terms)] loop; every
    turn advances [left], and [all_positions[left]] raises past the end
    of the list, so [fuel] above the length of the list never runs
    out before that. *)
Fixpoint shrink (fuel : nat) (n : nat) (all_positions : list (nat * str))
    (st : span_state) : option span_state :=
  if bool_decide (size (found_terms st) = n) then
    match fuel with
    | 0 => None
    | S fuel' =>
        let span := max_values (found_terms st) - min_values (found_terms st) + 1 in
        let best_span := if span <? best_span st then span else best_span st in
        '(pos_left, term_left) ← all_positions !! left st;
        let found_terms :=
          if bool_decide (found_terms st !! term_left = Some pos_left)
          then delete term_left (found_terms st) else found_terms st in
        shrink fuel' n all_positions (SpanState best_span found_terms (left st + 1))
    end
  else Some st.

(** The body of [for right in range(len(all_positions))]. *)
Definition scan_step (n : nat) (all_positions : list (nat * str))
    (entry : nat * str) (st : span_state) : option span_state :=
  let '(pos_right, term_right) := entry in
  shrink (S (length all_positions)) n all_positions
    (SpanState (best_span st) (<[term_right := pos_right]> (found_terms st)) (left st)).

Fixpoint scan (n : nat) (all_positions : list (nat * str))
    (todo : list (nat * str)) (st : span_state) : option span_state :=
  match todo with
  | [] => Some st
  | entry :: todo' =>
      st' ← scan_step n all_positions entry st;
      scan n all_positions todo' st'
  end.

(** [1.0 / (best_span + 1)], the quotient taken exactly. *)
Definition span_to_score (best_span : nat) : Q := 1 # Pos.of_succ_nat best_span.

(** [minimal_span_score(text, query_terms)] *)
Definition minimal_span_score (text : str) (query_terms : list str) : option Q :=
  let norm_text := fold_text text in
  let norm_query_terms := fold_text <$> query_terms in
  let words := split norm_text in
  let positions := positions_fill words (positions_init norm_query_terms) in
  if existsb (λ term, bool_decide (positions_of positions term = []))
       norm_query_terms
  then Some 0%Q
  else
    let all_positions := all_positions_of norm_query_terms positions in
    st ← scan (length norm_query_terms) all_positions all_positions
            (SpanState (length words + 1) ∅ 0);
    Some (span_to_score (best_span st)).

(** [GLOBAL_CORPUS[doc_id]['text']] *)
Definition text_at (corpus : list doc) (doc_id : nat) : option str :=
  d ← corpus !! doc_id; text d.

(** [rerank_minimal_span(top_docs, query_terms)] *)
Definition rerank_minimal_span (corpus : list doc) (top_docs : list (nat * Q))
    (query_terms : list str) : option (list (nat * Q)) :=
  doc_scores ← mapM (λ c : nat * Q,
                       text ← text_at corpus c.1;
                       ms_score ← minimal_span_score text query_terms;
                       Some (c.1, ms_score)) top_docs;
  Some (sort_desc snd doc_scores).

(** ** Exact text rerank *)

(** The body of the loop of [rerank_exact_text], on the pair
    [(matched, unmatched)]. *)
Definition exact_step (corpus : list doc) (query_norm : str)
    (acc : list (nat * Q) * list (nat * Q)) (c : nat * Q)
    : option (list (nat * Q) * list (nat * Q)) :=
  doc_text ← text_at corpus c.1;
  let doc_text_norm := fold_text doc_text in
  if contains doc_text_norm query_norm
  then Some (acc.1 ++ [c], acc.2)
  else Some (acc.1, acc.2 ++ [c]).

Fixpoint exact_loop (corpus : list doc) (query_norm : str)
    (top_docs : list (nat * Q)) (acc : list (nat * Q) * list (nat * Q))
    : option (list (nat * Q) * list (nat * Q)) :=
  match top_docs with
  | [] => Some acc
  | c :: rest =>
      acc' ← exact_step corpus query_norm acc c;
      exact_loop corpus query_norm rest acc'
  end.

(** [rerank_exact_text(top_docs, query_phrase)] *)
Definition rerank_exact_text (corpus : list doc) (top_docs : list (nat * Q))
    (query_phrase : str) : option (list (nat * Q)) :=
  let query_norm := fold_text query_phrase in
  acc ← exact_loop corpus query_norm top_docs ([], []);
  Some (acc.1 ++ acc.2).

(** ** Simple text search *)

(** The longest prefix of [s] whose characters satisfy [p], and the rest. *)
Fixpoint span_while (p : N → bool) (s : str) : str * str :=
  match s with
  | [] => ([], [])
  | c :: s' =>
      if p c then let '(a, b) := span_while p s' in (c :: a, b)
      else ([], s)
  end.

(** A match of the first alternative at the head of [s] (a double
    quote, one or more characters other than a double quote, a double
    quote): the group and what follows the match. The greedy run stops
    at the first double quote or at the end of the string, so
    backtracking finds nothing more. *)
Definition match_phrase (s : str) : option (str * str) :=
  match s with
  | c :: s' =>
      if bool_decide (c = quote) then
        match span_while (λ c, negb (bool_decide (c = quote))) s' with
        | ((_ :: _) as phrase, _ :: rest) => Some (phrase, rest)
        | _ => None
        end
      else None
  | [] => None
  end.

(** A match of [(\S+)] at the head of [s]. *)
Definition match_word (s : str) : option (str * str) :=
  match span_while (λ c, negb (isspace c)) s with
  | ((_ :: _) as word, rest) => Some (word, rest)
  | _ => None
  end.

(** [re.findall(pattern, s)] for the pattern of
    [parse_simple_search_query], the quoted alternative or [(\S+)]: the
    scan tries the pattern at the head, first alternative first, and
    goes on after the match, or one character on when there is none.
    Every turn consumes a character, so [fuel = length s] is enough. *)
Fixpoint findall_phrase_word (fuel : nat) (s : str) : list (str * str) :=
  match fuel, s with
  | 0, _ | _, [] => []
  | S fuel', _ :: s' =>
      match match_phrase s with
      | Some (phrase, rest) => (phrase, []) :: findall_phrase_word fuel' rest
      | None =>
          match match_word s with
          | Some (word, rest) => ([], word) :: findall_phrase_word fuel' rest
          | None => findall_phrase_word fuel' s'
          end
      end
  end.

(** [parse_simple_search_query(query_str)] *)
Definition parse_simple_search_query (query_str : str) : list str * list str :=
  let matches := findall_phrase_word (length query_str) query_str in
  foldl (λ acc m,
           if bool_decide (m.1 ≠ []) then (acc.1 ++ [m.1], acc.2)
           else if bool_decide (m.2 ≠ []) then (acc.1, acc.2 ++ [m.2])
           else acc)
        ([], []) matches.
End MinimalSpan.

(** ** The search *)

Inductive search_method := BM25 | SimpleTextSearch | EmbeddingsSearch.

Inductive rerank_method :=
  | NoReranking
  | MinimalSpanScoring
  | ExactTextSearch
  | EmbeddingsRerank.

(** What [result_display] shows. *)
Inductive display :=
  | Blank
  | NoCorpusLoaded
  | PleaseEnterQuery
  | NoResultsFound
  | NoEmbFilesReverting
  | FastEmbedUnavailableReverting
  | NoBM25Model
  | ChunkShown (doc_id : nat) (score : Q).

(** The module globals the search reads. *)
Record globals := Globals {
  GLOBAL_CORPUS : list doc;
  GLOBAL_BM25_MODEL : option (list (list str));
  (** whether [GLOBAL_EMBED_MODEL] is not [None] *)
  GLOBAL_EMBED_MODEL : bool;
  FASTEMBED_AVAILABLE : bool;
}.

(** The fields of [SearchApp] the search reads or writes. *)
Record SearchApp := App {
  results : list (nat * Q);
  current_result_index : nat;
  query_terms : list str;
  embeddings_present : bool;
  search_method_combo : search_method;
  rerank_combo : rerank_method;
  result_display : display;
}.

Definition set_query_terms (qt : list str) (a : SearchApp) : SearchApp :=
  App (results a) (current_result_index a) qt (embeddings_present a)
      (search_method_combo a) (rerank_combo a) (result_display a).

Definition set_display (d : display) (a : SearchApp) : SearchApp :=
  App (results a) (current_result_index a) (query_terms a) (embeddings_present a)
      (search_method_combo a) (rerank_combo a) d.

Definition set_search_method (m : search_method) (a : SearchApp) : SearchApp :=
  App (results a) (current_result_index a) (query_terms a) (embeddings_present a)
      m (rerank_combo a) (result_display a).

Definition set_results (rs : list (nat * Q)) (a : SearchApp) : SearchApp :=
  App rs 0 (query_terms a) (embeddings_present a)
      (search_method_combo a) (rerank_combo a) (result_display a).

(** [any(('embedding' in doc) for doc in GLOBAL_CORPUS)], the value the
    application stores in [embeddings_present] after every load. *)
Definition any_embedding (corpus : list doc) : bool :=
  existsb (λ d, bool_decide (is_Some (embedding d))) corpus.

Section Search.
Context `{Unicode, Numeric, BM25Lib, Embedder}.

(** [show_current_chunk], as far as the text panel goes. *)
Definition show_current_chunk (g : globals) (a : SearchApp) : option SearchApp :=
  match results a with
  | [] => Some (set_display NoResultsFound a)
  | _ =>
      '(doc_id, score) ← results a !! current_result_index a;
      _ ← GLOBAL_CORPUS g !! doc_id;
      Some (set_display (ChunkShown doc_id score) a)
  end.

(** The common end of the three cases: store the ranking and show its
    first chunk. *)
Definition publish (g : globals) (ranking : list (nat * Q)) (a : SearchApp)
    : option SearchApp :=
  let a := set_results ranking a in
  match ranking with
  | [] => Some (set_display NoResultsFound a)
  | _ => show_current_chunk g a
  end.

(** Case 1: the list [self.results] of the simple text search. *)
Definition simple_text_search (corpus : list doc) (raw_query : str)
    : list (nat * Q) :=
  let '(quoted_phrases, unquoted_words) := parse_simple_search_query raw_query in
  let quoted_phrases_norm := fold_text <$> quoted_phrases in
  let unquoted_words_norm := fold_text <$> unquoted_words in
  let matches :=
    foldl (λ matches id,
             let doc_text_norm :=
               match text id.2 with Some t => fold_text t | None => [] end in
             if negb (forallb (contains doc_text_norm) quoted_phrases_norm)
             then matches
             else if negb (forallb (contains doc_text_norm) unquoted_words_norm)
             then matches
             else matches ++ [id.1])
          [] (enumerate corpus) in
  (λ doc_id, (doc_id, 1%Q)) <$> matches.

(** Case 2, step 1: the dot products. *)
Definition embedding_scores (corpus : list doc) (query_embedding : list Q)
    : list (nat * Q) :=
  foldl (λ doc_scores id,
           match embedding id.2 with
           | None => doc_scores
           | Some emb =>
               let text := default [] (text id.2) in
               if bool_decide (strip text = []) then doc_scores
               else doc_scores ++ [(id.1, np_dot emb query_embedding)]
           end)
        [] (enumerate corpus).

(** Case 2, step 4: the length penalty of one candidate. *)
Definition penalized (corpus : list doc) (c : nat * Q) : option (nat * Q) :=
  d ← corpus !! c.1;
  let text := default [] (text d) in
  let length := length text in
  Some (c.1, if 0 <? length then fmul c.2 (pow_half length) else 0%Q).

(** Case 2: the list [self.results] of the embeddings search. *)
Definition embeddings_search (corpus : list doc) (raw_query : str)
    : option (list (nat * Q)) :=
  let query_embedding := query_embed raw_query in
  let doc_scores := sort_desc snd (embedding_scores corpus query_embedding) in
  let top_k := take MAX_SEARCH_RESULTS doc_scores in
  penalized_scores ← mapM (penalized corpus) top_k;
  Some (sort_desc snd penalized_scores).

(** Case 3: [truncated_ranking]. *)
Definition bm25_search (corpus : list doc) (model : list (list str))
    (raw_query : str) : option (list (nat * Q)) :=
  let tokenized_query := tokenize raw_query in
  bm25_ranking ← retrieve model tokenized_query (length corpus);
  Some (take MAX_SEARCH_RESULTS (sort_desc snd bm25_ranking)).

(** [rerank_with_embeddings(top_docs, query_phrase)] *)
Definition rerank_with_embeddings (corpus : list doc)
    (top_docs : list (nat * Q)) (query_phrase : str) : option (list (nat * Q)) :=
  documents ← mapM (λ c : nat * Q, text_at corpus c.1) top_docs;
  let scores := cross_encoder_rerank query_phrase documents in
  let doc_scores := zip_with (λ (c : nat * Q) embed_score, (c.1, embed_score))
                      top_docs scores in
  Some (sort_desc snd doc_scores).

Definition rerank (g : globals) (method : rerank_method)
    (truncated_ranking : list (nat * Q)) (query_terms : list str)
    (raw_query : str) : option (list (nat * Q)) :=
  match method with
  | NoReranking => Some truncated_ranking
  | MinimalSpanScoring =>
      rerank_minimal_span (GLOBAL_CORPUS g) truncated_ranking query_terms
  | ExactTextSearch =>
      rerank_exact_text (GLOBAL_CORPUS g) truncated_ranking raw_query
  | EmbeddingsRerank =>
      if FASTEMBED_AVAILABLE g
      then rerank_with_embeddings (GLOBAL_CORPUS g) truncated_ranking raw_query
      else Some truncated_ranking
  end.

(** [SearchApp.search], with the text of [query_input]. *)
Definition search (g : globals) (query_input : str) (a : SearchApp)
    : option SearchApp :=
  let raw_query := strip query_input in
  let a := set_query_terms (fold_text <$> findall_word raw_query) a in
  if bool_decide (GLOBAL_CORPUS g = []) then Some (set_display NoCorpusLoaded a)
  else if bool_decide (raw_query = []) then Some (set_display PleaseEnterQuery a)
  else
    let method := rerank_combo a in
    match search_method_combo a with
    | SimpleTextSearch =>
        publish g (simple_text_search (GLOBAL_CORPUS g) raw_query) a
    | EmbeddingsSearch =>
        if negb (embeddings_present a) then
          Some (set_search_method BM25 (set_display NoEmbFilesReverting a))
        else if negb (FASTEMBED_AVAILABLE g) || negb (GLOBAL_EMBED_MODEL g) then
          Some (set_search_method BM25 (set_display FastEmbedUnavailableReverting a))
        else
          ranking ← embeddings_search (GLOBAL_CORPUS g) raw_query;
          publish g ranking a
    | BM25 =>
        match GLOBAL_BM25_MODEL g with
        | None => Some (set_display NoBM25Model a)
        | Some model =>
            truncated_ranking ← bm25_search (GLOBAL_CORPUS g) model raw_query;
            final_ranking ← rerank g method truncated_ranking (query_terms a) raw_query;
            publish g final_ranking a
        end
    end.
End Search.

(** ** Stepping through the results *)

Definition set_current_result_index (i : nat) (a : SearchApp) : SearchApp :=
  App (results a) i (query_terms a) (embeddings_present a)
      (search_method_combo a) (rerank_combo a) (result_display a).

(** The user's choice in [rerank_combo]. *)
Definition set_rerank (m : rerank_method) (a : SearchApp) : SearchApp :=
  App (results a) (current_result_index a) (query_terms a) (embeddings_present a)
      (search_method_combo a) m (result_display a).

(** [update_rerank_combo_status]: whether it leaves [rerank_combo]
    enabled, for the method selected in [search_method_combo]. *)
Definition update_rerank_combo_status (current_method : search_method) : bool :=
  match current_method with
  | BM25 => true
  | SimpleTextSearch => false
  | EmbeddingsSearch => false
  end.

(** [show_next_chunk] *)
Definition show_next_chunk (g : globals) (a : SearchApp) : option SearchApp :=
  match results a with
  | [] => Some a
  | _ =>
      show_current_chunk g
        (set_current_result_index
           ((current_result_index a + 1) mod length (results a)) a)
  end.

(** [show_previous_chunk]. The index is a Python [int]: at index 0 the
    difference is -1, and [%] with a positive divisor gives a result
    between 0 and the divisor, as [Z.modulo] does. *)
Definition show_previous_chunk (g : globals) (a : SearchApp) : option SearchApp :=
  match results a with
  | [] => Some a
  | _ =>
      show_current_chunk g
        (set_current_result_index
           (Z.to_nat ((Z.of_nat (current_result_index a) - 1)
                      `mod` Z.of_nat (length (results a)))) a)
  end.

(** ** The producer of the [.emb] files

    [embed_pages_in_json] and [embed_pages_in_json_batch] of
    [create-JSON-EMB.py], on the list [pages] that [json.load] gives;
    the list they return is what [process_json_to_emb] writes to the
    [.emb] file. *)

(** The embedding model of the producer. *)
Class PassageEmbedder := {
  (** [list(embedding_model.passage_embed(texts))], each array turned
      into a list; [None] when the call or the iteration raises *)
  passage_embed : list str → option (list (list Q));
}.

(** [del page["text"]] *)
Definition del_text (page : doc) : doc :=
  {| text := None; filename := filename page; page_number := page_number page;
     embedding := embedding page |}.

(** The records of an [.emb] file as the loader reads them. *)
Definition emb_file_of (pages : list doc) : list emb_record :=
  (λ page, EmbRecord (embedding page)) <$> pages.

Section Producer.
Context `{PassageEmbedder}.

(** The body of the loop of [embed_pages_in_json]: [list(...)[0]]
    raises on an empty list, and the [except] clause only logs. *)
Definition embed_page (page : doc) : doc :=
  match text page with
  | Some t =>
      let page :=
        match passage_embed [t] with
        | Some (embedding :: _) => set_embedding page embedding
        | _ => page
        end in
      del_text page
  | None => page
  end.

(** [embed_pages_in_json(json_file_path, embedding_model, log_callback)] *)
Definition embed_pages_in_json (pages : list doc) : list doc :=
  embed_page <$> pages.

(** The body of [for i, embedding in enumerate(embeddings)]; [pages[i]]
    raises when there are more embeddings than pages. *)
Definition batch_step (pages : option (list doc)) (ie : nat * list Q)
    : option (list doc) :=
  pages ← pages;
  page ← pages !! ie.1;
  Some (<[ie.1 := del_text (set_embedding page ie.2)]> pages).

(** [embed_pages_in_json_batch(json_file_path, embedding_model,
    log_callback)]: the fallback reads the file again, so it starts
    from the pages as they were. *)
Definition embed_pages_in_json_batch (pages : list doc) : list doc :=
  let texts := (λ page, default [] (text page)) <$> pages in
  match
    embeddings ← passage_embed texts;
    foldl batch_step (Some pages) (enumerate embeddings)
  with
  | Some pages' => pages'
  | None => embed_pages_in_json pages
  end.
End Producer.

(** ** Instances for the examples

    A fragment of the Unicode tables (ASCII and the accented letters of
    Latin-1) and stand-ins for the libraries, used to run the definitions
    on concrete inputs. *)
Module Examples.

(** The code points of an ASCII literal. *)
Definition py (s : string) : str :=
  Ascii.N_of_ascii <$> String.list_ascii_of_string s.

Definition in_range (lo hi c : N) : bool := ((lo <=? c) && (c <=? hi))%N.

Definition lower_char (c : N) : N :=
  if in_range 65 90 c || (in_range 192 222 c && negb (c =? 215)%N)
  then (c + 32)%N else c.

(** Canonical decomposition of the accented lower-case vowels, of
    [n] with tilde and of [c] with cedilla. *)
Definition nfd_char (c : N) : str :=
  match c with
  | 224 => [97; 768] | 225 => [97; 769] | 226 => [97; 770]
  | 227 => [97; 771] | 228 => [97; 776]
  | 231 => [99; 807]
  | 232 => [101; 768] | 233 => [101; 769] | 234 => [101; 770] | 235 => [101; 776]
  | 236 => [105; 768] | 237 => [105; 769] | 238 => [105; 770] | 239 => [105; 776]
  | 241 => [110; 771]
  | 242 => [111; 768] | 243 => [111; 769] | 244 => [111; 770]
  | 245 => [111; 771] | 246 => [111; 776]
  | 249 => [117; 768] | 250 => [117; 769] | 251 => [117; 770] | 252 => [117; 776]
  | _ => [c]
  end%N.

#[export] Instance latin1 : Unicode := {|
  lower s := lower_char <$> s;
  normalize_NFD s := s ≫= nfd_char;
  combining c := if in_range 768 879 c then 230%N else 0%N;
  isspace c := in_range 9 13 c || in_range 28 32 c || (c =? 133)%N || (c =? 160)%N;
  isword c := in_range 48 57 c || in_range 65 90 c || in_range 97 122 c
              || (c =? 95)%N
              || (in_range 192 255 c && negb (c =? 215)%N && negb (c =? 247)%N);
|}.

(** Exact rational arithmetic in place of the floats; the square root
    is cut to its integer part. *)
#[export] Instance exact : Numeric := {|
  np_array_float32 v := v;
  np_dot u v := foldr Qplus 0%Q (zip_with Qmult u v);
  pow_half n := inject_Z (Z.sqrt (Z.of_nat n));
  fmul := Qmult;
|}.

(** A tokenizer of the kind the program delegates to: lower case, the
    runs of two or more word characters, no stop words, no Unicode
    normalization. *)
Definition word_tokenize (s : str) : list str :=
  filter (λ w, 2 ≤ length w) (findall_word (lower s)).

(** A library whose [retrieve] answers with the given rows; its
    [index] raises on a corpus without a token. *)
Definition answering (rows : list (nat * Q)) : BM25Lib := {|
  tokenize := word_tokenize;
  index tokenized_corpus :=
    negb (forallb (λ tokens, bool_decide (tokens = [])) tokenized_corpus);
  retrieve _ _ _ := Some rows;
|}.

#[export] Instance no_paths : Paths := {|
  isabs _ := true;
  join a b := a ++ b;
  dirname p := p;
|}.

#[export] Instance no_embedder : Embedder := {|
  query_embed _ := [1%Q];
  cross_encoder_rerank _ documents := (λ _, 0%Q) <$> documents;
|}.

Definition page (t : string) : doc := Doc (Some (py t)) None None None.

(** A model of the producer that embeds every text on its own, as the
    one-dimensional vector of its length. *)
Definition length_vector (t : str) : list Q := [inject_Z (Z.of_nat (length t))].

#[export] Instance length_embedder : PassageEmbedder := {|
  passage_embed ts := Some (length_vector <$> ts);
|}.

End Examples.

(** The inputs of the concrete runs. *)
Module Runs.
Import Examples.

Definition dq : str := [quote].

(** The query [foo "exact phrase"]. *)
Definition foo_exact_phrase : str := py "foo " ++ dq ++ py "exact phrase" ++ dq.

(** The query of the word [x] and, glued to it, the run [exact phrase]
    between two double quotes. *)
Definition glued_phrase : str := py "x" ++ dq ++ py "exact phrase" ++ dq.

(** The strings [café] and [CAFE]. *)
Definition cafe_accent : str := py "caf" ++ [233%N].
Definition cafe_upper : str := py "CAFE".

Definition two_dogs : list doc := [page "dog"; page "dog"].
Definition two_dogs_model : list (list str) := word_tokenize <$> texts two_dogs.
Definition tied_rows : list (nat * Q) := [(1, 1 # 2); (0, 1 # 2)].

Definition pets : list doc := [page "dog"; page "cat dog"].
Definition pets_rows : list (nat * Q) := [(0, 1 # 2); (1, 1 # 4)].
Definition pets_globals : globals :=
  Globals pets (Some (word_tokenize <$> texts pets)) false false.
Definition fresh_app (m : search_method) : SearchApp :=
  App [] 0 [] false m NoReranking Blank.

(** A page with a blank text and an embedding. *)
Definition blank_page : doc := Doc (Some (py " ")) None None (Some [1%Q]).

(** A file of five records with an [.emb] file of three, then a file
    of one record with an [.emb] file of one. *)
Definition five_pages : json_file :=
  JsonFile (py "a.json")
    (Some (records [page "p1"; page "p2"; page "p3"; page "p4"; page "p5"]))
    (Some (Some (records [EmbRecord (Some [1%Q]); EmbRecord (Some [2%Q]);
                          EmbRecord (Some [3%Q])]))).
Definition one_page : json_file :=
  JsonFile (py "b.json") (Some (records [page "q1"]))
    (Some (Some (records [EmbRecord (Some [9%Q])]))).
Definition demo_folders : list folder_entry :=
  [FolderEntry true (py "docs") true [five_pages; one_page]].

(** A [.json] file that holds a JSON object with one key, not a list of
    pages, and has no [.emb] file; and the folder that lists it before
    the two files above. *)
Definition object_file : json_file :=
  JsonFile (py "0.json") (Some (JObject 1)) None.
Definition object_folders : list folder_entry :=
  [FolderEntry true (py "docs") true [object_file; five_pages; one_page]].

(** The application after a BM25 search for [dog] on [pets], with the
    index on entry [i] of the ranking. *)
Definition pets_app (i : nat) : SearchApp :=
  App pets_rows i [py "dog"] false BM25 NoReranking (ChunkShown 0 (1 # 2)).

(** A [.json] file of two pages, the second without text, with the
    [.emb] file that the page-by-page producer writes for it. *)
Definition two_pages : list doc := [page "ab"; Doc None None (Some 2) None].
Definition produced_file : json_file :=
  JsonFile (py "c.json") (Some (records two_pages))
    (Some (Some (records (emb_file_of (embed_pages_in_json two_pages))))).
End Runs.


(** * Vocabulary of the properties *)

(** [needle] occurs in [hay] as a contiguous run. *)
Definition substring (needle hay : str) : Prop :=
  ∃ pre post, hay = pre ++ needle ++ post.

Section Vocabulary.
Context `{Unicode}.

(** The candidate's folded text contains the folded query. *)
Definition exact_hit (corpus : list doc) (query_phrase : str) (c : nat * Q) : bool :=
  match text_at corpus c.1 with
  | Some t => contains (fold_text t) (fold_text query_phrase)
  | None => false
  end.

(** The folded text of a chunk, empty for a chunk without text. *)
Definition folded_text (d : doc) : str :=
  match text d with Some t => fold_text t | None => [] end.

(** The chunk holds every phrase and every word of the parsed query. *)
Definition chunk_matches (quoted_phrases unquoted_words : list str) (d : doc) : bool :=
  forallb (contains (folded_text d)) (fold_text <$> quoted_phrases)
  && forallb (contains (folded_text d)) (fold_text <$> unquoted_words).
End Vocabulary.

(** Rows of equal score stand in ascending order of chunk id. *)
Definition ties_by_ascending_id (ranking : list (nat * Q)) : Prop :=
  ∀ i j x y, i < j → ranking !! i = Some x → ranking !! j = Some y →
    (x.2 == y.2)%Q → x.1 < y.1.

(** The number of characters of the text of the chunk at [doc_id]. *)
Definition text_length (corpus : list doc) (doc_id : nat) : nat :=
  length (default [] (corpus !! doc_id ≫= text)).

Section LoaderVocabulary.
Context `{Numeric, Paths}.

(** A chunk after the embedding pass, given the record of the [.emb]
    file that stands at its position, if there is one. *)
Definition attach (d : doc) (r : option emb_record) : doc :=
  match r with
  | Some (EmbRecord (Some e)) => set_embedding d (np_array_float32 e)
  | _ => d
  end.

(** The chunks of one file after the pass: those that have a record
    at their position are attached to it, the others are as they
    were. *)
Fixpoint attach_all (docs : list doc) (embs : list emb_record) : list doc :=
  match docs, embs with
  | d :: docs', r :: embs' => attach d (Some r) :: attach_all docs' embs'
  | _, _ => docs
  end.

(** The number of embeddings [attach_all] attaches. *)
Fixpoint attached_count (docs : list doc) (embs : list emb_record) : nat :=
  match docs, embs with
  | _ :: docs', r :: embs' =>
      (if emb_embedding r is Some _ then 1 else 0) + attached_count docs' embs'
  | _, _ => 0
  end.

(** The records of the [.emb] file of [f], none when the file is
    missing, unreadable or no array. *)
Definition emb_records (f : json_file) : list emb_record :=
  match emb_content f with
  | Some (Some (JList items)) => omap id items
  | _ => []
  end.

(** The number of chunks the [.json] file of [f] gives. *)
Definition text_count (f : json_file) : nat := length (docs_of_file f).

(** The files the two programs write and read: a [.json] file that
    parses holds an array of records, and so does an [.emb] file that
    parses. *)
Definition well_formed (f : json_file) : Prop :=
  (∀ v, json_content f = Some v → ∃ docs, v = records docs)
  ∧ (∀ v, emb_content f = Some (Some v) → ∃ embs, v = records embs).

(** The warning the pass prints for [f]: one when [f] has an [.emb]
    file with another number of records, none otherwise. *)
Definition mismatch_warnings (f : json_file) : list printed :=
  match emb_content f with
  | Some _ =>
      if bool_decide (text_count f ≠ length (emb_records f))
      then [MismatchWarning (file_path f)] else []
  | None => []
  end.

(** The chunks of [f] after the pass. *)
Definition expected_docs (f : json_file) : list doc :=
  attach_all (docs_of_file f) (emb_records f).
End LoaderVocabulary.

(** Every term of [terms] stands at a word position between [a] and
    [b]: the window of words [a..b] contains every query term. *)
Definition covers (words terms : list str) (a b : nat) : Prop :=
  ∀ t, t ∈ terms → ∃ p, a ≤ p ≤ b ∧ words !! p = Some t.

(** The dict that maps each term of a run of occurrences to its last
    position in the run. *)
Definition latest (w : list (nat * str)) : gmap str nat :=
  foldl (λ m e, <[e.2 := e.1]> m) ∅ w.

(** [covers] with every term witnessed by one of the first [r]
    occurrences of the list [occs]. *)
Definition covers_upto (terms : list str) (occs : list (nat * str))
    (r a b : nat) : Prop :=
  ∀ t, t ∈ terms → ∃ k p, k < r ∧ occs !! k = Some (p, t) ∧ a ≤ p ≤ b.

(** The invariant of the two-pointer scan over the occurrences [occs]:
    [found_terms] is the dict of the window from [left] to [rw];
    [best_span] is the initial value or the width of a covering window;
    it is at most the width of every covering window witnessed by the
    first [rk] occurrences and of every covering window that holds an
    occurrence before [left]. *)
Record scan_inv (words terms : list str) (occs : list (nat * str))
    (rk rw : nat) (st : span_state) : Prop := ScanInv {
  inv_left : left st ≤ rw;
  inv_rw : rw ≤ length occs;
  inv_found : found_terms st = latest (drop (left st) (take rw occs));
  inv_bound : best_span st ≤ length words + 1;
  inv_sound :
    best_span st = length words + 1
    ∨ ∃ a b, a ≤ b < length words ∧ covers words terms a b
             ∧ best_span st = b - a + 1;
  inv_done : ∀ a b, covers_upto terms occs rk a b → best_span st ≤ b - a + 1;
  inv_left_done :
    ∀ a b k p t, covers words terms a b → k < left st →
      occs !! k = Some (p, t) → a ≤ p ≤ b → best_span st ≤ b - a + 1;
}.

(** The positions at which [t] stands in [words], ascending. *)
Definition occurrences (words : list str) (t : str) : list nat :=
  (filter (λ iw : nat * str, iw.2 = t) (enumerate words)).*1.

(** What a match of the pattern of the simple text search in [s] is: a
    phrase that stands between two double quotes, or a word. *)
Definition match_shape `{Unicode} (s : str) (m : str * str) : Prop :=
  (m.1 ≠ [] ∧ m.2 = [] ∧ (quote ∉ m.1) ∧ substring (quote :: m.1 ++ [quote]) s)
  ∨ (m.1 = [] ∧ m.2 ≠ [] ∧ Forall (λ c, isspace c = false) m.2 ∧ substring m.2 s).

(** Every stored result names a chunk of the corpus, and the current
    index names a stored result. *)
Definition results_valid (g : globals) (a : SearchApp) : Prop :=
  Forall (λ c : nat * Q, c.1 < length (GLOBAL_CORPUS g)) (results a)
  ∧ (results a ≠ [] → current_result_index a < length (results a)).

(** [k] presses of the button of [show_next_chunk]. *)
Fixpoint press_next (k : nat) (g : globals) (a : SearchApp) : option SearchApp :=
  match k with
  | 0 => Some a
  | S k' => a' ← show_next_chunk g a; press_next k' g a'
  end.

(** [w] is the least width [b - a] of a window of [words] that holds
    every term. *)
Definition narrowest (words terms : list str) (w : nat) : Prop :=
  (∃ a b, a ≤ b < length words ∧ covers words terms a b ∧ b - a = w)
  ∧ ∀ a b, covers words terms a b → w ≤ b - a.

(** An item of a query as a user writes it: a phrase, put between
    double quotes, or a word. *)
Inductive query_item :=
  | Phrase (p : str)
  | Word (w : str).

Definition write_item (it : query_item) : str :=
  match it with
  | Phrase p => quote :: p ++ [quote]
  | Word w => w
  end.

(** The items written one after the other with the character [sp]
    between them. *)
Fixpoint write_query (sp : N) (items : list query_item) : str :=
  match items with
  | [] => []
  | it :: rest =>
      write_item it ++ (if rest is [] then [] else sp :: write_query sp rest)
  end.

(** A phrase is not empty and holds no double quote; a word is not
    empty and holds neither a double quote nor white space. *)
Definition item_ok `{Unicode} (it : query_item) : Prop :=
  match it with
  | Phrase p => p ≠ [] ∧ (quote ∉ p)
  | Word w => w ≠ [] ∧ (quote ∉ w) ∧ Forall (λ c, isspace c = false) w
  end.

Definition phrases_of (items : list query_item) : list str :=
  omap (λ it, if it is Phrase p then Some p else None) items.

Definition words_of (items : list query_item) : list str :=
  omap (λ it, if it is Word w then Some w else None) items.

(** The match that the scan of the query finds for an item: the two
    groups of the pattern. *)
Definition match_of (it : query_item) : str * str :=
  match it with
  | Phrase p => (p, [])
  | Word w => ([], w)
  end.

(** The characters of an item. *)
Definition item_text (it : query_item) : str :=
  match it with
  | Phrase p => p
  | Word w => w
  end.

(** A quoted phrase opens at the head of [s]: a double quote, one or
    more characters other than a double quote, a double quote. *)
Definition opens_phrase (s : str) : Prop :=
  ∃ p rest, p ≠ [] ∧ (quote ∉ p) ∧ s = quote :: p ++ quote :: rest.

(** Reading a query from left to right, as the description of the
    simple text search has it, with what it leaves open settled: where
    a quoted phrase opens, the characters between the two double quotes
    are a phrase; elsewhere a character of white space is passed over,
    and a run of characters other than white space, taken up to the
    next white space or the end of the query, is a word, double quotes
    inside it included. *)
Inductive reads `{Unicode} : str → list query_item → Prop :=
  | reads_end : reads [] []
  | reads_phrase p rest items :
      p ≠ [] → quote ∉ p → reads rest items →
      reads (quote :: p ++ quote :: rest) (Phrase p :: items)
  | reads_word w rest items :
      ¬ opens_phrase (w ++ rest) →
      w ≠ [] → Forall (λ c, isspace c = false) w →
      (match rest with [] => True | c :: _ => isspace c = true end) →
      reads rest items → reads (w ++ rest) (Word w :: items)
  | reads_space c rest items :
      ¬ opens_phrase (c :: rest) → isspace c = true →
      reads rest items → reads (c :: rest) items.

(** The item that a match of the scan stands for. *)
Definition item_of (m : str * str) : query_item :=
  if m.1 is [] then Word m.2 else Phrase m.1.

(** The tokenizer of the library lower-cases the text it is given, as
    [bm25s.tokenize] does with its default [lower=True], which the
    program leaves in place: texts that have the same lower-case form
    get the same tokens. *)
Definition lower_cases `{Unicode, BM25Lib} : Prop :=
  ∀ s1 s2, lower s1 = lower s2 → tokenize s1 = tokenize s2.

(** The chunk [d'] is the chunk [d] but for an embedding it may have
    gained or changed. *)
Definition same_but_embedding (d d' : doc) : Prop :=
  text d' = text d ∧ filename d' = filename d ∧ page_number d' = page_number d
  ∧ (is_Some (embedding d) → is_Some (embedding d')).

(** The number of chunks that carry an embedding. *)
Definition embedded_count (corpus : list doc) : nat :=
  length (filter (λ d, is_Some (embedding d)) corpus).

(** The number of chunks of the listed files that stand at the
    position of a record of their [.emb] file that has an embedding. *)
Definition attached_total `{Paths} (files : list json_file) : nat :=
  sum_list ((λ f, attached_count (docs_of_file f) (emb_records f)) <$> files).

(** The pages after a batch that gave [embeddings]: the first pages
    take the embeddings in order and lose their text, the pages past
    the last embedding are as they were. *)
Definition batch_assigned (pages : list doc) (embeddings : list (list Q))
    : list doc :=
  zip_with (λ page e, del_text (set_embedding page e)) pages embeddings
  ++ drop (length embeddings) pages.

(** The [.json] file of [f] holds an array of page records, and its
    [.emb] file is what [produce] gives on them. *)
Definition produced_by (produce : list doc → list doc) (f : json_file) : Prop :=
  ∃ pages, json_content f = Some (records pages)
           ∧ emb_content f = Some (Some (records (emb_file_of (produce pages)))).

(** * Properties *)

(** ** The stable sort *)
Section SortFacts.
Context {A : Type} (leb : A → A → bool).

Lemma insert_sorted_perm x l : insert_sorted leb x l ≡ₚ x :: l.
Proof.
  induction l as [|y l IH]; simpl; [done|].
  destruct (leb x y); [done|].
  rewrite IH. apply Permutation_swap.
Qed.

Lemma stable_sort_perm l : stable_sort leb l ≡ₚ l.
Proof.
  induction l as [|x l IH]; simpl; [done|].
  by rewrite insert_sorted_perm, IH.
Qed.

Lemma stable_sort_length l : length (stable_sort leb l) = length l.
Proof. by rewrite stable_sort_perm. Qed.

Lemma elem_of_stable_sort x l : x ∈ stable_sort leb l ↔ x ∈ l.
Proof. by rewrite stable_sort_perm. Qed.

(** Elements of a class whose members may stand before one another
    keep their order. *)
Lemma insert_sorted_filter (P : A → bool) x l :
  (∀ y, P x = true → P y = true → leb x y = true) →
  filter (λ y, P y = true) (insert_sorted leb x l)
  = filter (λ y, P y = true) (x :: l).
Proof.
  intros HP. induction l as [|y l IH]; simpl; [done|].
  destruct (leb x y) eqn:Hxy; [done|].
  rewrite (filter_cons _ y (insert_sorted _ _ _)), IH.
  rewrite !filter_cons.
  destruct (decide (P x = true)) as [Hx|Hx];
    destruct (decide (P y = true)) as [Hy|Hy]; try done.
  specialize (HP y Hx Hy). congruence.
Qed.

Lemma stable_sort_filter (P : A → bool) l :
  (∀ x y, P x = true → P y = true → leb x y = true) →
  filter (λ y, P y = true) (stable_sort leb l) = filter (λ y, P y = true) l.
Proof.
  intros HP. induction l as [|x l IH]; simpl; [done|].
  rewrite insert_sorted_filter by auto.
  by rewrite !filter_cons, IH.
Qed.

Context (leb_total : ∀ x y, leb x y = true ∨ leb y x = true).
Context (leb_trans : ∀ x y z, leb x y = true → leb y z = true → leb x z = true).

Lemma insert_sorted_sorted x l :
  StronglySorted (λ a b, leb a b = true) l →
  StronglySorted (λ a b, leb a b = true) (insert_sorted leb x l).
Proof.
  induction 1 as [|y l Hl IH Hy]; simpl.
  - repeat constructor.
  - destruct (leb x y) eqn:Hxy.
    + constructor; [by constructor|].
      constructor; [done|].
      eapply Forall_impl; [exact Hy|]. intros z Hz. by eapply leb_trans.
    + constructor; [done|].
      rewrite insert_sorted_perm. constructor; [|done].
      destruct (leb_total x y); congruence.
Qed.

Lemma stable_sort_sorted l :
  StronglySorted (λ a b, leb a b = true) (stable_sort leb l).
Proof.
  induction l; simpl; [constructor|]. by apply insert_sorted_sorted.
Qed.
End SortFacts.

Lemma StronglySorted_take {A} (R : A → A → Prop) n l :
  StronglySorted R l → StronglySorted R (take n l).
Proof.
  intros Hl. revert n. induction Hl as [|x l Hl IH Hx]; intros [|n]; simpl;
    try constructor; [by apply IH|].
  eapply Forall_forall. intros y Hy. eapply Forall_forall; [exact Hx|].
  by eapply subseteq_take.
Qed.

Lemma StronglySorted_impl {A} (R1 R2 : A → A → Prop) l :
  (∀ x y, R1 x y → R2 x y) → StronglySorted R1 l → StronglySorted R2 l.
Proof.
  intros HR. induction 1 as [|x l Hl IH Hx]; constructor; [done|].
  eapply Forall_impl; [exact Hx|]. auto.
Qed.

Section SortDescFacts.
Context {A : Type} (key : A → Q).

Lemma sort_desc_perm l : sort_desc key l ≡ₚ l.
Proof. apply stable_sort_perm. Qed.

Lemma sort_desc_sorted l :
  StronglySorted (λ x y, (key y <= key x)%Q) (sort_desc key l).
Proof.
  eapply StronglySorted_impl; [|apply stable_sort_sorted].
  - intros x y Hxy. by apply Qle_bool_iff.
  - intros x y. rewrite !Qle_bool_iff.
    destruct (Qlt_le_dec (key x) (key y)) as [Hlt|Hle]; [|by left].
    right. by apply Qlt_le_weak.
  - intros x y z. rewrite !Qle_bool_iff. intros ??. by eapply Qle_trans.
Qed.

(** Candidates of one score keep their order. *)
Lemma sort_desc_stable v l :
  filter (λ x, Qeq_bool (key x) v = true) (sort_desc key l)
  = filter (λ x, Qeq_bool (key x) v = true) l.
Proof.
  apply (stable_sort_filter _ (λ x, Qeq_bool (key x) v)).
  intros x y Hx%Qeq_bool_iff Hy%Qeq_bool_iff.
  apply Qle_bool_iff. rewrite Hx, Hy. apply Qle_refl.
Qed.
(** Two descending arrangements that hold the same candidates of every
    score, in the same order, are one list. *)
Lemma sorted_stable_unique l1 l2 :
  StronglySorted (λ x y, (key y <= key x)%Q) l1 →
  StronglySorted (λ x y, (key y <= key x)%Q) l2 →
  (∀ v, filter (λ x, Qeq_bool (key x) v = true) l1
        = filter (λ x, Qeq_bool (key x) v = true) l2) →
  l1 = l2.
Proof.
  assert (∀ l x, StronglySorted (λ x y, (key y <= key x)%Q) (x :: l) →
            ∀ z, z ∈ filter (λ y, Qeq_bool (key y) (key z) = true) (x :: l) →
                 (key z <= key x)%Q) as Hhead.
  { intros l x Hs z [Hz Hin]%list_elem_of_filter.
    apply StronglySorted_cons in Hs as [Hx _].
    apply elem_of_cons in Hin as [->|Hin]; [apply Qle_refl|].
    rewrite Forall_forall in Hx. by apply Hx. }
  assert (∀ x, Qeq_bool (key x) (key x) = true) as Hrefl
    by (intros x; by apply Qeq_bool_iff).
  intros Hs1. revert l2. induction Hs1 as [|x l1 Hs1 IH Hx]; intros l2 Hs2 Hfilter.
  - destruct l2 as [|y l2]; [done|]. specialize (Hfilter (key y)).
    rewrite filter_nil, filter_cons, decide_True in Hfilter by done. done.
  - destruct l2 as [|y l2].
    { specialize (Hfilter (key x)).
      rewrite filter_nil, filter_cons, decide_True in Hfilter by done. done. }
    assert (key x == key y)%Q as Hxy.
    { apply Qle_antisym.
      - apply (Hhead l2 y Hs2 x). rewrite <- Hfilter.
        apply list_elem_of_filter. split; [done|left].
      - assert (StronglySorted (λ x y, (key y <= key x)%Q) (x :: l1)) as Hs1'
          by by constructor.
        apply (Hhead l1 x Hs1' y). rewrite Hfilter.
        apply list_elem_of_filter. split; [done|left]. }
    assert (x = y) as <-.
    { specialize (Hfilter (key x)). rewrite !filter_cons in Hfilter.
      rewrite decide_True in Hfilter by done.
      rewrite decide_True in Hfilter by (apply Qeq_bool_iff; by symmetry).
      by injection Hfilter. }
    f_equal. apply IH; [by apply StronglySorted_cons in Hs2 as [_ ?]|].
    intros v. specialize (Hfilter v). rewrite !filter_cons in Hfilter.
    destruct (decide (Qeq_bool (key x) v = true)); [by injection Hfilter|done].
Qed.

(** So [sort_desc] is what any stable sort returns: the one arrangement
    of [l] that is descending and keeps the candidates of every score
    in their order. *)
Lemma sort_desc_unique l l' :
  StronglySorted (λ x y, (key y <= key x)%Q) l' →
  (∀ v, filter (λ x, Qeq_bool (key x) v = true) l'
        = filter (λ x, Qeq_bool (key x) v = true) l) →
  l' = sort_desc key l.
Proof.
  intros Hs Hst. apply sorted_stable_unique; [done|apply sort_desc_sorted|].
  intros v. by rewrite sort_desc_stable.
Qed.
End SortDescFacts.

(** ** Substrings *)

Lemma startswith_spec p s : startswith p s = true ↔ ∃ post, s = p ++ post.
Proof.
  revert s. induction p as [|a p IH]; intros [|b s]; simpl.
  - naive_solver.
  - naive_solver.
  - split; [done|]. by intros [? ?].
  - destruct (decide (a = b)) as [->|Hne].
    + rewrite IH. split; intros [post Hp]; exists post; congruence.
    + split; [done|]. intros [post Hp]. congruence.
Qed.

Lemma contains_spec hay needle :
  contains hay needle = true ↔ substring needle hay.
Proof.
  unfold substring. induction hay as [|c hay IH].
  - simpl. rewrite orb_false_r, startswith_spec. split.
    + intros [post Hp]. by exists [], post.
    + intros (pre & post & Hp). destruct pre; [|done]. by exists post.
  - cbn [contains]. rewrite orb_true_iff, startswith_spec, IH. split.
    + intros [[post Hp]|(pre & post & Hp)].
      * by exists [], post.
      * exists (c :: pre), post. by rewrite Hp.
    + intros (pre & post & Hp). destruct pre as [|c' pre].
      * left. by exists post.
      * right. exists pre, post. simpl in Hp. congruence.
Qed.

(** ** Loops that append *)

Lemma foldl_append_filter {A B} (keep : A → bool) (g : A → B) l (acc : list B) :
  foldl (λ acc x, if keep x then acc ++ [g x] else acc) acc l
  = acc ++ (g <$> filter (λ x, keep x = true) l).
Proof.
  revert acc. induction l as [|x l IH]; intros acc; simpl.
  - by rewrite app_nil_r.
  - rewrite IH, filter_cons. destruct (keep x) eqn:Hk.
    + rewrite decide_True by done. by rewrite <- app_assoc.
    + by rewrite decide_False by congruence.
Qed.

Lemma elem_of_enumerate {A} (l : list A) i x :
  (i, x) ∈ enumerate l ↔ l !! i = Some x.
Proof.
  unfold enumerate. rewrite elem_of_lookup_imap. split.
  - intros (j & y & [= -> ->] & Hj). done.
  - intros Hi. by exists i, x.
Qed.

Lemma enumerate_seq {A} (l : list A) : (enumerate l).*1 = seq 0 (length l).
Proof.
  unfold enumerate. rewrite fmap_imap.
  rewrite (imap_ext _ (λ i _, i)) by done.
  by rewrite imap_seq_0, list_fmap_id.
Qed.

Lemma StronglySorted_seq j n : StronglySorted lt (seq j n).
Proof.
  revert j. induction n as [|n IH]; intros j; simpl; constructor; [apply IH|].
  apply Forall_forall. intros k Hk%elem_of_seq. lia.
Qed.

Lemma StronglySorted_sublist {A} (R : A → A → Prop) l1 l2 :
  l1 `sublist_of` l2 → StronglySorted R l2 → StronglySorted R l1.
Proof.
  induction 1 as [|x l1 l2 Hsub IH|x l1 l2 Hsub IH]; intros Hl2.
  - constructor.
  - apply StronglySorted_cons in Hl2 as [Hx Hl2].
    constructor; [by apply IH|].
    eapply Forall_forall. intros y Hy. eapply Forall_forall; [exact Hx|].
    eapply sublist_subseteq; done.
  - apply StronglySorted_cons in Hl2 as [_ Hl2]. by apply IH.
Qed.

(** ** Exact text rerank *)
Section ExactRerank.
Context `{Unicode}.

Lemma exact_loop_filter corpus q top acc :
  (∀ c, c ∈ top → is_Some (text_at corpus c.1)) →
  exact_loop corpus (fold_text q) top acc
  = Some (acc.1 ++ filter (λ c, exact_hit corpus q c = true) top,
          acc.2 ++ filter (λ c, exact_hit corpus q c = false) top).
Proof.
  revert acc. induction top as [|c top IH]; intros acc Htext; simpl.
  - rewrite !app_nil_r. by destruct acc.
  - destruct (Htext c) as [t Ht]; [left|].
    assert (exact_hit corpus q c = contains (fold_text t) (fold_text q)) as Hhit
      by (unfold exact_hit; by rewrite Ht).
    unfold exact_step. rewrite Ht. simpl.
    rewrite !filter_cons, Hhit.
    destruct (contains (fold_text t) (fold_text q)); simpl;
      rewrite IH by (intros; apply Htext; by right); simpl.
    + by rewrite <- app_assoc.
    + by rewrite <- app_assoc.
Qed.

(** C9. For every candidate list whose chunks have a text and every
    query, [rerank_exact_text] returns the candidates whose folded
    text contains the folded query as a substring, in their original
    order, followed by the other candidates in their original order;
    the [(chunk id, score)] pairs are the ones it was given. *)
Theorem rerank_exact_text_stable_partition corpus top_docs query_phrase :
  (∀ c, c ∈ top_docs → is_Some (text_at corpus c.1)) →
  rerank_exact_text corpus top_docs query_phrase
  = Some (filter (λ c, exact_hit corpus query_phrase c = true) top_docs
          ++ filter (λ c, exact_hit corpus query_phrase c = false) top_docs)
  ∧ ∀ c, c ∈ top_docs →
      (exact_hit corpus query_phrase c = true ↔
       ∃ t, text_at corpus c.1 = Some t
            ∧ substring (fold_text query_phrase) (fold_text t)).
Proof.
  intros Htext. split.
  - unfold rerank_exact_text. by rewrite exact_loop_filter.
  - intros c Hc. destruct (Htext c Hc) as [t Ht].
    unfold exact_hit. rewrite Ht, contains_spec. split.
    + intros Hsub. by exists t.
    + by intros (t' & [= <-] & Hsub).
Qed.
End ExactRerank.

(** ** Simple text search *)
Section SimpleSearch.
Context `{Unicode}.

Lemma forallb_contains hay (needles : list str) :
  forallb (contains hay) needles = true ↔ ∀ n, n ∈ needles → substring n hay.
Proof.
  rewrite forallb_forall. setoid_rewrite <- list_elem_of_In.
  by setoid_rewrite contains_spec.
Qed.

Lemma chunk_matches_spec quoted_phrases unquoted_words d :
  chunk_matches quoted_phrases unquoted_words d = true ↔
  (∀ p, p ∈ quoted_phrases → substring (fold_text p) (folded_text d))
  ∧ (∀ w, w ∈ unquoted_words → substring (fold_text w) (folded_text d)).
Proof.
  unfold chunk_matches. rewrite andb_true_iff, !forallb_contains.
  setoid_rewrite list_elem_of_fmap. split.
  - intros [Hp Hw]. split; intros x Hx; [apply Hp|apply Hw]; by exists x.
  - intros [Hp Hw]. split; intros ? (x & -> & Hx); auto.
Qed.

Lemma simple_text_loop qp uw (l : list (nat * doc)) (acc : list nat) :
  foldl (λ matches id,
           let doc_text_norm :=
             match text id.2 with Some t => fold_text t | None => [] end in
           if negb (forallb (contains doc_text_norm) (fold_text <$> qp))
           then matches
           else if negb (forallb (contains doc_text_norm) (fold_text <$> uw))
           then matches
           else matches ++ [id.1])
        acc l
  = acc ++ (filter (λ id : nat * doc, chunk_matches qp uw id.2 = true) l).*1.
Proof.
  revert acc. induction l as [|[i d] l IH]; intros acc; simpl.
  - by rewrite app_nil_r.
  - rewrite IH, filter_cons. cbn [snd].
    destruct (chunk_matches qp uw d) eqn:Hm;
      unfold chunk_matches, folded_text in Hm.
    + apply andb_true_iff in Hm as [Hp Hw]. rewrite Hp, Hw. simpl.
      by rewrite <- app_assoc.
    + apply andb_false_iff in Hm as [Hp|Hw].
      * by rewrite Hp.
      * rewrite Hw. by destruct (forallb _ (fold_text <$> qp)).
Qed.

(** The loop over [enumerate(GLOBAL_CORPUS)] keeps the ids of the
    matching chunks, in order. *)
Lemma simple_text_search_filter corpus raw_query :
  simple_text_search corpus raw_query
  = (λ doc_id, (doc_id, 1%Q)) <$>
      (filter (λ id : nat * doc,
                 chunk_matches (parse_simple_search_query raw_query).1
                   (parse_simple_search_query raw_query).2 id.2 = true)
              (enumerate corpus)).*1.
Proof.
  unfold simple_text_search.
  destruct (parse_simple_search_query raw_query) as [qp uw]. simpl.
  by rewrite simple_text_loop.
Qed.

(** With the phrases and words that [parse_simple_search_query] finds
    in the query: a chunk id is in the result iff the folded text of
    that chunk contains every folded phrase and every folded word. *)
Lemma simple_text_search_elem corpus raw_query doc_id score :
  (doc_id, score) ∈ simple_text_search corpus raw_query ↔
  score = 1%Q ∧
  ∃ d, corpus !! doc_id = Some d
       ∧ (∀ p, p ∈ (parse_simple_search_query raw_query).1 →
            substring (fold_text p) (folded_text d))
       ∧ (∀ w, w ∈ (parse_simple_search_query raw_query).2 →
            substring (fold_text w) (folded_text d)).
Proof.
  rewrite simple_text_search_filter, list_elem_of_fmap. split.
  - intros (i & [= -> ->] & Hi). split; [done|].
    apply list_elem_of_fmap in Hi as ([j d] & -> & Hjd).
    apply list_elem_of_filter in Hjd as [Hm Hjd].
    apply elem_of_enumerate in Hjd. apply chunk_matches_spec in Hm.
    exists d. by destruct Hm.
  - intros (-> & d & Hd & Hp & Hw). exists doc_id. split; [done|].
    apply list_elem_of_fmap. exists (doc_id, d). split; [done|].
    apply list_elem_of_filter. split.
    + by apply chunk_matches_spec.
    + by apply elem_of_enumerate.
Qed.

(** The ids of the result ascend. *)
Lemma simple_text_search_sorted corpus raw_query :
  StronglySorted lt (simple_text_search corpus raw_query).*1.
Proof.
  rewrite simple_text_search_filter, <- list_fmap_compose.
  rewrite (list_fmap_ext _ id (_.*1)) by done. rewrite list_fmap_id.
  eapply StronglySorted_sublist; [|apply (StronglySorted_seq 0 (length corpus))].
  rewrite <- enumerate_seq. apply fmap_sublist, sublist_filter.
Qed.
End SimpleSearch.

(** ** BM25 retrieval *)

Lemma filter_take_prefix {A} (P : A → Prop) `{!∀ x, Decision (P x)} n (l : list A) :
  filter P (take n l) `prefix_of` filter P l.
Proof.
  rewrite <- (take_drop n l) at 2. rewrite filter_app. by apply prefix_app_r.
Qed.

Section BM25Retrieval.
Context `{Unicode, Numeric, BM25Lib, Embedder}.

Lemma bm25_search_eq corpus model raw_query rows :
  retrieve model (tokenize raw_query) (length corpus) = Some rows →
  bm25_search corpus model raw_query
  = Some (take MAX_SEARCH_RESULTS (sort_desc snd rows)).
Proof. intros Hrows. unfold bm25_search. by rewrite Hrows. Qed.

(** What [publish] stores does not depend on the application state it
    starts from. *)
Lemma publish_results g ranking a1 a2 :
  results <$> publish g ranking a1 = results <$> publish g ranking a2.
Proof.
  unfold publish. destruct ranking as [|[doc_id score] ranking]; [done|].
  unfold show_current_chunk. simpl.
  by destruct (GLOBAL_CORPUS g !! doc_id).
Qed.

Lemma search_bm25_unfold g query_input a model :
  GLOBAL_CORPUS g ≠ [] → strip query_input ≠ [] →
  search_method_combo a = BM25 → GLOBAL_BM25_MODEL g = Some model →
  search g query_input a
  = (truncated_ranking ←
       bm25_search (GLOBAL_CORPUS g) model (strip query_input);
     final_ranking ←
       rerank g (rerank_combo a) truncated_ranking
         (fold_text <$> findall_word (strip query_input)) (strip query_input);
     publish g final_ranking
       (set_query_terms (fold_text <$> findall_word (strip query_input)) a)).
Proof.
  intros Hc Hq Hm Hmodel. unfold search.
  rewrite bool_decide_eq_false_2 by done.
  rewrite bool_decide_eq_false_2 by done.
  simpl. by rewrite Hm, Hmodel.
Qed.

(** C1, amended. For every loaded corpus and every non-empty query,
    BM25 retrieval returns the first [MAX_SEARCH_RESULTS] rows of the
    library's answer sorted descending by score: as many rows as the
    library gave, up to [MAX_SEARCH_RESULTS], each a row of the
    answer; rows of equal score keep the order in which the library
    returned them (no tie-break by chunk id is applied); rows left
    out score no higher than the rows kept; and two searches with the
    same corpus, model, query and rerank method store the same
    ranking whatever the application state they start from. *)
Theorem bm25_search_sorted_stable corpus model raw_query rows :
  retrieve model (tokenize raw_query) (length corpus) = Some rows →
  ∃ ranking,
    bm25_search corpus model raw_query = Some ranking
    ∧ length ranking = MAX_SEARCH_RESULTS `min` length rows
    ∧ (∃ rest, rows ≡ₚ ranking ++ rest)
    ∧ StronglySorted (λ x y, (y.2 <= x.2)%Q) ranking
    ∧ (∀ v, filter (λ x, Qeq_bool x.2 v = true) ranking
              `prefix_of` filter (λ x, Qeq_bool x.2 v = true) rows)
    ∧ (∀ x y, x ∈ ranking → y ∈ rows → y ∉ ranking → (y.2 <= x.2)%Q)
    ∧ (∀ g query_input a1 a2,
         GLOBAL_CORPUS g = corpus → GLOBAL_BM25_MODEL g = Some model →
         corpus ≠ [] → strip query_input = raw_query → raw_query ≠ [] →
         search_method_combo a1 = BM25 → search_method_combo a2 = BM25 →
         rerank_combo a1 = rerank_combo a2 →
         results <$> search g query_input a1 = results <$> search g query_input a2).
Proof.
  intros Hrows. eexists. split; [by apply bm25_search_eq|].
  split; [|split; [|split; [|split; [|split]]]].
  - rewrite length_take. unfold sort_desc. by rewrite stable_sort_length.
  - exists (drop MAX_SEARCH_RESULTS (sort_desc snd rows)).
    by rewrite take_drop, sort_desc_perm.
  - apply StronglySorted_take, sort_desc_sorted.
  - intros v. rewrite <- (sort_desc_stable snd v rows).
    apply filter_take_prefix.
  - intros x y Hx Hy Hny.
    pose proof (sort_desc_sorted snd rows) as Hs.
    rewrite <- (take_drop MAX_SEARCH_RESULTS) in Hs.
    eapply (StronglySorted_app_1_elem_of _ _ _ x y) in Hs; [done|done|].
    apply (elem_of_stable_sort (λ x y, Qle_bool y.2 x.2)) in Hy.
    fold (sort_desc snd rows) in Hy.
    rewrite <- (take_drop MAX_SEARCH_RESULTS) in Hy.
    apply elem_of_app in Hy as [Hy|Hy]; done.
  - intros g query_input a1 a2 Hg Hmodel Hne Hq Hqne Hm1 Hm2 Hr.
    subst corpus raw_query.
    rewrite !(search_bm25_unfold g query_input _ model) by done.
    rewrite Hr. destruct (bm25_search _ _ _) as [truncated|]; [|done]. simpl.
    destruct (rerank _ _ _ _ _) as [final|]; [|done]. simpl.
    apply publish_results.
Qed.
End BM25Retrieval.

(** ** The cap on the candidate lists *)
Section Caps.
Context `{Unicode, Numeric, BM25Lib, Embedder}.

Lemma mapM_penalized_enumerated corpus (l : list (nat * Q)) :
  Forall (λ c, c.1 < length corpus) l →
  ∃ l', mapM (penalized corpus) l = Some l' ∧ length l' = length l
        ∧ l'.*1 = l.*1.
Proof.
  induction 1 as [|c l Hc Hl (l' & IH & Hlen & Hfst)].
  - by exists [].
  - destruct (lookup_lt_is_Some_2 corpus c.1 Hc) as [d Hd].
    assert (∃ q, penalized corpus c = Some (c.1, q)) as [q Hq].
    { unfold penalized. rewrite Hd. simpl. by eexists. }
    exists ((c.1, q) :: l'). cbn. rewrite Hq. cbn. rewrite IH. cbn.
    split; [done|]. split; [by rewrite Hlen|by rewrite Hfst].
Qed.

Lemma embedding_scores_loop query_embedding (l : list (nat * doc)) acc :
  foldl (λ doc_scores id,
           match embedding id.2 with
           | None => doc_scores
           | Some emb =>
               let text := default [] (text id.2) in
               if bool_decide (strip text = []) then doc_scores
               else doc_scores ++ [(id.1, np_dot emb query_embedding)]
           end) acc l
  = acc ++ omap (λ id : nat * doc,
                   emb ← embedding id.2;
                   if bool_decide (strip (default [] (text id.2)) = []) then None
                   else Some (id.1, np_dot emb query_embedding)) l.
Proof.
  revert acc. induction l as [|[i d] l IH]; intros acc; simpl.
  - by rewrite app_nil_r.
  - rewrite IH. destruct (embedding d) as [emb|]; simpl; [|done].
    destruct (bool_decide _); simpl; [done|]. by rewrite <- app_assoc.
Qed.

Lemma embedding_scores_omap corpus query_embedding :
  embedding_scores corpus query_embedding
  = omap (λ id : nat * doc,
            emb ← embedding id.2;
            if bool_decide (strip (default [] (text id.2)) = []) then None
            else Some (id.1, np_dot emb query_embedding)) (enumerate corpus).
Proof. unfold embedding_scores. by rewrite embedding_scores_loop. Qed.

Lemma embedding_scores_in_range corpus query_embedding :
  Forall (λ c, c.1 < length corpus) (embedding_scores corpus query_embedding).
Proof.
  rewrite embedding_scores_omap. apply Forall_forall. intros c Hc.
  apply list_elem_of_omap in Hc as ([i d] & Hid & Hc).
  apply elem_of_enumerate, lookup_lt_Some in Hid. simpl in Hc.
  destruct (embedding d); simpl in Hc; [|done].
  destruct (bool_decide _); by simplify_eq.
Qed.

Lemma top_k_in_range corpus query_embedding :
  Forall (λ c, c.1 < length corpus)
    (take MAX_SEARCH_RESULTS
       (sort_desc snd (embedding_scores corpus query_embedding))).
Proof.
  apply Forall_take. eapply Forall_forall. intros c Hc.
  unfold sort_desc in Hc. apply (proj1 (elem_of_stable_sort _ _ _)) in Hc.
  pose proof (embedding_scores_in_range corpus query_embedding) as Hall.
  rewrite Forall_forall in Hall. by apply Hall.
Qed.

(** The embeddings search always yields a ranking, as long as its
    top candidates. *)
Lemma embeddings_search_total corpus raw_query :
  ∃ ranking, embeddings_search corpus raw_query = Some ranking
    ∧ length ranking
      = length (take MAX_SEARCH_RESULTS
                  (sort_desc snd (embedding_scores corpus (query_embed raw_query)))).
Proof.
  unfold embeddings_search.
  destruct (mapM_penalized_enumerated corpus _
              (top_k_in_range corpus (query_embed raw_query)))
    as (l' & -> & Hlen & _).
  eexists. split; [done|]. unfold sort_desc at 1. by rewrite stable_sort_length.
Qed.

Lemma exact_loop_length corpus query_norm top acc acc' :
  exact_loop corpus query_norm top acc = Some acc' →
  length acc'.1 + length acc'.2 = length acc.1 + length acc.2 + length top.
Proof.
  revert acc. induction top as [|c top IH]; intros acc; simpl.
  - intros [= <-]. lia.
  - intros Hl. apply bind_Some in Hl as (acc1 & Hstep & Hl).
    apply IH in Hl. rewrite Hl. unfold exact_step in Hstep.
    apply bind_Some in Hstep as (t & _ & Hstep).
    destruct (contains _ _); simplify_eq; simpl; rewrite ?length_app; simpl; lia.
Qed.

(** No reranker lengthens the list it is given. *)
Lemma rerank_length g method truncated_ranking qt raw_query final :
  rerank g method truncated_ranking qt raw_query = Some final →
  length final ≤ length truncated_ranking.
Proof.
  destruct method; simpl.
  - by intros [= ->].
  - unfold rerank_minimal_span. intros Hr.
    apply bind_Some in Hr as (l & Hl%length_mapM & [= <-]).
    unfold sort_desc. rewrite stable_sort_length. lia.
  - unfold rerank_exact_text. intros Hr.
    apply bind_Some in Hr as (acc & Hacc%exact_loop_length & [= <-]).
    rewrite length_app. simpl in Hacc. lia.
  - destruct (FASTEMBED_AVAILABLE g); [|by intros [= ->]].
    unfold rerank_with_embeddings. intros Hr.
    apply bind_Some in Hr as (l & Hl%length_mapM & [= <-]).
    unfold sort_desc. rewrite stable_sort_length, length_zip_with. lia.
Qed.

(** C4, amended. For every corpus and query, BM25 retrieval (before
    and after any rerank) and the embeddings search produce a
    candidate list of at most [MAX_SEARCH_RESULTS] entries; the simple
    text search returns every matching chunk, so its list is bounded
    by the size of the corpus only. *)
Theorem candidate_list_caps corpus model raw_query :
  (∀ rows, retrieve model (tokenize raw_query) (length corpus) = Some rows →
     ∃ ranking, bm25_search corpus model raw_query = Some ranking
       ∧ length ranking ≤ MAX_SEARCH_RESULTS
       ∧ ∀ g method qt final,
           rerank g method ranking qt raw_query = Some final →
           length final ≤ MAX_SEARCH_RESULTS)
  ∧ (∃ ranking, embeddings_search corpus raw_query = Some ranking
       ∧ length ranking ≤ MAX_SEARCH_RESULTS)
  ∧ length (simple_text_search corpus raw_query) ≤ length corpus.
Proof.
  split; [|split].
  - intros rows Hrows. eexists. split; [by apply bm25_search_eq|].
    assert (length (take MAX_SEARCH_RESULTS (sort_desc snd rows))
            ≤ MAX_SEARCH_RESULTS) as Hlen by (rewrite length_take; lia).
    split; [done|]. intros g method qt final Hf%rerank_length. lia.
  - destruct (embeddings_search_total corpus raw_query) as (r & Hr & Hlen).
    exists r. split; [done|]. rewrite Hlen, length_take. lia.
  - rewrite simple_text_search_filter, !length_fmap.
    etrans; [apply length_filter|]. unfold enumerate. by rewrite length_imap.
Qed.
End Caps.

(** ** The fallback of the embeddings search *)
Section Fallback.
Context `{Unicode, Numeric, BM25Lib, Embedder}.

(** The ranking a search stores depends on the application state
    through the two selectors, the flag and the ranking stored before
    (which the reported conditions leave in place). *)
Lemma search_results_indep g query_input a1 a2 :
  search_method_combo a1 = search_method_combo a2 →
  rerank_combo a1 = rerank_combo a2 →
  embeddings_present a1 = embeddings_present a2 →
  results a1 = results a2 →
  results <$> search g query_input a1 = results <$> search g query_input a2.
Proof.
  intros Hm Hr He Hres. unfold search.
  destruct (bool_decide (GLOBAL_CORPUS g = [])); [simpl; congruence|].
  destruct (bool_decide (strip query_input = [])); [simpl; congruence|].
  cbn [search_method_combo rerank_combo embeddings_present set_query_terms query_terms].
  rewrite Hm, Hr, He.
  destruct (search_method_combo a2).
  - destruct (GLOBAL_BM25_MODEL g) as [model|]; [|simpl; congruence].
    destruct (bm25_search _ _ _) as [truncated|]; [|done]. simpl.
    destruct (rerank _ _ _ _ _) as [final|]; [|done]. simpl.
    apply publish_results.
  - apply publish_results.
  - destruct (embeddings_present a2); simpl; [|congruence].
    destruct (negb (FASTEMBED_AVAILABLE g) || negb (GLOBAL_EMBED_MODEL g));
      [simpl; congruence|].
    destruct (embeddings_search _ _) as [ranking|]; [|done]. simpl.
    apply publish_results.
Qed.

End Fallback.

(** ** The embeddings search *)
Section EmbeddingsSearch.
Context `{Unicode, Numeric, BM25Lib, Embedder}.

Lemma strip_nil_inv (s : str) : strip s ≠ [] → s ≠ [].
Proof. intros Hs ->. by apply Hs. Qed.

Lemma elem_of_embedding_scores corpus qv doc_id s :
  (doc_id, s) ∈ embedding_scores corpus qv ↔
  ∃ d emb, corpus !! doc_id = Some d ∧ embedding d = Some emb
           ∧ strip (default [] (text d)) ≠ [] ∧ s = np_dot emb qv.
Proof.
  rewrite embedding_scores_omap, list_elem_of_omap. split.
  - intros ([i d] & Hid%elem_of_enumerate & Hs). simpl in Hs.
    destruct (embedding d) as [emb|] eqn:He; simpl in Hs; [|done].
    case_bool_decide as Hstrip; [done|]. simplify_eq. by exists d, emb.
  - intros (d & emb & Hd & He & Hstrip & ->). exists (doc_id, d).
    split; [by apply elem_of_enumerate|]. simpl. rewrite He. simpl.
    by rewrite bool_decide_eq_false_2.
Qed.

(** On a candidate with a dot product the penalty is the product with
    the power of the text length. *)
Lemma penalized_scored corpus qv c :
  c ∈ embedding_scores corpus qv →
  penalized corpus c
  = Some (c.1, fmul c.2 (pow_half (text_length corpus c.1))).
Proof.
  destruct c as [doc_id s]. intros Hc.
  apply elem_of_embedding_scores in Hc as (d & emb & Hd & He & Hstrip & ->).
  unfold penalized, text_length. simpl. rewrite Hd. simpl.
  apply strip_nil_inv in Hstrip.
  destruct (text d) as [t|]; simpl in *; [|done].
  destruct t; [done|]. done.
Qed.

(** C7, amended. For every corpus and query, the embeddings search
    scores exactly the chunks that carry an embedding and whose text
    has a character that is not white space (chunks without
    embedding, without text, or with a blank text are left out);
    keeps the [MAX_SEARCH_RESULTS] chunks of highest dot product;
    gives each of them the final score [raw_score * length ** 0.5]
    for the character length of its text; and returns them sorted
    descending by that final score. *)
Theorem embeddings_search_correct corpus raw_query :
  let qv := query_embed raw_query in
  let scored := embedding_scores corpus qv in
  (∀ doc_id s, (doc_id, s) ∈ scored ↔
     ∃ d emb, corpus !! doc_id = Some d ∧ embedding d = Some emb
              ∧ strip (default [] (text d)) ≠ [] ∧ s = np_dot emb qv)
  ∧ ∃ top_k rest ranking,
      scored ≡ₚ top_k ++ rest
      ∧ length top_k = MAX_SEARCH_RESULTS `min` length scored
      ∧ (∀ x y, x ∈ top_k → y ∈ rest → (y.2 <= x.2)%Q)
      ∧ embeddings_search corpus raw_query = Some ranking
      ∧ ranking ≡ₚ (λ c, (c.1, fmul c.2 (pow_half (text_length corpus c.1))))
                     <$> top_k
      ∧ StronglySorted (λ x y, (y.2 <= x.2)%Q) ranking.
Proof.
  intros qv scored. split; [apply elem_of_embedding_scores|].
  exists (take MAX_SEARCH_RESULTS (sort_desc snd scored)),
         (drop MAX_SEARCH_RESULTS (sort_desc snd scored)).
  assert (mapM (penalized corpus) (take MAX_SEARCH_RESULTS (sort_desc snd scored))
          = Some ((λ c, (c.1, fmul c.2 (pow_half (text_length corpus c.1))))
                    <$> take MAX_SEARCH_RESULTS (sort_desc snd scored))) as Hpen.
  { apply mapM_Some, Forall2_fmap_r, Forall_Forall2_diag, Forall_forall.
    intros c Hc. apply (penalized_scored corpus qv).
    apply subseteq_take in Hc. unfold sort_desc in Hc.
    by apply (proj1 (elem_of_stable_sort _ _ _)) in Hc. }
  eexists. split; [|split; [|split; [|split; [|split]]]].
  - by rewrite take_drop, sort_desc_perm.
  - rewrite length_take. unfold sort_desc. by rewrite stable_sort_length.
  - intros x y Hx Hy. pose proof (sort_desc_sorted snd scored) as Hs.
    rewrite <- (take_drop MAX_SEARCH_RESULTS) in Hs.
    by eapply (StronglySorted_app_1_elem_of _ _ _ x y) in Hs.
  - unfold embeddings_search. fold qv. fold scored. rewrite Hpen. done.
  - apply sort_desc_perm.
  - apply sort_desc_sorted.
Qed.
End EmbeddingsSearch.

(** ** The embedding pass *)
Section EmbeddingPass.
Context `{Numeric, BM25Lib, Paths}.

Lemma emb_item_records embs i : emb_item (records embs) i = embs !! i.
Proof.
  unfold emb_item, records. rewrite list_lookup_fmap.
  by destruct (embs !! i).
Qed.

Lemma attach_one_shift r embs ci i st :
  attach_one (records (r :: embs)) ci (S i) st
  = attach_one (records embs) (S ci) i st.
Proof.
  unfold attach_one. rewrite !emb_item_records. by rewrite Nat.add_succ_r.
Qed.

Lemma attach_range_shift r embs ci range st :
  attach_range (records (r :: embs)) ci (S <$> range) st
  = attach_range (records embs) (S ci) range st.
Proof.
  revert st. induction range as [|i range IH]; intros st; [done|].
  cbn [fmap list_fmap attach_range]. rewrite attach_one_shift.
  destruct (attach_one (records embs) (S ci) i st); [apply IH|done].
Qed.

(** The inner loop on the chunks of one file, which stand in the
    corpus after [pre]. *)
Lemma attach_range_unit docs embs pre post n :
  attach_range (records embs) (length pre)
    (seq 0 (length docs `min` length embs)) (pre ++ docs ++ post, n)
  = Some (pre ++ attach_all docs embs ++ post, n + attached_count docs embs).
Proof.
  revert embs pre n. induction docs as [|d docs IH]; intros embs pre n.
  - simpl. by rewrite Nat.add_0_r.
  - destruct embs as [|r embs].
    + simpl. by rewrite Nat.add_0_r.
    + cbn [length Nat.min seq attach_range].
      rewrite <- fmap_S_seq.
      assert ((pre ++ (d :: docs) ++ post) !! (length pre + 0) = Some d) as Hd.
      { rewrite Nat.add_0_r. by rewrite lookup_app_r, Nat.sub_diag. }
      unfold attach_one at 1. cbn [fst snd]. rewrite Hd, emb_item_records. cbn.
      destruct r as [[e|]]; cbn.
      * rewrite attach_range_shift, insert_app_r. cbn.
        specialize (IH embs (pre ++ [set_embedding d (np_array_float32 e)]) (S n)).
        rewrite length_app in IH. simpl in IH. rewrite Nat.add_1_r in IH.
        rewrite <- !app_assoc in IH. simpl in IH. rewrite IH.
        f_equal. f_equal. lia.
      * rewrite attach_range_shift.
        specialize (IH embs (pre ++ [d]) n).
        rewrite length_app in IH. simpl in IH. rewrite Nat.add_1_r in IH.
        rewrite <- !app_assoc in IH. simpl in IH. by rewrite IH.
Qed.

Lemma length_docs_of_file f : length (docs_of_file f) = text_count f.
Proof. done. Qed.

Lemma length_attach_all docs embs : length (attach_all docs embs) = length docs.
Proof.
  revert embs. induction docs as [|d docs IH]; intros [|r embs]; simpl; auto.
Qed.

Lemma length_expected_docs f : length (expected_docs f) = text_count f.
Proof. unfold expected_docs. by rewrite length_attach_all, length_docs_of_file. Qed.

Lemma mapM_fmap_Some {A B} (g : A → B) (l : list A) :
  mapM (λ item, g <$> item) (Some <$> l) = Some (g <$> l).
Proof. induction l as [|x l IH]; [done|]. cbn. by rewrite IH. Qed.

Lemma omap_id_Some {A} (l : list A) : omap id (Some <$> l) = l.
Proof. induction l as [|x l IH]; [done|]. cbn. by rewrite IH. Qed.

(** On a well-formed file the second pass counts the records that the
    first pass added. *)
Lemma well_formed_len f :
  well_formed f →
  len (default (JList []) (json_content f)) = Some (text_count f).
Proof.
  intros [Hjson _]. unfold text_count, docs_of_file, read_file.
  destruct (json_content f) as [v|]; [|done].
  destruct (Hjson v eq_refl) as [docs ->]. cbn.
  rewrite mapM_fmap_Some. cbn. by rewrite !length_fmap.
Qed.

Lemma well_formed_emb f emb :
  well_formed f → emb_content f = Some emb →
  default (JList []) emb = records (emb_records f).
Proof.
  intros [_ Hemb] Hf. unfold emb_records. rewrite Hf.
  destruct emb as [v|]; [|done].
  destruct (Hemb v Hf) as [embs ->]. cbn. by rewrite omap_id_Some.
Qed.

Lemma length_records {A} (l : list A) : len (records l) = Some (length l).
Proof. cbn. by rewrite length_fmap. Qed.

Lemma attached_count_nil docs : attached_count docs [] = 0.
Proof. by destruct docs. Qed.

(** One turn of the loop over the files, on a well-formed file whose
    chunks stand in the corpus after [pre]. *)
Lemma load_embeddings_file_count f pre post count out :
  well_formed f →
  load_embeddings_file f
    (EmbState (pre ++ docs_of_file f ++ post) count (length pre) out)
  = Some (EmbState (pre ++ expected_docs f ++ post)
            (count + attached_count (docs_of_file f) (emb_records f))
            (length pre + text_count f) (out ++ mismatch_warnings f)).
Proof.
  intros Hwf. unfold load_embeddings_file, expected_docs, mismatch_warnings.
  rewrite (well_formed_len f Hwf).
  cbn [mbind option_bind es_corpus es_emb_count es_corpus_index es_printed].
  destruct (emb_content f) as [emb|] eqn:Hemb.
  - rewrite (well_formed_emb f emb Hwf Hemb), length_records.
    cbn [mbind option_bind].
    replace (if bool_decide (text_count f ≠ length (emb_records f))
             then text_count f `min` length (emb_records f) else text_count f)
      with (length (docs_of_file f) `min` length (emb_records f)).
    2:{ rewrite length_docs_of_file. case_bool_decide as Hne; [done|].
        lia. }
    rewrite attach_range_unit. cbn. f_equal. f_equal.
    destruct (bool_decide _); [done|by rewrite app_nil_r].
  - assert (emb_records f = []) as -> by (unfold emb_records; by rewrite Hemb).
    rewrite attached_count_nil, Nat.add_0_r.
    destruct (docs_of_file f); simpl; by rewrite ?app_nil_r.
Qed.

Lemma load_embeddings_files_count files pre post count out :
  Forall well_formed files →
  load_embeddings_files files
    (EmbState (pre ++ (files ≫= docs_of_file) ++ post) count (length pre) out)
  = Some (EmbState (pre ++ (files ≫= expected_docs) ++ post)
            (count + attached_total files)
            (length pre + length (files ≫= docs_of_file))
            (out ++ (files ≫= mismatch_warnings))).
Proof.
  intros Hwf. revert pre count out.
  induction Hwf as [|f files Hf Hwf IH]; intros pre count out.
  - simpl. by rewrite !Nat.add_0_r, app_nil_r.
  - cbn [load_embeddings_files]. rewrite !bind_cons, <- !app_assoc.
    rewrite load_embeddings_file_count by done. cbn.
    replace (length pre + text_count f) with (length (pre ++ expected_docs f))
      by (by rewrite length_app, length_expected_docs).
    rewrite (app_assoc pre), IH. unfold attached_total. cbn.
    f_equal. f_equal.
    + by rewrite <- !app_assoc.
    + lia.
    + rewrite !length_app, length_expected_docs, length_docs_of_file. lia.
    + by rewrite <- app_assoc.
Qed.

(** The pass on the corpus that the first pass loaded from the same
    well-formed files: it does not raise, every file's chunks are
    attached to the records of its own [.emb] file, one warning is
    printed per file whose two counts differ, and the last line
    carries the number of embeddings set. *)
Lemma load_embeddings_for_corpus_spec files :
  Forall well_formed files →
  load_embeddings_for_corpus files (files ≫= docs_of_file)
  = Some (files ≫= expected_docs,
          (files ≫= mismatch_warnings) ++ [LoadedEmbeddings (attached_total files)]).
Proof.
  intros Hwf. unfold load_embeddings_for_corpus.
  pose proof (load_embeddings_files_count files [] [] 0 [] Hwf) as Hl.
  simpl in Hl. rewrite !app_nil_r in Hl. by rewrite Hl.
Qed.

Lemma lookup_attach_all docs embs i :
  attach_all docs embs !! i = (λ d, attach d (embs !! i)) <$> docs !! i.
Proof.
  revert embs i.
  induction docs as [|d docs IH]; intros [|r embs] [|i]; simpl;
    first [done | by destruct (docs !! i) | apply IH].
Qed.

(** The chunks of a file stand after the chunks of the files before it. *)
Lemma lookup_bind_unit {A} (g : json_file → list A) before f after i :
  i < length (g f) →
  ((before ++ f :: after) ≫= g) !! (length (before ≫= g) + i) = g f !! i.
Proof.
  intros Hi. rewrite bind_app, bind_cons.
  rewrite lookup_app_r by lia.
  replace (length (before ≫= g) + i - length (before ≫= g)) with i by lia.
  by rewrite lookup_app_l.
Qed.

Lemma length_bind_expected files :
  length (files ≫= expected_docs) = length (files ≫= docs_of_file).
Proof.
  induction files as [|f files IH]; [done|].
  rewrite !bind_cons, !length_app, IH.
  by rewrite length_expected_docs, length_docs_of_file.
Qed.

(** *** What the pass never touches *)

#[local] Instance same_but_embedding_refl : Reflexive same_but_embedding.
Proof. by intros d. Qed.

Lemma same_but_embedding_set d0 d e :
  same_but_embedding d0 d → same_but_embedding d0 (set_embedding d e).
Proof. intros (?&?&?&?). by repeat split. Qed.

Lemma attach_one_same l0 embs ci i st st' :
  Forall2 same_but_embedding l0 st.1 →
  attach_one embs ci i st = Some st' →
  Forall2 same_but_embedding l0 st'.1.
Proof.
  intros Hall. unfold attach_one. intros Ha.
  apply bind_Some in Ha as (d & Hd & Ha).
  apply bind_Some in Ha as (page & _ & Ha).
  destruct (emb_embedding page) as [e|]; simplify_eq; [|done]. cbn.
  destruct (Forall2_lookup_r _ _ _ _ _ Hall Hd) as (d0 & Hd0 & Hsame).
  rewrite <- (list_insert_id l0 (ci + i) d0) by done.
  apply Forall2_insert; [done|]. by apply same_but_embedding_set.
Qed.

Lemma attach_range_same l0 embs ci range st st' :
  Forall2 same_but_embedding l0 st.1 →
  attach_range embs ci range st = Some st' →
  Forall2 same_but_embedding l0 st'.1.
Proof.
  revert st. induction range as [|i range IH]; intros st Hall; simpl.
  - by intros [= <-].
  - intros Ha. apply bind_Some in Ha as (st1 & Hone & Ha).
    eapply IH; [|done]. by eapply attach_one_same.
Qed.

Lemma load_embeddings_file_same l0 f st st' :
  Forall2 same_but_embedding l0 (es_corpus st) →
  load_embeddings_file f st = Some st' →
  Forall2 same_but_embedding l0 (es_corpus st').
Proof.
  intros Hall. unfold load_embeddings_file. intros Hl.
  apply bind_Some in Hl as (num_pages & _ & Hl).
  destruct (emb_content f) as [emb|]; [|by injection Hl as <-].
  apply bind_Some in Hl as (num_emb & _ & Hl).
  apply bind_Some in Hl as ([corpus emb_count] & Hrange & [= <-]).
  by apply (attach_range_same l0) in Hrange.
Qed.

Lemma load_embeddings_files_same l0 files st st' :
  Forall2 same_but_embedding l0 (es_corpus st) →
  load_embeddings_files files st = Some st' →
  Forall2 same_but_embedding l0 (es_corpus st').
Proof.
  revert st. induction files as [|f files IH]; intros st Hall; simpl.
  - by intros [= <-].
  - intros Hl. apply bind_Some in Hl as (st1 & Hfile & Hl).
    eapply IH; [|done]. by eapply load_embeddings_file_same.
Qed.

Lemma load_embeddings_for_corpus_same files corpus corpus' out :
  load_embeddings_for_corpus files corpus = Some (corpus', out) →
  Forall2 same_but_embedding corpus corpus'.
Proof.
  unfold load_embeddings_for_corpus. intros Hl.
  apply bind_Some in Hl as (st & Hfiles & [= <- <-]).
  by apply (load_embeddings_files_same corpus) in Hfiles.
Qed.

Lemma texts_same corpus corpus' :
  Forall2 same_but_embedding corpus corpus' → texts corpus' = texts corpus.
Proof.
  unfold texts. induction 1 as [|d d' l l' (Ht & _) _ IH]; [done|].
  cbn. by rewrite Ht, IH.
Qed.
End EmbeddingPass.

Section Alignment.
Context `{Numeric, BM25Lib, Paths}.

(** X25. The pass on well-formed files. When every [.json] and every
    [.emb] file of the list that parses holds an array of records, and
    a file of the list has an [.emb] file with another number of
    records than its [.json] file: the pass on the loaded corpus does not
    raise; it prints exactly one mismatch warning for that file; the
    first [min(text_count, emb_count)] chunks of the file are attached
    to the records at their own positions; the remaining chunks of the
    file are left as they were; and every chunk of every later file is
    attached to the record at its own position in that file's [.emb]
    file. *)
Theorem embedding_mismatch_alignment before f after :
  Forall well_formed (before ++ f :: after) →
  is_Some (emb_content f) → text_count f ≠ length (emb_records f) →
  let files := before ++ f :: after in
  let offset := length (before ≫= docs_of_file) in
  ∃ corpus' count,
    load_embeddings_for_corpus files (files ≫= docs_of_file)
    = Some (corpus',
            (before ≫= mismatch_warnings) ++ [MismatchWarning (file_path f)]
            ++ (after ≫= mismatch_warnings) ++ [LoadedEmbeddings count])
    ∧ (∀ i d, docs_of_file f !! i = Some d →
         i < text_count f `min` length (emb_records f) →
         ∃ r, emb_records f !! i = Some r
              ∧ corpus' !! (offset + i) = Some (attach d (Some r)))
    ∧ (∀ i d, docs_of_file f !! i = Some d →
         text_count f `min` length (emb_records f) ≤ i →
         corpus' !! (offset + i) = Some d)
    ∧ (∀ after1 g after2 i d, after = after1 ++ g :: after2 →
         docs_of_file g !! i = Some d →
         corpus' !! (length ((before ++ f :: after1) ≫= docs_of_file) + i)
         = Some (attach d (emb_records g !! i))).
Proof.
  intros Hwf [emb Hemb] Hne files offset.
  pose proof (load_embeddings_for_corpus_spec files Hwf) as Hload.
  exists (files ≫= expected_docs), (attached_total files).
  assert (∀ l g r i d, files = l ++ g :: r → docs_of_file g !! i = Some d →
            (files ≫= expected_docs) !! (length (l ≫= docs_of_file) + i)
            = Some (attach d (emb_records g !! i))) as Hpos.
  { intros l g r i d -> Hd. rewrite <- length_bind_expected.
    rewrite lookup_bind_unit.
    - unfold expected_docs. by rewrite lookup_attach_all, Hd.
    - rewrite length_expected_docs, <- length_docs_of_file.
      by eapply lookup_lt_Some. }
  split; [|split; [|split]].
  - rewrite Hload. f_equal. f_equal. unfold files.
    rewrite bind_app, bind_cons, <- !app_assoc. f_equal. f_equal.
    unfold mismatch_warnings at 1. rewrite Hemb.
    by rewrite bool_decide_eq_true_2.
  - intros i d Hd Hi.
    destruct (lookup_lt_is_Some_2 (emb_records f) i) as [r Hr]; [lia|].
    exists r. split; [done|]. rewrite <- Hr. by apply (Hpos before f after).
  - intros i d Hd Hi. unfold offset.
    rewrite (Hpos before f after i d) by done.
    apply lookup_lt_Some in Hd. rewrite length_docs_of_file in Hd.
    by rewrite lookup_ge_None_2 by lia.
  - intros after1 g after2 i d -> Hd.
    apply (Hpos (before ++ f :: after1) g after2); [|done].
    unfold files. by rewrite <- app_assoc.
Qed.

Lemma text_attach d r : text (attach d r) = text d.
Proof. by destruct r as [[[e|]]|]. Qed.

Lemma texts_cons d l :
  texts (d :: l) = from_option (λ t, [t]) [] (text d) ++ texts l.
Proof. unfold texts. simpl. by destruct (text d). Qed.

Lemma texts_attach_all docs embs : texts (attach_all docs embs) = texts docs.
Proof.
  revert embs. induction docs as [|d docs IH]; intros [|r embs]; try done.
  cbn [attach_all]. by rewrite !texts_cons, text_attach, IH.
Qed.

Lemma texts_app l1 l2 : texts (l1 ++ l2) = texts l1 ++ texts l2.
Proof. apply omap_app. Qed.

Lemma texts_expected files :
  texts (files ≫= expected_docs) = texts (files ≫= docs_of_file).
Proof.
  induction files as [|f files IH]; [done|].
  rewrite !bind_cons, !texts_app, IH. unfold expected_docs.
  by rewrite texts_attach_all.
Qed.

(** The index of a successful load is built from the texts of the
    corpus it leaves behind: the embedding pass changes no text. *)
Lemma loaded_model_texts folders_list ld model :
  load_corpus_and_initialize_bm25 folders_list = Some ld →
  loaded_model ld = Some model →
  model = tokenize <$> texts (loaded_corpus ld).
Proof.
  unfold load_corpus_and_initialize_bm25.
  repeat case_bool_decide; try (intros [= <-]; done).
  destruct (index _); [|done]. intros Hl.
  apply bind_Some in Hl as ([corpus' out] & Hpass & [= <-]).
  intros [= <-]. cbn [loaded_corpus].
  by rewrite (texts_same _ _ (load_embeddings_for_corpus_same _ _ _ _ Hpass)).
Qed.

(** A load of well-formed files that finds a text and whose index
    call returns builds the index and runs the embedding pass on
    everything the listed files hold; it prints the warnings of that
    pass. *)
Lemma load_initialized folders_list :
  let files := all_json_files folders_list in
  Forall well_formed files →
  texts (files ≫= docs_of_file) ≠ [] →
  index (tokenize <$> texts (files ≫= docs_of_file)) = true →
  load_corpus_and_initialize_bm25 folders_list
  = Some (Loaded (files ≫= expected_docs)
            (Some (tokenize <$> texts (files ≫= docs_of_file)))
            (folder_errors folders_list ++ file_errors files)
            BM25Initialized
            ((files ≫= mismatch_warnings)
             ++ [LoadedEmbeddings (attached_total files)])).
Proof.
  intros files Hwf Htexts Hindex. unfold load_corpus_and_initialize_bm25.
  fold files.
  assert (files ≫= docs_of_file ≠ []) as Hdocs by (by intros Hnil; rewrite Hnil in Htexts).
  assert (files ≠ []) as Hfiles by (by intros Hnil; rewrite Hnil in Hdocs).
  rewrite !bool_decide_eq_false_2 by done.
  by rewrite Hindex, (load_embeddings_for_corpus_spec files Hwf).
Qed.

Lemma texts_all_text corpus :
  (∀ d, d ∈ corpus → is_Some (text d)) →
  Forall2 (λ d t, text d = Some t) corpus (texts corpus).
Proof.
  unfold texts. induction corpus as [|d corpus IH]; intros Hall; simpl.
  - constructor.
  - destruct (Hall d) as [t Ht]; [left|]. rewrite Ht.
    constructor; [done|]. apply IH. intros d' Hd'. apply Hall. by right.
Qed.

(** C10. The BM25 index of a load is built from the texts of the
    records that have a [text] field, in corpus order. When every
    record of the loaded corpus has a [text] field, the index has one
    document per chunk and document [i] is the tokenized text of the
    chunk with id [i]. The alignment needs that: at the first record
    without [text], the index document of that number is the text of
    the next later record that has one. *)
Theorem bm25_index_alignment folders_list ld model :
  load_corpus_and_initialize_bm25 folders_list = Some ld →
  loaded_model ld = Some model →
  model = tokenize <$> texts (loaded_corpus ld)
  ∧ ((∀ d, d ∈ loaded_corpus ld → is_Some (text d)) →
     length model = length (loaded_corpus ld)
     ∧ ∀ i d, loaded_corpus ld !! i = Some d →
              ∃ t, text d = Some t ∧ model !! i = Some (tokenize t))
  ∧ (∀ pre d post, loaded_corpus ld = pre ++ d :: post →
       (∀ d', d' ∈ pre → is_Some (text d')) → text d = None →
       model !! length pre = tokenize <$> texts post !! 0).
Proof.
  intros Hload Hmodel.
  pose proof (loaded_model_texts _ _ _ Hload Hmodel) as ->.
  split; [done|]. split.
  - intros Hall. apply texts_all_text in Hall.
    split; [rewrite length_fmap; symmetry; by eapply Forall2_length|].
    intros i d Hd.
    destruct (Forall2_lookup_l _ _ _ _ _ Hall Hd) as (t & Ht & Hdt).
    exists t. split; [done|]. by rewrite list_lookup_fmap, Ht.
  - intros pre d post -> Hpre Hd.
    rewrite !list_lookup_fmap. f_equal.
    rewrite texts_app. apply texts_all_text, Forall2_length in Hpre.
    rewrite Hpre, lookup_app_r, Nat.sub_diag by lia.
    unfold texts at 1. simpl. by rewrite Hd.
Qed.
End Alignment.

(** ** Minimal span scoring *)

(** *** The largest and the smallest value of a dict *)
Section Values.
Implicit Types (d : gmap str nat) (l : list (str * nat)).

Lemma foldr_max_ub l kv :
  kv ∈ l → kv.2 ≤ foldr (λ kv acc, kv.2 `max` acc) 0 l.
Proof.
  induction l as [|kv' l IH]; [by intros ?%elem_of_nil|].
  intros [->|Hin]%elem_of_cons; simpl; [lia|]. specialize (IH Hin). lia.
Qed.

Lemma foldr_max_attained l :
  l ≠ [] → ∃ kv, kv ∈ l ∧ kv.2 = foldr (λ kv acc, kv.2 `max` acc) 0 l.
Proof.
  induction l as [|kv l IH]; [done|]. intros _. simpl.
  destruct l as [|kv' l].
  - exists kv. split; [left|]. simpl. lia.
  - destruct IH as (kv1 & Hin & Heq); [done|].
    destruct (decide (kv.2 ≤ foldr (λ kv acc, kv.2 `max` acc) 0 (kv' :: l))).
    + exists kv1. split; [by right|]. lia.
    + exists kv. split; [left|]. lia.
Qed.

Lemma foldr_min_lb v l kv :
  kv ∈ l → foldr (λ kv acc, kv.2 `min` acc) v l ≤ kv.2.
Proof.
  induction l as [|kv' l IH]; [by intros ?%elem_of_nil|].
  intros [->|Hin]%elem_of_cons; simpl; [lia|]. specialize (IH Hin). lia.
Qed.

Lemma foldr_min_le v l : foldr (λ kv acc, kv.2 `min` acc) v l ≤ v.
Proof. induction l; simpl; lia. Qed.

Lemma foldr_min_attained v l :
  foldr (λ kv acc, kv.2 `min` acc) v l = v
  ∨ ∃ kv, kv ∈ l ∧ kv.2 = foldr (λ kv acc, kv.2 `min` acc) v l.
Proof.
  induction l as [|kv l IH]; [by left|]. simpl.
  destruct (decide (kv.2 ≤ foldr (λ kv acc, kv.2 `min` acc) v l)).
  - right. exists kv. split; [left|]. lia.
  - destruct IH as [IH|(kv1 & Hin & Heq)].
    + left. lia.
    + right. exists kv1. split; [by right|]. lia.
Qed.

Lemma max_values_ub d t p : d !! t = Some p → p ≤ max_values d.
Proof.
  intros Ht%elem_of_map_to_list. by apply (foldr_max_ub _ (t, p)).
Qed.

Lemma max_values_attained d : d ≠ ∅ → ∃ t, d !! t = Some (max_values d).
Proof.
  intros Hd. destruct (foldr_max_attained (map_to_list d)) as ([t p] & Hin & Heq).
  { by rewrite map_to_list_empty_iff. }
  exists t. apply elem_of_map_to_list in Hin. unfold max_values.
  by rewrite <- Heq.
Qed.

Lemma min_values_lb d t p : d !! t = Some p → min_values d ≤ p.
Proof.
  intros Ht%elem_of_map_to_list. unfold min_values.
  destruct (map_to_list d) as [|[t0 v] kvs]; [by apply elem_of_nil in Ht|].
  apply elem_of_cons in Ht as [[= <- <-]|Hin].
  - apply foldr_min_le.
  - by apply (foldr_min_lb _ _ (t, p)).
Qed.

Lemma min_values_attained d : d ≠ ∅ → ∃ t, d !! t = Some (min_values d).
Proof.
  intros Hd. unfold min_values.
  destruct (map_to_list d) as [|[t0 v] kvs] eqn:Hl.
  { by apply map_to_list_empty_iff in Hl. }
  destruct (foldr_min_attained v kvs) as [->|([t p] & Hin & <-)].
  - exists t0. apply elem_of_map_to_list. rewrite Hl. left.
  - exists t. apply elem_of_map_to_list. rewrite Hl. by right.
Qed.
End Values.

(** *** The dict of a window of occurrences *)
Section Latest.
Implicit Types (w : list (nat * str)) (m : gmap str nat).

Lemma elem_of_terms w t : t ∈ w.*2 ↔ ∃ q, (q, t) ∈ w.
Proof.
  rewrite list_elem_of_fmap. split.
  - intros ([q u] & -> & Hin). by exists q.
  - intros (q & Hin). by exists (q, t).
Qed.

Lemma latest_snoc w e : latest (w ++ [e]) = <[e.2 := e.1]> (latest w).
Proof. unfold latest. by rewrite foldl_snoc. Qed.

Lemma foldl_insert_later m w t p :
  (∃ q, (q, t) ∈ w) →
  foldl (λ m e, <[e.2 := e.1]> m) (<[t := p]> m) w
  = foldl (λ m e, <[e.2 := e.1]> m) m w.
Proof.
  revert m. induction w as [|[q u] w IH]; intros m [q' Hin].
  - by apply elem_of_nil in Hin.
  - simpl. destruct (decide (u = t)) as [->|Hne].
    + by rewrite insert_insert_eq.
    + rewrite insert_insert_ne by done. apply IH.
      apply elem_of_cons in Hin as [[= _ ?]|Hin]; [done|]. by exists q'.
Qed.

Lemma foldl_insert_absent m w t p :
  (∀ q, (q, t) ∉ w) →
  foldl (λ m e, <[e.2 := e.1]> m) (<[t := p]> m) w
  = <[t := p]> (foldl (λ m e, <[e.2 := e.1]> m) m w).
Proof.
  revert m. induction w as [|[q u] w IH]; intros m Hout; [done|].
  simpl. assert (u ≠ t) as Hne by (intros ->; apply (Hout q); left).
  rewrite insert_insert_ne by done. apply IH.
  intros q' Hin. apply (Hout q'). by right.
Qed.

Lemma foldl_insert_lookup m w t p :
  foldl (λ m e, <[e.2 := e.1]> m) m w !! t = Some p →
  (p, t) ∈ w ∨ m !! t = Some p.
Proof.
  revert m. induction w as [|[q u] w IH]; intros m; simpl; [by right|].
  intros [Hin|Hm]%IH; [left; by right|].
  apply lookup_insert_Some in Hm as [[<- <-]|[_ Hm]]; [left; left|by right].
Qed.

Lemma latest_lookup_Some w t p : latest w !! t = Some p → (p, t) ∈ w.
Proof. by intros [?|?]%foldl_insert_lookup. Qed.

Lemma foldl_insert_is_Some m w t q :
  (q, t) ∈ w → is_Some (foldl (λ m e, <[e.2 := e.1]> m) m w !! t).
Proof.
  revert m q. induction w as [|[q' u] w IH]; intros m q Hin.
  - by apply elem_of_nil in Hin.
  - simpl. destruct (decide (t ∈ w.*2)) as [[q1 Hq1]%elem_of_terms|Hno].
    + by eapply IH.
    + rewrite elem_of_terms in Hno.
      apply elem_of_cons in Hin as [[= <- <-]|Hin]; [|destruct Hno; by exists q].
      rewrite foldl_insert_absent by (intros q1 ?; apply Hno; by exists q1).
      rewrite lookup_insert_eq. by eexists.
Qed.

Lemma latest_is_Some w t q : (q, t) ∈ w → is_Some (latest w !! t).
Proof. apply foldl_insert_is_Some. Qed.

(** Taking the first occurrence out of the window, as the scan does. *)
Lemma latest_pop pl tl w :
  (∀ q, (q, tl) ∈ w → q ≠ pl) →
  (if bool_decide (latest ((pl, tl) :: w) !! tl = Some pl)
   then delete tl (latest ((pl, tl) :: w)) else latest ((pl, tl) :: w))
  = latest w.
Proof.
  intros Hdistinct.
  destruct (decide (tl ∈ w.*2)) as [[q Hq]%elem_of_terms|Hno].
  - assert (latest ((pl, tl) :: w) = latest w) as ->.
    { unfold latest. simpl. apply foldl_insert_later. by exists q. }
    rewrite bool_decide_eq_false_2; [done|].
    intros Hl%latest_lookup_Some. by apply (Hdistinct pl).
  - rewrite elem_of_terms in Hno.
    assert (∀ q, (q, tl) ∉ w) as Hout by (intros q ?; apply Hno; by exists q).
    assert (latest ((pl, tl) :: w) = <[tl := pl]> (latest w)) as ->.
    { unfold latest. simpl. by apply foldl_insert_absent. }
    rewrite lookup_insert_eq, bool_decide_eq_true_2 by done.
    apply delete_insert_id.
    destruct (latest w !! tl) as [q|] eqn:Hl; [|done].
    apply latest_lookup_Some in Hl. by destruct (Hout q).
Qed.
End Latest.

(** *** The two-pointer scan *)

Lemma StronglySorted_lookup {A} (R : A → A → Prop) l i j x y :
  StronglySorted R l → i < j → l !! i = Some x → l !! j = Some y → R x y.
Proof.
  intros Hl. revert i j. induction Hl as [|z l Hl IH Hz]; intros i j Hij Hi Hj.
  - by rewrite lookup_nil in Hi.
  - destruct j as [|j]; [lia|]. simpl in Hj. destruct i as [|i].
    + simpl in Hi. simplify_eq. rewrite Forall_forall in Hz.
      apply Hz. by eapply list_elem_of_lookup_2.
    + simpl in Hi. eapply (IH i j); [lia|done|done].
Qed.

Section Scan.
Context (words terms : list str) (occs : list (nat * str)).
Context (terms_NoDup : NoDup terms) (terms_nonempty : terms ≠ []).
Context (occs_sorted : StronglySorted (λ x y, x.1 < y.1) occs).
Context (occs_sound : ∀ p t, (p, t) ∈ occs → t ∈ terms ∧ words !! p = Some t).
Context (occs_complete : ∀ p t, t ∈ terms → words !! p = Some t → (p, t) ∈ occs).

Lemma lookup_window l r i :
  drop l (take r occs) !! i = if decide (l + i < r) then occs !! (l + i) else None.
Proof.
  rewrite lookup_drop. case_decide.
  - by rewrite lookup_take_lt.
  - apply lookup_take_ge. lia.
Qed.

Lemma elem_of_window l r e :
  e ∈ drop l (take r occs) ↔ ∃ k, l ≤ k < r ∧ occs !! k = Some e.
Proof.
  rewrite list_elem_of_lookup. split.
  - intros [i Hi]. rewrite lookup_window in Hi. case_decide; [|done].
    exists (l + i). split; [lia|done].
  - intros (k & Hk & He). exists (k - l). rewrite lookup_window.
    rewrite decide_True by lia. by replace (l + (k - l)) with k by lia.
Qed.

Lemma covers_covers_upto a b :
  covers words terms a b → covers_upto terms occs (length occs) a b.
Proof.
  intros Hc t Ht. destruct (Hc t Ht) as (p & Hp & Hw).
  apply (occs_complete p t Ht), list_elem_of_lookup in Hw as [k Hk].
  exists k, p. split; [by eapply lookup_lt_Some|done].
Qed.

Lemma covers_upto_covers r a b :
  covers_upto terms occs r a b → covers words terms a b.
Proof.
  intros Hc t Ht. destruct (Hc t Ht) as (k & p & _ & Hk & Hp).
  exists p. split; [done|].
  by apply list_elem_of_lookup_2, occs_sound in Hk as [_ ?].
Qed.

(** The dict of a window holds terms of the query only, so it is
    full exactly when it holds them all. *)
Lemma window_dom l r : dom (latest (drop l (take r occs))) ⊆ list_to_set terms.
Proof.
  intros t [p Hp%latest_lookup_Some]%elem_of_dom.
  apply elem_of_list_to_set.
  apply elem_of_window in Hp as (k & _ & Hk).
  by apply list_elem_of_lookup_2, occs_sound in Hk as [? _].
Qed.

Lemma window_full l r t :
  size (latest (drop l (take r occs))) = length terms → t ∈ terms →
  is_Some (latest (drop l (take r occs)) !! t).
Proof.
  intros Hsize Ht. apply elem_of_dom.
  rewrite (set_subseteq_size_eq _ _ (window_dom l r)).
  - by apply elem_of_list_to_set.
  - rewrite size_list_to_set, size_dom by done. lia.
Qed.

Lemma window_not_full l r :
  size (latest (drop l (take r occs))) ≠ length terms →
  ∃ t, t ∈ terms ∧ latest (drop l (take r occs)) !! t = None.
Proof.
  intros Hsize.
  destruct (decide (Forall (λ t, is_Some (latest (drop l (take r occs)) !! t)) terms))
    as [Hall|Hex].
  - destruct Hsize. rewrite <- size_dom, <- (size_list_to_set (C:=gset str) terms) by done.
    f_equal. apply set_eq. intros t. split; [apply window_dom|].
    rewrite elem_of_list_to_set, elem_of_dom. rewrite Forall_forall in Hall. apply Hall.
  - apply not_Forall_Exists in Hex; [|apply _].
    apply Exists_exists in Hex as (t & Ht & Hnone). exists t. split; [done|].
    by apply eq_None_not_Some.
Qed.

(** Entering an occurrence on the right. *)
Lemma scan_inv_insert r st pr tr :
  occs !! r = Some (pr, tr) →
  scan_inv words terms occs r r st →
  scan_inv words terms occs r (S r)
    (SpanState (best_span st) (<[tr := pr]> (found_terms st)) (left st)).
Proof.
  intros Hr [Hleft Hrw Hfound Hbound Hsound Hdone Hldone].
  split; simpl; try done.
  - lia.
  - by apply lookup_lt_Some in Hr.
  - rewrite (take_S_r _ _ _ Hr), drop_app_le by (rewrite length_take; lia).
    by rewrite latest_snoc, Hfound.
Qed.

(** Leaving the inner loop: the window lacks a term, so every covering
    window witnessed so far holds an occurrence before [left]. *)
Lemma scan_inv_exit r st :
  scan_inv words terms occs r (S r) st →
  size (found_terms st) ≠ length terms →
  scan_inv words terms occs (S r) (S r) st.
Proof.
  intros [Hleft Hrw Hfound Hbound Hsound Hdone Hldone] Hsize.
  split; try done.
  intros a b Hc. rewrite Hfound in Hsize.
  destruct (window_not_full _ _ Hsize) as (t & Ht & Hnone).
  destruct (Hc t Ht) as (k & p & Hk & Hkp & Hp).
  apply (Hldone a b k p t); [by eapply covers_upto_covers| |done|done].
  destruct (decide (k < left st)) as [|Hge]; [done|].
  destruct (latest_is_Some (drop (left st) (take (S r) occs)) t p) as [q Hq].
  { apply elem_of_window. exists k. split; [lia|done]. }
  congruence.
Qed.

(** The inner loop. *)
Lemma shrink_inv r fuel st pr tr :
  occs !! r = Some (pr, tr) →
  scan_inv words terms occs r (S r) st →
  r + 2 - left st ≤ fuel →
  ∃ st', shrink fuel (length terms) occs st = Some st'
         ∧ scan_inv words terms occs r (S r) st'
         ∧ size (found_terms st') ≠ length terms.
Proof.
  intros Hr. revert st. induction fuel as [|fuel IH]; intros st Hinv Hfuel.
  { destruct Hinv as [Hleft _ _ _ _ _ _]. lia. }
  cbn [shrink]. case_bool_decide as Hfull; [|by exists st].
  destruct Hinv as [Hleft Hrw Hfound Hbound Hsound Hdone Hldone].
  set (w := drop (left st) (take (S r) occs)) in *.
  assert (∀ t, t ∈ terms → ∃ p, found_terms st !! t = Some p ∧ (p, t) ∈ w) as Hall.
  { intros t Ht. rewrite Hfound in Hfull.
    destruct (window_full _ _ t Hfull Ht) as [p Hp].
    exists p. rewrite Hfound. split; [done|by apply latest_lookup_Some]. }
  assert (left st ≤ r) as Hlr.
  { destruct terms as [|t0 ?]; [done|].
    destruct (Hall t0) as (p & _ & Hin); [left|].
    apply elem_of_window in Hin as (k & Hk & _). lia. }
  destruct (lookup_lt_is_Some_2 occs (left st)) as [[pl tl] Hl]; [lia|].
  rewrite Hl. cbn -[Nat.ltb].
  assert (w = (pl, tl) :: drop (S (left st)) (take (S r) occs)) as Hw.
  { unfold w. apply drop_S. rewrite lookup_take_lt by lia. done. }
  assert (∀ t p, found_terms st !! t = Some p → pl ≤ p ≤ pr ∧ words !! p = Some t)
    as Hrange.
  { intros t p Hp. rewrite Hfound in Hp. apply latest_lookup_Some in Hp.
    apply elem_of_window in Hp as (k & Hk & Hkp).
    split; [|by apply list_elem_of_lookup_2, occs_sound in Hkp as [_ ?]].
    split.
    - destruct (decide (k = left st)) as [->|]; [by simplify_eq|].
      enough (pl < p) by lia.
      apply (StronglySorted_lookup _ _ (left st) k (pl, tl) (p, t) occs_sorted);
        [lia|done|done].
    - destruct (decide (k = r)) as [->|]; [by simplify_eq|].
      enough (p < pr) by lia.
      apply (StronglySorted_lookup _ _ k r (p, t) (pr, tr) occs_sorted);
        [lia|done|done]. }
  assert (found_terms st ≠ ∅) as Hne.
  { destruct terms as [|t0 ?]; [done|].
    destruct (Hall t0) as (p & Hp & _); [left|]. intros Hempty.
    by rewrite Hempty, lookup_empty in Hp. }
  destruct (max_values_attained _ Hne) as [tmax Hmax].
  destruct (min_values_attained _ Hne) as [tmin Hmin].
  set (hi := max_values (found_terms st)) in *.
  set (lo := min_values (found_terms st)) in *.
  assert (lo ≤ hi) as Hlohi by by eapply max_values_ub.
  destruct (Hrange _ _ Hmax) as [Hhi Hhiw%lookup_lt_Some].
  destruct (Hrange _ _ Hmin) as [Hlo _].
  assert (covers words terms lo hi) as Hcov.
  { intros t Ht. destruct (Hall t Ht) as (p & Hp & _). exists p.
    split; [|by apply (Hrange t p)]. split.
    - by eapply min_values_lb.
    - by eapply max_values_ub. }
  set (best := if hi - lo + 1 <? best_span st then hi - lo + 1 else best_span st).
  assert (best ≤ best_span st ∧ best ≤ hi - lo + 1) as [Hbest1 Hbest2].
  { unfold best. destruct (Nat.ltb_spec (hi - lo + 1) (best_span st)); lia. }
  assert (best = length words + 1
          ∨ ∃ a b, a ≤ b < length words ∧ covers words terms a b
                   ∧ best = b - a + 1) as Hsound'.
  { unfold best. destruct (Nat.ltb_spec (hi - lo + 1) (best_span st)); [|done].
    right. by exists lo, hi. }
  clearbody best.
  apply IH; [|simpl; lia].
  split; simpl.
  - lia.
  - done.
  - replace (left st + 1) with (S (left st)) by lia.
    rewrite <- (latest_pop pl tl).
    + by rewrite <- Hw, <- Hfound.
    + intros q Hq ->. apply elem_of_window in Hq as (k & Hk & Hkq).
      pose proof (StronglySorted_lookup _ _ (left st) k (pl, tl) (pl, tl)
                    occs_sorted ltac:(lia) Hl Hkq) as Hlt.
      simpl in Hlt. lia.
  - lia.
  - done.
  - intros a b Hc. specialize (Hdone a b Hc). lia.
  - intros a b k p t Hc Hk Hkp Hp.
    destruct (decide (k < left st)) as [Hlt|Hge].
    { specialize (Hldone a b k p t Hc Hlt Hkp Hp). lia. }
    assert (k = left st) as -> by lia. simplify_eq.
    destruct (decide (b < pr)) as [Hb|Hb]; [|lia].
    enough (best_span st ≤ b - a + 1) by lia.
    apply Hdone. intros t Ht. destruct (Hc t Ht) as (q & Hq & Hwq).
    apply (occs_complete q t Ht), list_elem_of_lookup in Hwq as [k Hk'].
    exists k, q. split; [|done].
    destruct (decide (k < r)) as [|Hkr]; [done|].
    destruct (decide (k = r)) as [->|]; [simplify_eq; lia|].
    pose proof (StronglySorted_lookup _ _ r k (pr, tr) (q, t)
                  occs_sorted ltac:(lia) Hr Hk') as Hlt.
    simpl in Hlt. lia.
Qed.

Lemma scan_step_inv r st e :
  occs !! r = Some e →
  scan_inv words terms occs r r st →
  ∃ st', scan_step (length terms) occs e st = Some st'
         ∧ scan_inv words terms occs (S r) (S r) st'
         ∧ size (found_terms st') ≠ length terms.
Proof.
  destruct e as [pr tr]. intros Hr Hinv. unfold scan_step.
  destruct (shrink_inv r (S (length occs))
              (SpanState (best_span st) (<[tr := pr]> (found_terms st)) (left st))
              pr tr Hr) as (st' & Hshrink & Hinv' & Hsize).
  - by apply scan_inv_insert.
  - simpl. apply lookup_lt_Some in Hr. lia.
  - exists st'. split; [done|]. split; [|done]. by apply scan_inv_exit.
Qed.

(** The outer loop, from any point of the list on. *)
Lemma scan_inv_todo done todo st :
  occs = done ++ todo →
  scan_inv words terms occs (length done) (length done) st →
  ∃ st', scan (length terms) occs todo st = Some st'
         ∧ scan_inv words terms occs (length occs) (length occs) st'.
Proof.
  revert done st. induction todo as [|e todo IH]; intros done st Hoccs Hinv.
  - exists st. split; [done|]. rewrite app_nil_r in Hoccs. by subst done.
  - cbn [scan].
    destruct (scan_step_inv (length done) st e) as (st1 & -> & Hinv1 & _);
      [by rewrite Hoccs, list_lookup_middle|done|].
    cbn. apply (IH (done ++ [e])).
    + by rewrite <- app_assoc.
    + by rewrite length_app, Nat.add_1_r.
Qed.

Lemma scan_inv_init :
  scan_inv words terms occs 0 0 (SpanState (length words + 1) ∅ 0).
Proof.
  split; simpl.
  - done.
  - lia.
  - done.
  - done.
  - by left.
  - intros a b Hc. destruct terms as [|t0 ?]; [done|].
    destruct (Hc t0) as (k & _ & Hk & _); [left|lia].
  - intros a b k p t _ Hk. lia.
Qed.

(** When every term occurs among the words, the scan ends with the
    width of the narrowest window of words that holds every term. *)
Lemma scan_minimal_window :
  (∀ t, t ∈ terms → t ∈ words) →
  ∃ st a b,
    scan (length terms) occs occs (SpanState (length words + 1) ∅ 0) = Some st
    ∧ a ≤ b < length words
    ∧ covers words terms a b
    ∧ best_span st = b - a + 1
    ∧ ∀ a' b', covers words terms a' b' → b - a ≤ b' - a'.
Proof.
  intros Hpresent.
  destruct (scan_inv_todo [] occs (SpanState (length words + 1) ∅ 0))
    as (st & Hscan & [_ _ _ Hbound Hsound Hdone _]); [done|apply scan_inv_init|].
  assert (∀ a b, covers words terms a b → a ≤ b ∧ best_span st ≤ b - a + 1) as Hmin.
  { intros a b Hc. split; [|by apply Hdone, covers_covers_upto].
    destruct terms as [|t0 ?]; [done|]. destruct (Hc t0) as (p & Hp & _); [left|lia]. }
  assert (covers words terms 0 (length words - 1)) as Hwhole.
  { intros t Ht. apply Hpresent, list_elem_of_lookup in Ht as [p Hp].
    exists p. split; [|done]. apply lookup_lt_Some in Hp. lia. }
  assert (0 < length words) as Hwords.
  { destruct terms as [|t0 ?]; [done|].
    destruct (Hwhole t0) as (p & _ & Hp%lookup_lt_Some); [left|lia]. }
  destruct Hsound as [Hinit|(a & b & Hab & Hc & Hbest)].
  { destruct (Hmin _ _ Hwhole) as [_ Hle]. lia. }
  exists st, a, b. do 4 (split; [done|]).
  intros a' b' Hc'. destruct (Hmin _ _ Hc') as [Hab' Hle]. lia.
Qed.
End Scan.

(** *** The positions of the query terms *)
Section Positions.
Context `{Unicode}.

Lemma elem_of_occurrences words t p :
  p ∈ occurrences words t ↔ words !! p = Some t.
Proof.
  unfold occurrences. rewrite list_elem_of_fmap. split.
  - intros ([i w] & -> & [Hw Hi%elem_of_enumerate]%list_elem_of_filter).
    simpl in *. by subst.
  - intros Hp. exists (p, t). split; [done|].
    apply list_elem_of_filter. split; [done|by apply elem_of_enumerate].
Qed.

Lemma NoDup_occurrences words t : NoDup (occurrences words t).
Proof.
  apply (sublist_NoDup _ (seq 0 (length words))); [apply NoDup_seq|].
  rewrite <- enumerate_seq. apply fmap_sublist, sublist_filter.
Qed.

Lemma positions_init_lookup norm_query_terms t :
  positions_init norm_query_terms !! t
  = if decide (t ∈ norm_query_terms) then Some [] else None.
Proof.
  unfold positions_init.
  induction norm_query_terms as [|u l IH] using rev_ind.
  - cbn [foldl]. rewrite lookup_empty.
    by destruct (decide (t ∈ [])) as [?%elem_of_nil|].
  - rewrite foldl_snoc. destruct (decide (u = t)) as [->|Hne].
    + rewrite lookup_insert_eq. rewrite decide_True; [done|].
      apply elem_of_app. right. left.
    + rewrite lookup_insert_ne, IH by done.
      destruct (decide (t ∈ l)) as [Hin|Hout].
      * rewrite decide_True; [done|]. apply elem_of_app. by left.
      * rewrite decide_False; [done|].
        intros [?|?%list_elem_of_singleton]%elem_of_app; done.
Qed.

Lemma positions_fill_loop (l : list (nat * str)) (positions : gmap str (list nat)) t :
  foldl (λ positions iw,
           match positions !! iw.2 with
           | Some ps => <[iw.2 := ps ++ [iw.1]]> positions
           | None => positions
           end) positions l !! t
  = (λ ps, ps ++ (filter (λ iw : nat * str, iw.2 = t) l).*1) <$> positions !! t.
Proof.
  revert positions. induction l as [|[i w] l IH]; intros positions.
  - simpl. destruct (positions !! t); simpl; [by rewrite app_nil_r|done].
  - cbn [foldl]. rewrite IH, filter_cons. cbn [fst snd].
    destruct (decide (w = t)) as [->|Hne].
    + destruct (positions !! t) as [ps|] eqn:Hps.
      * rewrite lookup_insert_eq. cbn. by rewrite <- app_assoc.
      * by rewrite Hps.
    + destruct (positions !! w) as [ps|]; [|done].
      by rewrite lookup_insert_ne.
Qed.

Lemma positions_of_fill words norm_query_terms t :
  positions_of (positions_fill words (positions_init norm_query_terms)) t
  = if decide (t ∈ norm_query_terms) then occurrences words t else [].
Proof.
  unfold positions_of, positions_fill.
  rewrite positions_fill_loop, positions_init_lookup.
  by destruct (decide (t ∈ norm_query_terms)).
Qed.

(** The test that returns [0.0]: some term is not among the words. *)
Lemma absent_test words norm_query_terms :
  existsb (λ term,
             bool_decide (positions_of
                            (positions_fill words (positions_init norm_query_terms))
                            term = []))
          norm_query_terms = true
  ↔ ∃ t, t ∈ norm_query_terms ∧ t ∉ words.
Proof.
  rewrite existsb_exists. setoid_rewrite <- list_elem_of_In.
  setoid_rewrite bool_decide_eq_true. split.
  - intros (t & Ht & Hnil). exists t. split; [done|].
    rewrite positions_of_fill, decide_True in Hnil by done.
    intros [p Hp]%list_elem_of_lookup. apply elem_of_occurrences in Hp.
    rewrite Hnil in Hp. by apply elem_of_nil in Hp.
  - intros (t & Ht & Hout). exists t. split; [done|].
    rewrite positions_of_fill, decide_True by done.
    destruct (occurrences words t) as [|p ?] eqn:Hocc; [done|].
    destruct Hout. apply list_elem_of_lookup. exists p.
    apply elem_of_occurrences. rewrite Hocc. left.
Qed.

Lemma elem_of_all_positions words norm_query_terms p t :
  (p, t) ∈ all_positions_of norm_query_terms
             (positions_fill words (positions_init norm_query_terms))
  ↔ t ∈ norm_query_terms ∧ words !! p = Some t.
Proof.
  unfold all_positions_of, sort_asc. rewrite elem_of_stable_sort.
  rewrite list_elem_of_bind. split.
  - intros (u & Hpu & Hu). rewrite positions_of_fill, decide_True in Hpu by done.
    apply list_elem_of_fmap in Hpu as (q & [= -> ->] & Hq).
    by apply elem_of_occurrences in Hq.
  - intros [Ht Hp]. exists t. split; [|done].
    rewrite positions_of_fill, decide_True by done.
    apply list_elem_of_fmap. exists p. by rewrite elem_of_occurrences.
Qed.

Lemma NoDup_all_positions words norm_query_terms :
  NoDup norm_query_terms →
  NoDup (all_positions_of norm_query_terms
           (positions_fill words (positions_init norm_query_terms))).
Proof.
  intros Hnd. unfold all_positions_of, sort_asc. rewrite stable_sort_perm.
  apply NoDup_bind; [| |done].
  - intros t1 t2 [p t] _ _ (? & [= _ ->] & _)%list_elem_of_fmap
      (? & [= _ ->] & _)%list_elem_of_fmap. done.
  - intros t Ht. rewrite positions_of_fill, decide_True by done.
    apply NoDup_fmap_2_strong; [|apply NoDup_occurrences].
    by intros ?? _ _ [= ->].
Qed.

Lemma StronglySorted_strict (l : list (nat * str)) :
  NoDup l → (∀ x y, x ∈ l → y ∈ l → x.1 = y.1 → x = y) →
  StronglySorted (λ x y, (x.1 <=? y.1) = true) l →
  StronglySorted (λ x y, x.1 < y.1) l.
Proof.
  intros Hl Hinj Hs. induction Hs as [|x l Hs IH Hx]; [constructor|].
  apply NoDup_cons in Hl as [Hxl Hl]. constructor.
  - apply IH; [done|]. intros y z Hy Hz. apply Hinj; by right.
  - rewrite Forall_forall in Hx. apply Forall_forall. intros y Hy.
    specialize (Hx y Hy). apply Nat.leb_le in Hx.
    destruct (decide (x.1 = y.1)) as [Heq|]; [|lia].
    apply Hinj in Heq; [by subst|left|by right].
Qed.

Lemma all_positions_sorted words norm_query_terms :
  NoDup norm_query_terms →
  StronglySorted (λ x y, x.1 < y.1)
    (all_positions_of norm_query_terms
       (positions_fill words (positions_init norm_query_terms))).
Proof.
  intros Hnd. apply StronglySorted_strict.
  - by apply NoDup_all_positions.
  - intros [p t] [q u] [_ Hp]%elem_of_all_positions [_ Hq]%elem_of_all_positions.
    simpl. intros ->. congruence.
  - apply stable_sort_sorted.
    + intros x y. rewrite !Nat.leb_le. lia.
    + intros x y z. rewrite !Nat.leb_le. lia.
Qed.

Lemma span_to_score_pos w : (0 < span_to_score w)%Q.
Proof. done. Qed.

(** For a non-empty list of query terms that are pairwise different
    once folded: the score is 0 when some folded term is not a word
    of the folded text; otherwise it is [1 / (width + 1)] for the
    width of the narrowest window of words that holds every term. *)
Theorem minimal_span_score_correct text query_terms :
  let words := split (fold_text text) in
  let terms := fold_text <$> query_terms in
  terms ≠ [] → NoDup terms →
  ((∃ t, t ∈ terms ∧ t ∉ words) →
     minimal_span_score text query_terms = Some 0%Q)
  ∧ ((∀ t, t ∈ terms → t ∈ words) →
     ∃ a b, a ≤ b < length words
            ∧ covers words terms a b
            ∧ (∀ a' b', covers words terms a' b' → b - a ≤ b' - a')
            ∧ minimal_span_score text query_terms
              = Some (span_to_score (b - a + 1))).
Proof.
  intros words terms Hne Hnd. unfold minimal_span_score.
  fold words. fold terms. split.
  - intros Habsent%absent_test. by rewrite Habsent.
  - intros Hpresent.
    destruct (existsb _ terms) eqn:Habsent.
    { apply absent_test in Habsent as (t & Ht & Hout). destruct Hout. auto. }
    destruct (scan_minimal_window words terms
                (all_positions_of terms (positions_fill words (positions_init terms))))
      as (st & a & b & -> & Hab & Hc & Hbest & Hmin); try done.
    + by apply all_positions_sorted.
    + intros p t. apply elem_of_all_positions.
    + intros p t Ht Hp. by apply elem_of_all_positions.
    + exists a, b. cbn. by rewrite Hbest.
Qed.

(** *** A query with a repeated term *)

Lemma size_list_to_set_repeated (l : list str) :
  ¬ NoDup l → size (list_to_set (C:=gset str) l) < length l.
Proof.
  assert (∀ l : list str, size (list_to_set (C:=gset str) l) ≤ length l) as Hle.
  { clear l. induction l as [|x l IH].
    { rewrite list_to_set_nil, size_empty. simpl. lia. }
    rewrite list_to_set_cons, size_union_alt, size_singleton. simpl.
    assert (list_to_set l ∖ {[x]} ⊆ list_to_set (C:=gset str) l) as Hsub
      by (intros y [Hy _]%elem_of_difference; exact Hy).
    apply subseteq_size in Hsub. lia. }
  induction l as [|x l IH]; intros Hnd; [destruct Hnd; constructor|].
  rewrite list_to_set_cons. cbn [length].
  destruct (decide (x ∈ l)) as [Hin|Hout].
  - replace ({[x]} ∪ list_to_set l) with (list_to_set (C:=gset str) l).
    + specialize (Hle l). lia.
    + apply set_eq. intros y. rewrite elem_of_union, elem_of_singleton.
      rewrite !elem_of_list_to_set. split; [by right|by intros [->|?]].
  - rewrite size_union.
    2:{ intros y ->%elem_of_singleton Hy%elem_of_list_to_set. done. }
    rewrite size_singleton.
    enough (size (list_to_set (C:=gset str) l) < length l) by lia.
    apply IH. intros Hl. apply Hnd. by constructor.
Qed.

(** With a repeated term the dict never has as many keys as the list
    has terms: the inner loop is never entered and [best_span] stays
    as it was. *)
Lemma scan_repeated terms occs todo st :
  ¬ NoDup terms →
  (∀ e, e ∈ todo → e.2 ∈ terms) →
  dom (found_terms st) ⊆ list_to_set terms →
  ∃ st', scan (length terms) occs todo st = Some st'
         ∧ best_span st' = best_span st.
Proof.
  intros Hnd. revert st. induction todo as [|[p t] todo IH]; intros st Htodo Hdom.
  - by exists st.
  - cbn [scan scan_step shrink].
    assert (dom (<[t := p]> (found_terms st)) ⊆ list_to_set terms) as Hdom'.
    { rewrite dom_insert. apply union_least; [|done].
      apply singleton_subseteq_l, elem_of_list_to_set, (Htodo (p, t)). left. }
    rewrite bool_decide_eq_false_2.
    + cbn.
      destruct (IH (SpanState (best_span st) (<[t := p]> (found_terms st)) (left st)))
        as (st' & Hscan & Hbest); [|done|by exists st'].
      intros e He. apply Htodo. by right.
    + cbn. rewrite <- size_dom.
      pose proof (subseteq_size _ _ Hdom') as Hsize.
      pose proof (size_list_to_set_repeated terms Hnd). lia.
Qed.

Theorem minimal_span_score_repeated text query_terms :
  let words := split (fold_text text) in
  let terms := fold_text <$> query_terms in
  ¬ NoDup terms → (∀ t, t ∈ terms → t ∈ words) →
  minimal_span_score text query_terms
  = Some (span_to_score (length words + 1)).
Proof.
  intros words terms Hnd Hpresent. unfold minimal_span_score.
  fold words. fold terms.
  destruct (existsb _ terms) eqn:Habsent.
  { apply absent_test in Habsent as (t & Ht & Hout). destruct Hout. auto. }
  destruct (scan_repeated terms
              (all_positions_of terms (positions_fill words (positions_init terms)))
              (all_positions_of terms (positions_fill words (positions_init terms)))
              (SpanState (length words + 1) ∅ 0) Hnd) as (st & -> & Hbest).
  - intros [p t] He. by apply elem_of_all_positions in He as [? _].
  - simpl. rewrite dom_empty. apply empty_subseteq.
  - cbn. by rewrite Hbest.
Qed.

(** The scoring function always returns. *)
Lemma minimal_span_score_total text query_terms :
  is_Some (minimal_span_score text query_terms).
Proof.
  set (words := split (fold_text text)).
  set (terms := fold_text <$> query_terms).
  destruct (decide (Exists (λ t, t ∉ words) terms)) as [Hex|Hall].
  - apply Exists_exists in Hex.
    destruct terms as [|t0 terms'] eqn:Hterms.
    { destruct Hex as (t & Ht & _). by apply elem_of_nil in Ht. }
    destruct (decide (NoDup (t0 :: terms'))) as [Hnd|Hnd].
    + destruct (minimal_span_score_correct text query_terms) as [Hzero _];
        fold terms; rewrite ?Hterms; try done.
      fold words in Hzero. fold terms in Hzero. rewrite Hterms in Hzero.
      rewrite Hzero; done.
    + unfold minimal_span_score. fold words. fold terms. rewrite Hterms.
      assert (existsb (λ term, bool_decide (positions_of
                (positions_fill words (positions_init (t0 :: terms'))) term = []))
                (t0 :: terms') = true) as ->; [by apply absent_test|done].
  - assert (∀ t, t ∈ terms → t ∈ words) as Hpresent.
    { intros t Ht. destruct (decide (t ∈ words)) as [|Hout]; [done|].
      destruct Hall. apply Exists_exists. by exists t. }
    destruct (decide (NoDup terms)) as [Hnd|Hnd].
    + destruct (decide (terms = [])) as [Hnil|Hne].
      * unfold minimal_span_score. fold words. fold terms. rewrite Hnil. done.
      * destruct (minimal_span_score_correct text query_terms) as [_ Hsome];
          [done|done|].
        destruct (Hsome Hpresent) as (a & b & _ & _ & _ & ->). done.
    + by rewrite (minimal_span_score_repeated text query_terms Hnd Hpresent).
Qed.
End Positions.

(** *** The span rerank *)
Section SpanRerank.
Context `{Unicode}.

Lemma span_scores_total corpus top_docs query_terms :
  Forall (λ c : nat * Q, is_Some (text_at corpus c.1)) top_docs →
  ∃ doc_scores,
    mapM (λ c : nat * Q,
            text ← text_at corpus c.1;
            ms_score ← minimal_span_score text query_terms;
            Some (c.1, ms_score)) top_docs = Some doc_scores
    ∧ Forall2 (λ (c s : nat * Q),
                 s.1 = c.1
                 ∧ ∃ t, text_at corpus c.1 = Some t
                        ∧ minimal_span_score t query_terms = Some s.2)
              top_docs doc_scores.
Proof.
  induction 1 as [|c top_docs [t Ht] _ (doc_scores & IH & Hall)].
  - exists []. split; [done|constructor].
  - destruct (minimal_span_score_total t query_terms) as [s Hs].
    exists ((c.1, s) :: doc_scores). split.
    + cbn. rewrite Ht. cbn. rewrite Hs. cbn. by rewrite IH.
    + constructor; [|done]. split; [done|]. by exists t.
Qed.

(** The span rerank gives each candidate its span score and sorts the
    candidates descending by it; candidates of one score keep the
    order they came in. *)
Lemma rerank_minimal_span_sorted_stable corpus top_docs query_terms :
  Forall (λ c : nat * Q, is_Some (text_at corpus c.1)) top_docs →
  ∃ doc_scores ranking,
    rerank_minimal_span corpus top_docs query_terms = Some ranking
    ∧ Forall2 (λ (c s : nat * Q),
                 s.1 = c.1
                 ∧ ∃ t, text_at corpus c.1 = Some t
                        ∧ minimal_span_score t query_terms = Some s.2)
              top_docs doc_scores
    ∧ ranking ≡ₚ doc_scores
    ∧ StronglySorted (λ x y, (y.2 <= x.2)%Q) ranking
    ∧ ∀ v, filter (λ x, Qeq_bool x.2 v = true) ranking
           = filter (λ x, Qeq_bool x.2 v = true) doc_scores.
Proof.
  intros Htext.
  destruct (span_scores_total corpus top_docs query_terms Htext)
    as (doc_scores & Hm & Hall).
  exists doc_scores, (sort_desc snd doc_scores).
  unfold rerank_minimal_span. rewrite Hm. cbn.
  split; [done|]. split; [done|]. split; [apply sort_desc_perm|].
  split; [apply sort_desc_sorted|]. intros v. apply sort_desc_stable.
Qed.
End SpanRerank.

(** ** The tokenizer of the BM25 path *)
Section Tokenization.
Context `{Unicode, Numeric, BM25Lib, Paths}.

(** The BM25 search sees the query through its tokens only. *)
Lemma bm25_search_tokens corpus model q1 q2 :
  tokenize q1 = tokenize q2 →
  bm25_search corpus model q1 = bm25_search corpus model q2.
Proof. unfold bm25_search. by intros ->. Qed.

(** Texts that differ by case only are indexed as the same tokens. *)
Lemma tokenize_texts_case (ts ts' : list str) :
  lower_cases →
  Forall2 (λ t t', lower t = lower t') ts ts' →
  tokenize <$> ts' = tokenize <$> ts.
Proof.
  intros Hlow Hall. induction Hall as [|t t' ts ts' Ht Hall IH]; [done|].
  cbn [fmap list_fmap]. f_equal; [symmetry; by apply Hlow|exact IH].
Qed.

(** C2, amended. For every indexed corpus, the same tokenization, the
    library's, is applied to the indexed texts and to the query, each
    as it is: the index of a load is the tokenizer's output on the text
    of every chunk that has one, and two queries with the same tokens
    get the same answer of the BM25 search. With a tokenizer that
    lower-cases, as the library's does, a query term and an indexed
    term that differ only by letter case are therefore the same term
    to the retrieval: queries that differ only by case get the same
    ranking; a query that differs only by case from an indexed text
    has the tokens the index holds for that text; and a load of the
    same number of chunks whose texts differ only by case gives the
    same index and the same ranking for every query. The program
    strips no diacritics on this path: the tokenizer gets the raw
    texts and the raw query, and terms that differ by diacritics get
    the same answer where the library's tokenizer gives them the same
    tokens. *)
Theorem tokenization_symmetry folders_list ld model :
  load_corpus_and_initialize_bm25 folders_list = Some ld →
  loaded_model ld = Some model →
  model = tokenize <$> texts (loaded_corpus ld)
  ∧ (∀ q1 q2, tokenize q1 = tokenize q2 →
       bm25_search (loaded_corpus ld) model q1
       = bm25_search (loaded_corpus ld) model q2)
  ∧ (lower_cases →
       (∀ q1 q2, lower q1 = lower q2 →
          bm25_search (loaded_corpus ld) model q1
          = bm25_search (loaded_corpus ld) model q2)
       ∧ (∀ i t q, texts (loaded_corpus ld) !! i = Some t →
            lower q = lower t → model !! i = Some (tokenize q))
       ∧ (∀ folders_list' ld' model' q,
            load_corpus_and_initialize_bm25 folders_list' = Some ld' →
            loaded_model ld' = Some model' →
            length (loaded_corpus ld') = length (loaded_corpus ld) →
            Forall2 (λ t t', lower t = lower t')
              (texts (loaded_corpus ld)) (texts (loaded_corpus ld')) →
            model' = model
            ∧ bm25_search (loaded_corpus ld') model' q
              = bm25_search (loaded_corpus ld) model q)).
Proof.
  intros Hload Hmodel.
  pose proof (loaded_model_texts _ _ _ Hload Hmodel) as Hm.
  split; [exact Hm|]. split; [intros q1 q2; apply bm25_search_tokens|].
  intros Hlow. split; [|split].
  - intros q1 q2 Hq. by apply bm25_search_tokens, Hlow.
  - intros i t q Ht Hq. rewrite Hm, list_lookup_fmap, Ht. cbn.
    f_equal. symmetry. by apply Hlow.
  - intros folders_list' ld' model' q Hload' Hmodel' Hlen Hall.
    pose proof (loaded_model_texts _ _ _ Hload' Hmodel') as Hm'.
    assert (model' = model) as ->.
    { rewrite Hm, Hm'. by apply tokenize_texts_case. }
    split; [done|]. unfold bm25_search. by rewrite Hlen.
Qed.
End Tokenization.

(** ** The parser of the simple text search *)
Section Parser.
Context `{Unicode}.

Lemma span_while_spec p s :
  s = (span_while p s).1 ++ (span_while p s).2
  ∧ Forall (λ c, p c = true) (span_while p s).1
  ∧ (match (span_while p s).2 with [] => True | c :: _ => p c = false end).
Proof.
  induction s as [|c s (IH1 & IH2 & IH3)]; simpl; [by repeat constructor|].
  destruct (p c) eqn:Hc; [|by repeat constructor].
  destruct (span_while p s) as [a b]. simpl in *.
  split; [by f_equal|]. split; [by constructor|done].
Qed.

Lemma match_phrase_spec s phrase rest :
  match_phrase s = Some (phrase, rest) →
  s = quote :: phrase ++ quote :: rest ∧ phrase ≠ [] ∧ (quote ∉ phrase).
Proof.
  unfold match_phrase. destruct s as [|c s]; [done|].
  case_bool_decide as Hq; [subst c|done].
  destruct (span_while_spec (λ c, negb (bool_decide (c = quote))) s)
    as (Happ & Hall & Hnext).
  destruct (span_while _ s) as [[|c a] [|c' b]]; try done.
  intros [= <- <-]. simpl in *.
  apply negb_false_iff, bool_decide_eq_true in Hnext as ->.
  split; [by rewrite Happ|]. split; [done|].
  intros Hin. rewrite Forall_forall in Hall. specialize (Hall _ Hin).
  by apply negb_true_iff, bool_decide_eq_false in Hall.
Qed.

Lemma match_word_spec s word rest :
  match_word s = Some (word, rest) →
  s = word ++ rest ∧ word ≠ [] ∧ Forall (λ c, isspace c = false) word.
Proof.
  unfold match_word.
  destruct (span_while_spec (λ c, negb (isspace c)) s) as (Happ & Hall & _).
  destruct (span_while _ s) as [[|c a] b]; [done|].
  intros [= <- <-]. split; [done|]. split; [done|].
  eapply Forall_impl; [exact Hall|]. intros ?. by rewrite negb_true_iff.
Qed.

Lemma match_shape_suffix pre s m : match_shape s m → match_shape (pre ++ s) m.
Proof.
  assert (∀ x, substring x s → substring x (pre ++ s)) as Hsub.
  { intros x (a & b & ->). exists (pre ++ a), b. by rewrite <- app_assoc. }
  intros [(?&?&?&?)|(?&?&?&?)]; [left|right]; auto.
Qed.

Lemma findall_phrase_word_cons fuel c s :
  findall_phrase_word (S fuel) (c :: s)
  = match match_phrase (c :: s) with
    | Some (phrase, rest) => (phrase, []) :: findall_phrase_word fuel rest
    | None =>
        match match_word (c :: s) with
        | Some (word, rest) => ([], word) :: findall_phrase_word fuel rest
        | None => findall_phrase_word fuel s
        end
    end.
Proof. done. Qed.

Lemma findall_phrase_word_shape fuel s :
  Forall (match_shape s) (findall_phrase_word fuel s).
Proof.
  revert s. induction fuel as [|fuel IH]; intros [|c s]; try by constructor.
  rewrite findall_phrase_word_cons.
  destruct (match_phrase (c :: s)) as [[phrase rest]|] eqn:Hp;
    [|destruct (match_word (c :: s)) as [[word rest]|] eqn:Hw].
  - apply match_phrase_spec in Hp as (Hs & Hne & Hq). constructor.
    + left. simpl. split; [done|]. split; [done|]. split; [done|].
      exists [], rest. rewrite Hs. simpl. by rewrite <- app_assoc.
    + rewrite Hs.
      replace (quote :: phrase ++ quote :: rest)
        with ((quote :: phrase ++ [quote]) ++ rest)
        by (simpl; by rewrite <- app_assoc).
      eapply Forall_impl; [apply IH|]. intros m. apply match_shape_suffix.
  - apply match_word_spec in Hw as (Hs & Hne & Hsp). constructor.
    + right. simpl. split; [done|]. split; [done|]. split; [done|].
      exists [], rest. by rewrite Hs.
    + rewrite Hs. eapply Forall_impl; [apply IH|]. intros m.
      apply match_shape_suffix.
  - eapply Forall_impl; [apply IH|]. intros m.
    apply (match_shape_suffix [c]).
Qed.

Lemma parse_loop (matches : list (str * str)) (acc : list str * list str) :
  foldl (λ acc m,
           if bool_decide (m.1 ≠ []) then (acc.1 ++ [m.1], acc.2)
           else if bool_decide (m.2 ≠ []) then (acc.1, acc.2 ++ [m.2])
           else acc) acc matches
  = (acc.1 ++ filter (λ x, x ≠ []) matches.*1,
     acc.2 ++ (filter (λ m, m.1 = [] ∧ m.2 ≠ []) matches).*2).
Proof.
  revert acc. induction matches as [|m matches IH]; intros acc.
  - simpl. rewrite !app_nil_r. by destruct acc.
  - cbn [foldl]. rewrite IH. cbn [fmap list_fmap]. rewrite !filter_cons.
    destruct (decide (m.1 ≠ [])) as [Hp|Hp].
    + rewrite bool_decide_eq_true_2 by done. cbn [fst snd].
      rewrite decide_False by (intros [? _]; done).
      by rewrite <- app_assoc.
    + rewrite bool_decide_eq_false_2 by done.
      apply dec_stable in Hp.
      destruct (decide (m.2 ≠ [])) as [Hw|Hw].
      * rewrite bool_decide_eq_true_2 by done. cbn [fst snd].
        rewrite decide_True by done. cbn. by rewrite <- app_assoc.
      * rewrite bool_decide_eq_false_2 by done.
        by rewrite decide_False by (intros [_ ?]; done).
Qed.

(** Every phrase of the parsed query stands in the query between two
    double quotes and holds none; every word is a run of characters
    of the query without white space; neither is empty. *)
Lemma parse_simple_search_query_shape query_str :
  (∀ p, p ∈ (parse_simple_search_query query_str).1 →
     p ≠ [] ∧ (quote ∉ p) ∧ substring (quote :: p ++ [quote]) query_str)
  ∧ (∀ w, w ∈ (parse_simple_search_query query_str).2 →
       w ≠ [] ∧ Forall (λ c, isspace c = false) w ∧ substring w query_str).
Proof.
  unfold parse_simple_search_query. rewrite parse_loop. simpl.
  pose proof (findall_phrase_word_shape (length query_str) query_str) as Hall.
  rewrite Forall_forall in Hall. split.
  - intros p [Hne ([p' w] & -> & Hm)%list_elem_of_fmap]%list_elem_of_filter.
    destruct (Hall _ Hm) as [(_ & _ & Hq & Hsub)|(Hnil & _)]; [done|].
    simpl in *. done.
  - intros w ([p w'] & -> & [[Hp Hw] Hm]%list_elem_of_filter)%list_elem_of_fmap.
    destruct (Hall _ Hm) as [(_ & Hnil & _)|(_ & _ & Hsp & Hsub)]; [|done].
    simpl in *. done.
Qed.

(** More fuel than the length of the string changes nothing. *)
Lemma findall_phrase_word_fuel f1 f2 s :
  length s ≤ f1 → length s ≤ f2 →
  findall_phrase_word f1 s = findall_phrase_word f2 s.
Proof.
  revert f2 s. induction f1 as [|f1 IH]; intros f2 [|c s] H1 H2;
    try (simpl in *; lia); try (by destruct f2).
  destruct f2 as [|f2]; [simpl in *; lia|].
  rewrite !findall_phrase_word_cons.
  destruct (match_phrase (c :: s)) as [[phrase rest]|] eqn:Hp;
    [|destruct (match_word (c :: s)) as [[word rest]|] eqn:Hw].
  - apply match_phrase_spec in Hp as (Hs & _ & _).
    apply (f_equal length) in Hs. simpl in Hs, H1, H2.
    rewrite length_app in Hs. simpl in Hs.
    f_equal. apply IH; lia.
  - apply match_word_spec in Hw as (Hs & Hne & _).
    apply (f_equal length) in Hs. simpl in Hs, H1, H2.
    rewrite length_app in Hs. destruct word; [done|]. simpl in Hs.
    f_equal. apply IH; lia.
  - simpl in H1, H2. apply IH; lia.
Qed.

Lemma runs_aux_span p cur s :
  runs_aux p cur s
  = (if reverse cur ++ (span_while p s).1 is [] then []
     else [reverse cur ++ (span_while p s).1])
    ++ match (span_while p s).2 with
       | [] => []
       | _ :: rest => runs_aux p [] rest
       end.
Proof.
  revert cur. induction s as [|c s IH]; intros cur; simpl.
  - rewrite !app_nil_r. destruct cur as [|c cur]; [done|].
    rewrite reverse_cons. by destruct (reverse cur).
  - destruct (p c) eqn:Hc.
    + rewrite IH. destruct (span_while p s) as [a b]. simpl.
      by rewrite reverse_cons, <- app_assoc.
    + simpl. rewrite app_nil_r. destruct cur as [|c' cur]; [done|].
      rewrite reverse_cons. by destruct (reverse cur).
Qed.

(** On a query without double quotes the matches are the words that
    [split] gives. *)
Lemma findall_phrase_word_split fuel s :
  quote ∉ s → length s ≤ fuel →
  findall_phrase_word fuel s = (λ w, ([], w)) <$> split s.
Proof.
  unfold split, runs.
  revert s. induction fuel as [|fuel IH]; intros [|c s] Hq Hlen;
    try done; try (simpl in *; lia).
  rewrite findall_phrase_word_cons.
  assert (match_phrase (c :: s) = None) as ->.
  { unfold match_phrase. rewrite bool_decide_eq_false_2; [done|].
    intros ->. apply Hq. left. }
  rewrite runs_aux_span. unfold match_word. rewrite app_nil_l.
  destruct (span_while_spec (λ c, negb (isspace c)) (c :: s)) as (Happ & _ & Hnext).
  destruct (span_while _ (c :: s)) as [[|c' a] b] eqn:Hspan; cbn [fst snd] in *.
  - simpl in Happ. subst b. rewrite app_nil_l.
    apply IH; [|simpl in *; lia]. intros Hin. apply Hq. by right.
  - cbn [fmap list_fmap app]. f_equal.
    assert (length b ≤ fuel) as Hb.
    { apply (f_equal length) in Happ. simpl in Happ, Hlen.
      rewrite length_app in Happ. lia. }
    assert (quote ∉ b) as Hqb.
    { intros Hin. apply Hq. rewrite Happ. apply elem_of_app. by right. }
    rewrite (IH b Hqb Hb).
    destruct b as [|c'' b]; [done|].
    simpl. by rewrite Hnext.
Qed.

Lemma parse_simple_search_query_no_quote query_str :
  quote ∉ query_str →
  parse_simple_search_query query_str = ([], split query_str).
Proof.
  intros Hq. unfold parse_simple_search_query.
  rewrite parse_loop, findall_phrase_word_split by done. cbn [fst snd app].
  assert (Forall (λ w, w ≠ []) (split query_str)) as Hne.
  { pose proof (findall_phrase_word_shape (length query_str) query_str) as Hall.
    rewrite findall_phrase_word_split in Hall by done.
    rewrite Forall_fmap in Hall. eapply Forall_impl; [exact Hall|].
    intros w [(? & _)|(_ & ? & _)]; done. }
  revert Hne. generalize (split query_str). intros l Hne.
  induction Hne as [|w l Hw Hl IH]; [done|].
  cbn [fmap list_fmap fst] in *. rewrite !filter_cons. cbn [fst snd].
  rewrite decide_False by (intros Hn; by apply Hn).
  rewrite decide_True by done.
  cbn [fmap list_fmap snd]. injection IH as -> ->. done.
Qed.
End Parser.

(** ** Stepping through the results *)

(** What [show_current_chunk] does when it returns: it shows the
    result at the current index and changes nothing else. *)
Lemma show_current_chunk_Some g a a' :
  results a ≠ [] →
  show_current_chunk g a = Some a' →
  ∃ doc_id score,
    results a !! current_result_index a = Some (doc_id, score)
    ∧ doc_id < length (GLOBAL_CORPUS g)
    ∧ a' = set_display (ChunkShown doc_id score) a.
Proof.
  intros Hne. unfold show_current_chunk.
  destruct (results a) as [|c rs] eqn:Hres; [done|].
  intros Hshow. apply bind_Some in Hshow as ([doc_id score] & Hlook & Hshow).
  apply bind_Some in Hshow as (d & Hd%lookup_lt_Some & [= <-]).
  by exists doc_id, score.
Qed.

Lemma show_current_chunk_valid g a :
  results a ≠ [] → results_valid g a →
  ∃ doc_id score,
    results a !! current_result_index a = Some (doc_id, score)
    ∧ show_current_chunk g a = Some (set_display (ChunkShown doc_id score) a).
Proof.
  intros Hne [Hall Hidx]. specialize (Hidx Hne).
  destruct (lookup_lt_is_Some_2 _ _ Hidx) as [[doc_id score] Hlook].
  exists doc_id, score. split; [done|].
  unfold show_current_chunk. destruct (results a) as [|c rs] eqn:Hres; [done|].
  rewrite Hlook. cbn.
  rewrite Forall_forall in Hall.
  assert (doc_id < length (GLOBAL_CORPUS g)) as Hin.
  { apply (Hall (doc_id, score)). by eapply list_elem_of_lookup_2. }
  destruct (lookup_lt_is_Some_2 _ _ Hin) as [d ->]. done.
Qed.

Lemma previous_index (i n : nat) :
  i < n →
  Z.to_nat ((Z.of_nat i - 1) `mod` Z.of_nat n) = if i is 0 then n - 1 else i - 1.
Proof.
  intros Hi. destruct i as [|i].
  - replace (Z.of_nat 0 - 1)%Z with (-1 + 1 * Z.of_nat n - Z.of_nat n + 0)%Z by lia.
    replace (-1 + 1 * Z.of_nat n - Z.of_nat n + 0)%Z with (-1)%Z by lia.
    rewrite <- (Z_mod_plus_full (-1) 1 (Z.of_nat n)).
    rewrite Z.mod_small by lia. lia.
  - rewrite Z.mod_small by lia. lia.
Qed.

Lemma next_index (i n : nat) :
  i < n → (i + 1) mod n = if bool_decide (i + 1 = n) then 0 else i + 1.
Proof.
  intros Hi. case_bool_decide as Hlast.
  - rewrite Hlast. apply Nat.Div0.mod_same.
  - apply Nat.mod_small. lia.
Qed.

Lemma show_next_chunk_unfold g a :
  results a ≠ [] →
  show_next_chunk g a
  = show_current_chunk g
      (set_current_result_index
         ((current_result_index a + 1) mod length (results a)) a).
Proof. unfold show_next_chunk. by destruct (results a). Qed.

Lemma show_previous_chunk_unfold g a :
  results a ≠ [] →
  show_previous_chunk g a
  = show_current_chunk g
      (set_current_result_index
         (Z.to_nat ((Z.of_nat (current_result_index a) - 1)
                    `mod` Z.of_nat (length (results a)))) a).
Proof. unfold show_previous_chunk. by destruct (results a). Qed.

Lemma index_in_range_nonempty (a : SearchApp) :
  current_result_index a < length (results a) → results a ≠ [].
Proof. intros Hi Hnil. rewrite Hnil in Hi. simpl in Hi. lia. Qed.

(** The state a button leaves when it returns: the index it computes
    and the display of the entry there. *)
Lemma show_next_chunk_Some g a a' :
  current_result_index a < length (results a) →
  show_next_chunk g a = Some a' →
  let j := if bool_decide (current_result_index a + 1 = length (results a))
           then 0 else current_result_index a + 1 in
  ∃ doc_id score,
    results a !! j = Some (doc_id, score)
    ∧ a' = set_display (ChunkShown doc_id score) (set_current_result_index j a).
Proof.
  intros Hi. pose proof (index_in_range_nonempty a Hi) as Hne.
  rewrite show_next_chunk_unfold, next_index by done. intros Hshow.
  apply show_current_chunk_Some in Hshow as (doc_id & score & Hlook & _ & ->);
    [|done].
  by exists doc_id, score.
Qed.

Lemma show_previous_chunk_Some g a a' :
  current_result_index a < length (results a) →
  show_previous_chunk g a = Some a' →
  let j := if current_result_index a is 0 then length (results a) - 1
           else current_result_index a - 1 in
  ∃ doc_id score,
    results a !! j = Some (doc_id, score)
    ∧ a' = set_display (ChunkShown doc_id score) (set_current_result_index j a).
Proof.
  intros Hi. pose proof (index_in_range_nonempty a Hi) as Hne.
  rewrite show_previous_chunk_unfold, previous_index by done. intros Hshow.
  apply show_current_chunk_Some in Hshow as (doc_id & score & Hlook & _ & ->);
    [|done].
  by exists doc_id, score.
Qed.

(** X1. With a ranking stored and the index on one of its entries, the
    next button moves to the following entry and from the last entry
    to the first; the previous button moves to the entry before and
    from the first entry to the last. Either shows the entry it moves
    to and leaves the ranking as it is. *)
Theorem navigation_wraps g a a' :
  current_result_index a < length (results a) →
  let i := current_result_index a in
  let n := length (results a) in
  (show_next_chunk g a = Some a' →
     results a' = results a
     ∧ current_result_index a' = (if bool_decide (i + 1 = n) then 0 else i + 1)
     ∧ ∃ doc_id score,
         results a !! current_result_index a' = Some (doc_id, score)
         ∧ result_display a' = ChunkShown doc_id score)
  ∧ (show_previous_chunk g a = Some a' →
     results a' = results a
     ∧ current_result_index a' = (if i is 0 then n - 1 else i - 1)
     ∧ ∃ doc_id score,
         results a !! current_result_index a' = Some (doc_id, score)
         ∧ result_display a' = ChunkShown doc_id score).
Proof.
  intros Hi i n. split.
  - intros Hshow.
    destruct (show_next_chunk_Some g a a' Hi Hshow) as (doc_id & score & Hlook & ->).
    cbn. split; [done|]. split; [done|]. by exists doc_id, score.
  - intros Hshow.
    destruct (show_previous_chunk_Some g a a' Hi Hshow)
      as (doc_id & score & Hlook & ->).
    cbn. split; [done|]. split; [done|]. by exists doc_id, score.
Qed.

(** X2. The two buttons undo each other: with the index on an entry of
    the ranking, next followed by previous, and previous followed by
    next, end on the entry they started from, in the state that
    showing that entry again gives. *)
Theorem next_previous_inverse g a a1 :
  current_result_index a < length (results a) →
  (show_next_chunk g a = Some a1 →
     show_previous_chunk g a1 = show_current_chunk g a)
  ∧ (show_previous_chunk g a = Some a1 →
     show_next_chunk g a1 = show_current_chunk g a).
Proof.
  intros Hi. pose proof (index_in_range_nonempty a Hi) as Hne.
  split.
  - intros Hshow.
    destruct (show_next_chunk_Some g a a1 Hi Hshow) as (doc_id & score & _ & ->).
    rewrite show_previous_chunk_unfold by done. cbn.
    replace (Z.to_nat _) with (current_result_index a).
    + by destruct a.
    + case_bool_decide as Hlast.
      * rewrite previous_index by lia. simpl. lia.
      * rewrite previous_index by lia.
        destruct (current_result_index a + 1) eqn:Hs; lia.
  - intros Hshow.
    destruct (show_previous_chunk_Some g a a1 Hi Hshow)
      as (doc_id & score & _ & ->).
    rewrite show_next_chunk_unfold by done. cbn.
    replace (_ mod _) with (current_result_index a).
    + by destruct a.
    + destruct (current_result_index a) as [|i] eqn:Hs.
      * replace (length (results a) - 1 + 1) with (length (results a)) by lia.
        by rewrite Nat.Div0.mod_same.
      * rewrite Nat.mod_small by lia. lia.
Qed.

Lemma press_next_index k g a a' :
  current_result_index a < length (results a) →
  press_next k g a = Some a' →
  results a' = results a
  ∧ current_result_index a' = (current_result_index a + k) mod length (results a).
Proof.
  revert a. induction k as [|k IH]; intros a Hi; simpl.
  - intros [= <-]. split; [done|]. rewrite Nat.add_0_r. by rewrite Nat.mod_small.
  - intros Hp. apply bind_Some in Hp as (a1 & Hnext & Hp).
    destruct (show_next_chunk_Some g a a1 Hi Hnext) as (doc_id & score & _ & Ha1).
    assert (results a1 = results a) as Hres by (by rewrite Ha1).
    assert (current_result_index a1
            = (current_result_index a + 1) mod length (results a)) as Hidx
      by (rewrite next_index by done; by rewrite Ha1).
    apply IH in Hp as [Hres' Hidx'].
    + split; [congruence|]. rewrite Hidx', Hres, Hidx.
      rewrite Nat.Div0.add_mod_idemp_l. f_equal. lia.
    + rewrite Hres, Hidx. apply Nat.mod_upper_bound.
      intros Hn. rewrite Hn in Hi. lia.
Qed.

Lemma show_at_valid g a j :
  results_valid g a → j < length (results a) →
  ∃ a', show_current_chunk g (set_current_result_index j a) = Some a'
        ∧ results_valid g a'.
Proof.
  intros [Hall Hidx] Hj.
  assert (results a ≠ []) as Hne by (intros Hnil; rewrite Hnil in Hj; simpl in Hj; lia).
  destruct (show_current_chunk_valid g (set_current_result_index j a))
    as (doc_id & score & _ & ->); [done|split; [done|by intros _]|].
  eexists. split; [done|]. split; [done|by intros _].
Qed.

Lemma show_next_chunk_valid g a :
  results_valid g a →
  ∃ a', show_next_chunk g a = Some a' ∧ results_valid g a'.
Proof.
  intros Hvalid. destruct (decide (results a = [])) as [Hnil|Hne].
  { exists a. unfold show_next_chunk. by rewrite Hnil. }
  rewrite show_next_chunk_unfold by done. apply show_at_valid; [done|].
  apply Nat.mod_upper_bound. by destruct (results a).
Qed.

Lemma press_next_valid k g a :
  results_valid g a →
  ∃ a', press_next k g a = Some a' ∧ results_valid g a'.
Proof.
  revert a. induction k as [|k IH]; intros a Hvalid; simpl.
  - by exists a.
  - destruct (show_next_chunk_valid g a Hvalid) as (a1 & -> & Hv1). simpl.
    by apply IH.
Qed.

(** X3. With every stored result naming a chunk of the corpus and the
    index on entry [i] of a ranking of [n] entries, [k] presses of
    next do not raise and end on entry [(i + k) mod n] with the
    ranking unchanged: [n] presses come back to the entry they
    started from, and every entry is reached with fewer than [n]
    presses. *)
Theorem press_next_cycle g a :
  results_valid g a → results a ≠ [] →
  let i := current_result_index a in
  let n := length (results a) in
  (∀ k, ∃ a', press_next k g a = Some a'
              ∧ results a' = results a
              ∧ current_result_index a' = (i + k) mod n)
  ∧ (∃ a', press_next n g a = Some a' ∧ current_result_index a' = i)
  ∧ (∀ j, j < n → ∃ k a', k < n ∧ press_next k g a = Some a'
                          ∧ current_result_index a' = j).
Proof.
  intros Hvalid Hne i n. pose proof Hvalid as [_ Hi]. specialize (Hi Hne).
  assert (∀ k, ∃ a', press_next k g a = Some a'
                     ∧ results a' = results a
                     ∧ current_result_index a' = (i + k) mod n) as Hk.
  { intros k. destruct (press_next_valid k g a Hvalid) as (a' & Hp & _).
    exists a'. split; [done|]. by apply (press_next_index k g). }
  split; [done|]. split.
  - destruct (Hk n) as (a' & Hp & _ & Hidx). exists a'. split; [done|].
    rewrite Hidx. replace (i + n) with (i + 1 * n) by lia.
    rewrite Nat.Div0.mod_add. by apply Nat.mod_small.
  - intros j Hj.
    assert (∃ k, k < n ∧ (i + k) mod n = j) as (k & Hkn & Hmod).
    { destruct (decide (i ≤ j)) as [Hle|Hgt].
      - exists (j - i). split; [lia|].
        replace (i + (j - i)) with j by lia. by apply Nat.mod_small.
      - exists (n - i + j). split; [unfold i, n in *; lia|].
        replace (i + (n - i + j)) with (j + 1 * n) by (unfold i, n in *; lia).
        rewrite Nat.Div0.mod_add. by apply Nat.mod_small. }
    destruct (Hk k) as (a' & Hp & _ & Hidx). exists k, a'.
    split; [done|]. split; [done|]. by rewrite Hidx.
Qed.

(** X4. When every stored result names a chunk of the corpus and the
    index names a stored result, neither button raises, and the same
    holds of the state each of them leaves. *)
Theorem navigation_never_raises g a :
  results_valid g a →
  ∃ a1 a2,
    show_next_chunk g a = Some a1 ∧ results_valid g a1
    ∧ show_previous_chunk g a = Some a2 ∧ results_valid g a2.
Proof.
  intros Hvalid. destruct (show_next_chunk_valid g a Hvalid) as (a1 & Ha1 & Hv1).
  exists a1. destruct (decide (results a = [])) as [Hnil|Hne].
  { exists a. unfold show_previous_chunk. by rewrite Hnil. }
  pose proof Hvalid as [_ Hidx]. specialize (Hidx Hne).
  destruct (show_at_valid g a
              (Z.to_nat ((Z.of_nat (current_result_index a) - 1)
                         `mod` Z.of_nat (length (results a)))) Hvalid)
    as (a2 & Ha2 & Hv2).
  { rewrite previous_index by done. destruct (current_result_index a); lia. }
  exists a2. by rewrite show_previous_chunk_unfold.
Qed.

(** ** The search as a whole *)
Section SearchWhole.
Context `{Unicode, Numeric, BM25Lib, Embedder}.

(** What [publish] leaves: the ranking, the index on its first entry,
    and that entry or the notice of an empty ranking on display. *)
Lemma publish_Some g ranking a a' :
  publish g ranking a = Some a' →
  a' = set_display
         (match ranking with
          | [] => NoResultsFound
          | (doc_id, score) :: _ => ChunkShown doc_id score
          end) (set_results ranking a).
Proof.
  unfold publish. destruct ranking as [|[doc_id score] ranking].
  - by intros [= <-].
  - intros Hshow.
    apply show_current_chunk_Some in Hshow as (doc_id' & score' & Hlook & _ & ->);
      [|done].
    cbn in Hlook. by simplify_eq.
Qed.

Lemma publish_valid g ranking a :
  Forall (λ c : nat * Q, c.1 < length (GLOBAL_CORPUS g)) ranking →
  ∃ a', publish g ranking a = Some a' ∧ results_valid g a'.
Proof.
  intros Hall. unfold publish.
  destruct (decide (ranking = [])) as [->|Hne].
  { eexists. split; [done|]. split; [constructor|done]. }
  assert (0 < length ranking) as Hlen by (destruct ranking; [done|simpl; lia]).
  destruct (show_current_chunk_valid g (set_results ranking a))
    as (doc_id & score & _ & Hshow); [done|split; [done|by intros _]|].
  exists (set_display (ChunkShown doc_id score) (set_results ranking a)).
  split; [by destruct ranking|]. split; [done|by intros _].
Qed.

Lemma simple_text_search_in_range corpus raw_query :
  Forall (λ c : nat * Q, c.1 < length corpus) (simple_text_search corpus raw_query).
Proof.
  rewrite simple_text_search_filter. apply Forall_forall. intros c Hc.
  apply list_elem_of_fmap in Hc as (i & -> & Hi).
  apply list_elem_of_fmap in Hi as ([j d] & -> & Hjd).
  apply list_elem_of_filter in Hjd as [_ Hjd].
  apply elem_of_enumerate in Hjd. by eapply lookup_lt_Some.
Qed.

Lemma Forall_fst_perm (P : nat → Prop) (l l' : list (nat * Q)) :
  l'.*1 ≡ₚ l.*1 → Forall (λ c, P c.1) l → Forall (λ c, P c.1) l'.
Proof.
  intros Hperm Hall.
  apply (Forall_fmap fst P l) in Hall. apply (Forall_fmap fst P l').
  by rewrite Hperm.
Qed.

Lemma embeddings_search_in_range corpus raw_query :
  ∃ ranking, embeddings_search corpus raw_query = Some ranking
    ∧ Forall (λ c : nat * Q, c.1 < length corpus) ranking.
Proof.
  unfold embeddings_search.
  pose proof (top_k_in_range corpus (query_embed raw_query)) as Htop.
  destruct (mapM_penalized_enumerated corpus _ Htop) as (l' & -> & _ & Hfst).
  eexists. split; [done|].
  eapply (Forall_fst_perm (λ i, i < length corpus)); [|exact Htop].
  rewrite <- Hfst. apply fmap_Permutation, sort_desc_perm.
Qed.

(** The branches of [search] that report a condition and return. *)
Local Ltac reported :=
  intros [= <-]; cbn; split_and!; try done; left; split_and!; try done;
  set_solver.

(** X5. What a search that returns leaves behind. The highlighting
    terms are the folded words of the query just entered, in every
    case; the rerank selection and the embeddings flag are untouched.
    Then either the call reported one of its five conditions, and the
    ranking and the index are the ones from before the call; or it
    stored a ranking, the index is on its first entry, the search
    method is the one selected, and the display shows that first
    entry, or the notice of an empty ranking. *)
Theorem search_frame g query_input a a' :
  search g query_input a = Some a' →
  query_terms a' = fold_text <$> findall_word (strip query_input)
  ∧ rerank_combo a' = rerank_combo a
  ∧ embeddings_present a' = embeddings_present a
  ∧ ((results a' = results a
      ∧ current_result_index a' = current_result_index a
      ∧ result_display a' ∈ [NoCorpusLoaded; PleaseEnterQuery; NoEmbFilesReverting;
                              FastEmbedUnavailableReverting; NoBM25Model])
     ∨ (current_result_index a' = 0
        ∧ search_method_combo a' = search_method_combo a
        ∧ result_display a'
          = match results a' with
            | [] => NoResultsFound
            | (doc_id, score) :: _ => ChunkShown doc_id score
            end)).
Proof.
  unfold search.
  case_bool_decide as Hc; [reported|]. case_bool_decide as Hq; [reported|].
  cbn [search_method_combo rerank_combo embeddings_present set_query_terms query_terms].
  destruct (search_method_combo a) eqn:Hm.
  - destruct (GLOBAL_BM25_MODEL g) as [model|]; [|reported].
    intros Hs. apply bind_Some in Hs as (truncated & _ & Hs).
    apply bind_Some in Hs as (final & _ & ->%publish_Some).
    cbn. split_and!; try done. right. by destruct final as [|[??]?].
  - intros ->%publish_Some. cbn. split_and!; try done. right.
    by destruct (simple_text_search _ _) as [|[??]?].
  - destruct (embeddings_present a) eqn:He; [|reported].
    destruct (negb (FASTEMBED_AVAILABLE g) || negb (GLOBAL_EMBED_MODEL g));
      [reported|].
    intros Hs. apply bind_Some in Hs as (ranking & _ & ->%publish_Some).
    cbn. split_and!; try done. right. by destruct ranking as [|[??]?].
Qed.

Lemma publish_set_rerank g ranking m a :
  publish g ranking (set_rerank m a) = set_rerank m <$> publish g ranking a.
Proof.
  unfold publish. destruct ranking as [|[doc_id score] ranking]; [done|].
  unfold show_current_chunk. cbn.
  by destruct (GLOBAL_CORPUS g !! doc_id).
Qed.

(** X6. Whenever the application has the rerank box disabled, the
    rerank selection has no effect on a search: for the methods for
    which [update_rerank_combo_status] disables the box, the simple
    text search and the embeddings search, a search does the same
    whatever reranker is selected, and leaves the selection as it
    is. *)
Theorem rerank_selection_ignored g query_input a m :
  update_rerank_combo_status (search_method_combo a) = false →
  search g query_input (set_rerank m a)
  = set_rerank m <$> search g query_input a.
Proof.
  intros Hm. unfold search.
  case_bool_decide as Hc; [done|]. case_bool_decide as Hq; [done|].
  cbn [search_method_combo rerank_combo embeddings_present set_query_terms
       query_terms set_rerank].
  destruct (search_method_combo a) eqn:Hmethod; [done| |].
  - apply (publish_set_rerank g _ m
             (set_query_terms (fold_text <$> findall_word (strip query_input)) a)).
  - destruct (embeddings_present a); [|done].
    destruct (negb (FASTEMBED_AVAILABLE g) || negb (GLOBAL_EMBED_MODEL g)); [done|].
    destruct (embeddings_search _ _) as [ranking|]; [|done]. cbn.
    apply (publish_set_rerank g _ m
             (set_query_terms (fold_text <$> findall_word (strip query_input)) a)).
Qed.

(** X7. A simple text search and an embeddings search never raise,
    whatever the corpus and the query; and when every stored result
    named a chunk of the corpus before the call, with the index on a
    stored result, the same holds after it. *)
Theorem search_outside_bm25_never_raises g query_input a :
  search_method_combo a ≠ BM25 → results_valid g a →
  ∃ a', search g query_input a = Some a' ∧ results_valid g a'.
Proof.
  intros Hm Hvalid. unfold search.
  case_bool_decide as Hc; [by eexists|]. case_bool_decide as Hq; [by eexists|].
  cbn [search_method_combo rerank_combo embeddings_present set_query_terms query_terms].
  destruct (search_method_combo a) eqn:Hmethod; [done| |].
  - apply publish_valid, simple_text_search_in_range.
  - destruct (embeddings_present a); [|by eexists].
    destruct (negb (FASTEMBED_AVAILABLE g) || negb (GLOBAL_EMBED_MODEL g));
      [by eexists|].
    destruct (embeddings_search_in_range (GLOBAL_CORPUS g) (strip query_input))
      as (ranking & -> & Hall). cbn. by apply publish_valid.
Qed.
End SearchWhole.

(** ** The fallback of the embeddings search, and the call after it *)
Section FallbackThenBM25.
Context `{Unicode, Numeric, BM25Lib, Embedder}.

(** C3, amended. For every non-empty query, when the embeddings
    search is requested and no chunk of the corpus carries an
    embedding, the search call reports the fallback notice, switches
    the selected search method to BM25 and returns without computing
    a ranking: the stored ranking and the current index are the ones
    from before the call. A further search call with the same query
    is then a BM25 search. With no BM25 model it reports that none is
    available and stores nothing. With a model, whatever it stores is
    the BM25 ranking of that query on that corpus after the reranker
    that is selected in the rerank box; with no reranking selected
    and a BM25 ranking that names chunks of the corpus, it returns
    and stores exactly that ranking, with the index on its first
    entry. *)
Theorem embeddings_search_fallback g query_input a :
  GLOBAL_CORPUS g ≠ [] → strip query_input ≠ [] →
  search_method_combo a = EmbeddingsSearch →
  any_embedding (GLOBAL_CORPUS g) = false →
  embeddings_present a = any_embedding (GLOBAL_CORPUS g) →
  ∃ a', search g query_input a = Some a'
    ∧ result_display a' = NoEmbFilesReverting
    ∧ search_method_combo a' = BM25
    ∧ results a' = results a
    ∧ current_result_index a' = current_result_index a
    ∧ results <$> search g query_input a'
      = results <$> search g query_input (set_search_method BM25 a)
    ∧ (GLOBAL_BM25_MODEL g = None →
       ∃ a'', search g query_input a' = Some a''
              ∧ result_display a'' = NoBM25Model
              ∧ results a'' = results a)
    ∧ (∀ model ranking,
         GLOBAL_BM25_MODEL g = Some model →
         bm25_search (GLOBAL_CORPUS g) model (strip query_input) = Some ranking →
         (∀ a'', search g query_input a' = Some a'' →
            rerank g (rerank_combo a) ranking
              (fold_text <$> findall_word (strip query_input)) (strip query_input)
            = Some (results a''))
         ∧ (rerank_combo a = NoReranking →
            Forall (λ c, c.1 < length (GLOBAL_CORPUS g)) ranking →
            ∃ a'', search g query_input a' = Some a''
                   ∧ results a'' = ranking
                   ∧ current_result_index a'' = 0)).
Proof.
  intros Hc Hq Hm Hnone Hpres. rewrite Hnone in Hpres.
  set (qt := fold_text <$> findall_word (strip query_input)).
  exists (set_search_method BM25 (set_display NoEmbFilesReverting
            (set_query_terms qt a))).
  split.
  { unfold search. rewrite !bool_decide_eq_false_2 by done.
    cbn [search_method_combo rerank_combo embeddings_present set_query_terms].
    by rewrite Hm, Hpres. }
  do 4 (split; [done|]). split; [by apply search_results_indep|].
  split.
  - intros Hmodel. eexists. split.
    + unfold search. rewrite !bool_decide_eq_false_2 by done.
      cbn [search_method_combo set_search_method]. by rewrite Hmodel.
    + done.
  - intros model ranking Hmodel Hbm25.
    assert (∀ a0, search_method_combo a0 = BM25 →
              search g query_input a0
              = (final_ranking ← rerank g (rerank_combo a0) ranking qt
                                    (strip query_input);
                 publish g final_ranking (set_query_terms qt a0))) as Hsearch.
    { intros a0 Ha0. rewrite (search_bm25_unfold g query_input a0 model) by done.
      by rewrite Hbm25. }
    rewrite Hsearch by done.
    cbn [rerank_combo set_search_method set_display set_query_terms]. split.
    + intros a'' Hs. apply bind_Some in Hs as (final & Hr & Hp).
      apply publish_Some in Hp as ->. done.
    + intros Hno Hin. rewrite Hno. cbn [rerank mbind option_bind].
      destruct (publish_valid g ranking
                  (set_query_terms qt
                     (set_search_method BM25
                        (set_display NoEmbFilesReverting (set_query_terms qt a)))) Hin)
        as (a'' & Hp & _).
      exists a''. split; [done|]. apply publish_Some in Hp as ->. done.
Qed.
End FallbackThenBM25.

Section SearchTwice.
Context `{Unicode, Numeric, BM25Lib, Embedder}.

Lemma publish_again g ranking a a' :
  publish g ranking a = Some a' → publish g ranking a' = Some a'.
Proof.
  intros Hp. pose proof (publish_Some g ranking a a' Hp) as ->.
  unfold publish in *. destruct ranking as [|[doc_id score] ranking]; [done|].
  unfold show_current_chunk in *. cbn in *.
  by destruct (GLOBAL_CORPUS g !! doc_id).
Qed.

(** X8. Searching twice is searching once: a second search with the
    same query, started from the state the first one left, returns
    that state unchanged, unless the first one fell back from the
    embeddings search to BM25 and so changed the selected method. *)
Theorem search_idempotent g query_input a a' :
  search g query_input a = Some a' →
  search_method_combo a' = search_method_combo a →
  search g query_input a' = Some a'.
Proof.
  unfold search.
  case_bool_decide as Hc; [by intros [= <-]|].
  case_bool_decide as Hq; [by intros [= <-]|].
  cbn [search_method_combo rerank_combo embeddings_present set_query_terms query_terms].
  destruct (search_method_combo a) eqn:Hm.
  - destruct (GLOBAL_BM25_MODEL g) as [model|] eqn:Hmodel.
    2:{ intros [= <-] _. cbn. by rewrite Hm. }
    destruct (bm25_search _ _ _) as [truncated|]; [|done]. cbn [mbind option_bind].
    destruct (rerank g (rerank_combo a) _ _ _) as [final|] eqn:Hr; [|done].
    cbn [mbind option_bind]. intros Hp _.
    pose proof (publish_Some _ _ _ _ Hp) as Ha'.
    assert (rerank_combo a' = rerank_combo a) as -> by (by rewrite Ha').
    assert (search_method_combo a' = BM25) as -> by (by rewrite Ha').
    rewrite Hr. cbn [mbind option_bind].
    assert (set_query_terms (fold_text <$> findall_word (strip query_input)) a' = a')
      as -> by (by rewrite Ha').
    by eapply publish_again.
  - intros Hp _. pose proof (publish_Some _ _ _ _ Hp) as Ha'.
    assert (search_method_combo a' = SimpleTextSearch) as -> by (by rewrite Ha').
    assert (set_query_terms (fold_text <$> findall_word (strip query_input)) a' = a')
      as -> by (by rewrite Ha').
    by eapply publish_again.
  - destruct (embeddings_present a) eqn:He; cbn [negb].
    2:{ intros [= <-]. by cbn. }
    destruct (negb (FASTEMBED_AVAILABLE g) || negb (GLOBAL_EMBED_MODEL g)) eqn:Hf.
    { intros [= <-]. by cbn. }
    destruct (embeddings_search _ _) as [ranking|]; [|done].
    cbn [mbind option_bind]. intros Hp _.
    pose proof (publish_Some _ _ _ _ Hp) as Ha'.
    assert (search_method_combo a' = EmbeddingsSearch) as -> by (by rewrite Ha').
    assert (embeddings_present a' = true) as -> by (by rewrite Ha').
    cbn [negb].
    assert (set_query_terms (fold_text <$> findall_word (strip query_input)) a' = a')
      as -> by (by rewrite Ha').
    by eapply publish_again.
Qed.
End SearchTwice.

(** ** The rerankers *)
Section Rerankers.
Context `{Unicode, Numeric, BM25Lib, Embedder}.

Lemma exact_loop_perm corpus query_norm top acc acc' :
  exact_loop corpus query_norm top acc = Some acc' →
  acc'.1 ++ acc'.2 ≡ₚ acc.1 ++ acc.2 ++ top.
Proof.
  revert acc. induction top as [|c top IH]; intros acc; simpl.
  - intros [= <-]. by rewrite app_nil_r.
  - intros Hl. apply bind_Some in Hl as (acc1 & Hstep & Hl).
    apply IH in Hl. rewrite Hl. unfold exact_step in Hstep.
    apply bind_Some in Hstep as (t & _ & Hstep).
    destruct (contains _ _); simplify_eq; simpl.
    + rewrite <- !app_assoc. apply Permutation_app_head.
      rewrite (app_assoc [c]), (Permutation_app_comm [c] acc.2).
      by rewrite <- app_assoc.
    + rewrite <- !app_assoc. done.
Qed.

Lemma span_scores_ids corpus (top_docs doc_scores : list (nat * Q)) query_terms :
  mapM (λ c : nat * Q,
          text ← text_at corpus c.1;
          ms_score ← minimal_span_score text query_terms;
          Some (c.1, ms_score)) top_docs = Some doc_scores →
  doc_scores.*1 = top_docs.*1.
Proof.
  revert doc_scores. induction top_docs as [|c top_docs IH]; intros doc_scores.
  - by intros [= <-].
  - cbn. intros Hm. apply bind_Some in Hm as (s & Hs & Hm).
    apply bind_Some in Hm as (rest & Hrest & [= <-]).
    apply bind_Some in Hs as (t & _ & Hs).
    apply bind_Some in Hs as (ms & _ & [= <-]).
    cbn. f_equal. by apply IH.
Qed.

Lemma zip_with_ids (top_docs : list (nat * Q)) (scores : list Q) :
  (zip_with (λ (c : nat * Q) embed_score, (c.1, embed_score)) top_docs scores).*1
  = take (length scores) top_docs.*1.
Proof.
  revert scores. induction top_docs as [|c top_docs IH]; intros [|s scores]; cbn;
    try done.
  by rewrite IH.
Qed.

(** The chunk ids a reranker returns, in general: the encoder of the
    embeddings rerank may give fewer scores than documents, and [zip]
    then drops the candidates past the last score. *)
Lemma rerank_ids g method l qt q l' :
  rerank g method l qt q = Some l' →
  l'.*1 ≡ₚ l.*1
  ∨ (method = EmbeddingsRerank
     ∧ ∃ documents, mapM (λ c : nat * Q, text_at (GLOBAL_CORPUS g) c.1) l
                    = Some documents
       ∧ l'.*1 ≡ₚ take (length (cross_encoder_rerank q documents)) l.*1).
Proof.
  destruct method; simpl.
  - intros [= ->]. by left.
  - unfold rerank_minimal_span. intros Hr.
    apply bind_Some in Hr as (doc_scores & Hl%span_scores_ids & [= <-]).
    left. rewrite <- Hl. apply fmap_Permutation, sort_desc_perm.
  - unfold rerank_exact_text. intros Hr.
    apply bind_Some in Hr as (acc & Hacc%exact_loop_perm & [= <-]).
    left. by apply fmap_Permutation.
  - destruct (FASTEMBED_AVAILABLE g); [|intros [= ->]; by left].
    unfold rerank_with_embeddings. intros Hr.
    apply bind_Some in Hr as (documents & Hdocs & [= <-]).
    right. split; [done|]. exists documents. split; [done|].
    rewrite <- zip_with_ids. apply fmap_Permutation, sort_desc_perm.
Qed.

(** X9. A reranker returns the candidates it was given, each chunk id
    as often as it came in: no reranking, the span rerank and the
    exact text rerank always, the embeddings rerank when the encoder
    gives one score per document. *)
Theorem rerank_keeps_candidates g method l qt q l' :
  rerank g method l qt q = Some l' →
  (method = EmbeddingsRerank →
   ∀ documents, length (cross_encoder_rerank q documents) = length documents) →
  l'.*1 ≡ₚ l.*1.
Proof.
  intros Hr Henc.
  destruct (rerank_ids g method l qt q l' Hr)
    as [Hperm|(Hm & documents & Hdocs & Hperm)]; [done|].
  rewrite Hperm, (Henc Hm), <- (length_mapM _ _ _ Hdocs).
  apply reflexive_eq, take_ge. by rewrite length_fmap.
Qed.

Lemma text_at_is_Some corpus doc_id :
  (∀ d, d ∈ corpus → is_Some (text d)) → doc_id < length corpus →
  is_Some (text_at corpus doc_id).
Proof.
  intros Htext Hin. destruct (lookup_lt_is_Some_2 _ _ Hin) as [d Hd].
  unfold text_at. rewrite Hd. cbn. apply Htext. by eapply list_elem_of_lookup_2.
Qed.

(** On candidates that name chunks with a text no reranker raises. *)
Lemma rerank_total g method l qt q :
  Forall (λ c : nat * Q, is_Some (text_at (GLOBAL_CORPUS g) c.1)) l →
  is_Some (rerank g method l qt q).
Proof.
  intros Htext. destruct method; simpl.
  - done.
  - unfold rerank_minimal_span.
    by destruct (span_scores_total _ _ qt Htext) as (doc_scores & -> & _).
  - unfold rerank_exact_text. rewrite exact_loop_filter; [done|].
    rewrite Forall_forall in Htext. done.
  - destruct (FASTEMBED_AVAILABLE g); [|done].
    unfold rerank_with_embeddings.
    assert (is_Some (mapM (λ c : nat * Q, text_at (GLOBAL_CORPUS g) c.1) l))
      as [documents ->]; [|done].
    apply mapM_is_Some. done.
Qed.

Lemma in_range_take_sort corpus_len (rows : list (nat * Q)) :
  Forall (λ c, c.1 < corpus_len) rows →
  Forall (λ c, c.1 < corpus_len) (take MAX_SEARCH_RESULTS (sort_desc snd rows)).
Proof.
  intros Hall. apply Forall_take. by rewrite sort_desc_perm.
Qed.

(** X10. A BM25 search does not raise when the library answers with
    rows that name chunks of the corpus and, if a reranker is
    selected, every chunk of the corpus has a text; the ranking it
    stores then names chunks of the corpus, with the index on a
    stored result. *)
Theorem search_bm25_never_raises g query_input a model rows :
  search_method_combo a = BM25 → GLOBAL_BM25_MODEL g = Some model →
  retrieve model (tokenize (strip query_input)) (length (GLOBAL_CORPUS g))
  = Some rows →
  Forall (λ c, c.1 < length (GLOBAL_CORPUS g)) rows →
  (rerank_combo a ≠ NoReranking →
   ∀ d, d ∈ GLOBAL_CORPUS g → is_Some (text d)) →
  results_valid g a →
  ∃ a', search g query_input a = Some a' ∧ results_valid g a'.
Proof.
  intros Hm Hmodel Hrows Hin Htext Hvalid. unfold search.
  case_bool_decide as Hc; [by eexists|]. case_bool_decide as Hq; [by eexists|].
  cbn [search_method_combo rerank_combo embeddings_present set_query_terms query_terms].
  rewrite Hm, Hmodel, (bm25_search_eq _ _ _ _ Hrows). cbn -[MAX_SEARCH_RESULTS].
  set (truncated := take MAX_SEARCH_RESULTS (sort_desc snd rows)).
  pose proof (in_range_take_sort _ rows Hin) as Htrunc. fold truncated in Htrunc.
  assert (∃ final,
            rerank g (rerank_combo a) truncated
              (fold_text <$> findall_word (strip query_input)) (strip query_input)
            = Some final
            ∧ Forall (λ c, c.1 < length (GLOBAL_CORPUS g)) final)
    as (final & -> & Hfinal).
  { assert (rerank_combo a = NoReranking ∨ rerank_combo a ≠ NoReranking)
      as [->|Hr] by (destruct (rerank_combo a); first [by left|by right]).
    { by exists truncated. }
    destruct (rerank_total g (rerank_combo a) truncated
                (fold_text <$> findall_word (strip query_input)) (strip query_input))
      as [final Hfin].
    { eapply Forall_impl; [exact Htrunc|]. intros c Hc'.
      apply text_at_is_Some; [by apply Htext|done]. }
    exists final. split; [done|].
    rewrite Forall_forall in Htrunc. apply Forall_forall. intros c' Hc'.
    assert (c'.1 ∈ truncated.*1) as Hid.
    { destruct (rerank_ids _ _ _ _ _ _ Hfin) as [Hp|(_ & documents & _ & Hp)].
      - rewrite <- Hp. by apply list_elem_of_fmap_2.
      - eapply subseteq_take. rewrite <- Hp. by apply list_elem_of_fmap_2. }
    apply list_elem_of_fmap in Hid as (c & -> & Hc0). by apply Htrunc. }
  cbn. by apply publish_valid.
Qed.

(** X11. The embeddings rerank raises exactly when a candidate names
    no chunk with a text. Otherwise it pairs the candidates, in
    order, with the scores the encoder gives for their texts, as far
    as both lists go, and sorts the pairs descending by score; pairs
    of equal score keep the order the candidates came in. *)
Theorem rerank_with_embeddings_sorted_stable corpus top_docs query_phrase :
  (is_Some (rerank_with_embeddings corpus top_docs query_phrase)
   ↔ Forall (λ c : nat * Q, is_Some (text_at corpus c.1)) top_docs)
  ∧ ∀ ranking,
      rerank_with_embeddings corpus top_docs query_phrase = Some ranking →
      ∃ documents,
        Forall2 (λ (c : nat * Q) t, text_at corpus c.1 = Some t) top_docs documents
        ∧ let scored :=
            zip top_docs.*1 (cross_encoder_rerank query_phrase documents) in
          ranking ≡ₚ scored
          ∧ StronglySorted (λ x y, (y.2 <= x.2)%Q) ranking
          ∧ ∀ v, filter (λ x, Qeq_bool x.2 v = true) ranking
                 = filter (λ x, Qeq_bool x.2 v = true) scored.
Proof.
  assert (∀ scores : list Q,
            zip_with (λ (c : nat * Q) embed_score, (c.1, embed_score)) top_docs scores
            = zip top_docs.*1 scores) as Hzip.
  { induction top_docs as [|c top_docs IH]; intros [|s scores]; cbn; try done.
    by rewrite IH. }
  unfold rerank_with_embeddings. split.
  - rewrite <- (mapM_is_Some (λ c : nat * Q, text_at corpus c.1)). split.
    + intros [ranking Hr]. apply bind_Some in Hr as (documents & -> & _). done.
    + intros [documents ->]. done.
  - intros ranking Hr. apply bind_Some in Hr as (documents & Hdocs & [= <-]).
    exists documents. split; [by apply mapM_Some|]. rewrite Hzip. cbn.
    split; [apply sort_desc_perm|]. split; [apply sort_desc_sorted|].
    intros v. apply sort_desc_stable.
Qed.
End Rerankers.

(** ** The span score in general *)
Section SpanScore.
Context `{Unicode}.

Lemma shrink_best_span_pos fuel n all_positions st st' :
  1 ≤ best_span st → shrink fuel n all_positions st = Some st' →
  1 ≤ best_span st'.
Proof.
  revert st. induction fuel as [|fuel IH]; intros st Hpos; simpl.
  - case_bool_decide; [done|]. by intros [= <-].
  - case_bool_decide; [|by intros [= <-]].
    intros Hs. apply bind_Some in Hs as ([pos_left term_left] & _ & Hs).
    apply IH in Hs; [done|]. cbn -[Nat.ltb].
    destruct (_ <? _); lia.
Qed.

Lemma scan_best_span_pos n all_positions todo st st' :
  1 ≤ best_span st → scan n all_positions todo st = Some st' →
  1 ≤ best_span st'.
Proof.
  revert st. induction todo as [|[p t] todo IH]; intros st Hpos.
  - by intros [= <-].
  - cbn [scan]. intros Hs. apply bind_Some in Hs as (st1 & Hstep & Hs).
    apply (IH st1); [|done]. unfold scan_step in Hstep.
    by apply shrink_best_span_pos in Hstep.
Qed.

Lemma span_to_score_le_half b : 1 ≤ b → (span_to_score b <= 1 # 2)%Q.
Proof.
  intros Hb. unfold span_to_score, Qle. simpl. lia.
Qed.

(** X12. The span score is defined for every text and every list of
    query terms, and lies between 0 and 1/2; it is 0 exactly when
    some folded term is not a word of the folded text. *)
Theorem minimal_span_score_range text query_terms :
  ∃ s, minimal_span_score text query_terms = Some s
    ∧ (0 <= s)%Q ∧ (s <= 1 # 2)%Q
    ∧ ((s == 0)%Q ↔
       ∃ t, t ∈ fold_text <$> query_terms ∧ t ∉ split (fold_text text)).
Proof.
  destruct (minimal_span_score_total text query_terms) as [s Hs].
  exists s. split; [done|]. unfold minimal_span_score in Hs.
  destruct (existsb _ _) eqn:Habsent.
  - injection Hs as <-. split; [done|]. split; [done|]. split; [|done].
    intros _. by apply absent_test.
  - apply bind_Some in Hs as (st & Hscan & [= <-]).
    apply scan_best_span_pos in Hscan; [|simpl; lia].
    split; [done|]. split; [by apply span_to_score_le_half|]. split.
    + intros Hz. pose proof (span_to_score_pos (best_span st)) as Hpos.
      rewrite Hz in Hpos. by apply Qlt_irrefl in Hpos.
    + intros Hex%absent_test. congruence.
Qed.

(** X13. For a non-empty list of query terms that are pairwise
    different once folded, and a text that holds them all: when [w]
    is the least distance between the first and the last word of a
    window of the text's words that holds every term, the span score
    is [1 / (w + 2)]. *)
Theorem minimal_span_score_by_width text query_terms w :
  let words := split (fold_text text) in
  let terms := fold_text <$> query_terms in
  terms ≠ [] → NoDup terms → narrowest words terms w →
  minimal_span_score text query_terms = Some (1 # Pos.of_nat (w + 2)).
Proof.
  intros words terms Hne Hnd [(a0 & b0 & Hab0 & Hc0 & Hw) Hmin].
  destruct (minimal_span_score_correct text query_terms Hne Hnd) as [_ Hsome].
  destruct Hsome as (a & b & Hab & Hc & Hleast & ->).
  { intros t Ht. destruct (Hc0 t Ht) as (p & _ & Hp).
    by eapply list_elem_of_lookup_2. }
  pose proof (Hmin a b Hc). pose proof (Hleast a0 b0 Hc0).
  f_equal. unfold span_to_score. f_equal.
  rewrite Pos.of_nat_succ. f_equal. lia.
Qed.

(** X14. With no query term at all, or with a term that occurs twice
    in the list once folded, the span score of a text that holds
    every term does not depend on where the terms stand: it is
    [1 / (n + 2)] for the number [n] of words of the folded text. *)
Theorem minimal_span_score_degenerate text query_terms :
  let words := split (fold_text text) in
  let terms := fold_text <$> query_terms in
  terms = [] ∨ ¬ NoDup terms → (∀ t, t ∈ terms → t ∈ words) →
  minimal_span_score text query_terms
  = Some (1 # Pos.of_nat (length words + 2)).
Proof.
  intros words terms Hdeg Hpresent.
  assert (Some (1 # Pos.of_nat (length words + 2))
          = Some (span_to_score (length words + 1))) as ->.
  { f_equal. unfold span_to_score. f_equal.
    rewrite Pos.of_nat_succ. f_equal. lia. }
  destruct Hdeg as [Hnil|Hnd].
  - unfold minimal_span_score. fold words. fold terms. by rewrite Hnil.
  - by apply minimal_span_score_repeated.
Qed.

(** X15. The span rerank raises exactly when a candidate names no
    chunk with a text. Otherwise it gives each candidate its span
    score and sorts the candidates descending by that score;
    candidates of one score keep the order they came in. *)
Theorem rerank_minimal_span_by_score corpus top_docs query_terms :
  (is_Some (rerank_minimal_span corpus top_docs query_terms)
   ↔ Forall (λ c : nat * Q, is_Some (text_at corpus c.1)) top_docs)
  ∧ ∀ ranking,
      rerank_minimal_span corpus top_docs query_terms = Some ranking →
      ∃ doc_scores,
        Forall2 (λ (c s : nat * Q),
                   s.1 = c.1
                   ∧ ∃ t, text_at corpus c.1 = Some t
                          ∧ minimal_span_score t query_terms = Some s.2)
                top_docs doc_scores
        ∧ ranking ≡ₚ doc_scores
        ∧ StronglySorted (λ x y, (y.2 <= x.2)%Q) ranking
        ∧ ∀ v, filter (λ x, Qeq_bool x.2 v = true) ranking
               = filter (λ x, Qeq_bool x.2 v = true) doc_scores.
Proof.
  assert (is_Some (rerank_minimal_span corpus top_docs query_terms)
          → Forall (λ c : nat * Q, is_Some (text_at corpus c.1)) top_docs) as Hraise.
  { unfold rerank_minimal_span. intros [ranking Hr].
    apply bind_Some in Hr as (doc_scores & Hm & _).
    apply mapM_Some_1 in Hm. apply Forall_forall. intros c Hc.
    apply list_elem_of_lookup in Hc as [i Hi].
    destruct (Forall2_lookup_l _ _ _ _ _ Hm Hi) as (s & _ & Hs).
    apply bind_Some in Hs as (t & -> & _). done. }
  split.
  - split; [done|]. intros Htext.
    by destruct (span_scores_total corpus top_docs query_terms Htext)
      as (doc_scores & Hm & _); unfold rerank_minimal_span; rewrite Hm.
  - intros ranking Hr.
    destruct (span_scores_total corpus top_docs query_terms)
      as (doc_scores & Hm & Hall); [apply Hraise; by rewrite Hr|].
    exists doc_scores. unfold rerank_minimal_span in Hr. rewrite Hm in Hr.
    injection Hr as <-. split; [done|]. split; [apply sort_desc_perm|].
    split; [apply sort_desc_sorted|]. intros v. apply sort_desc_stable.
Qed.
End SpanScore.

(** ** The parser on a written query *)
Section WrittenQuery.
Context `{Unicode}.

Lemma span_while_app p a b :
  Forall (λ c, p c = true) a →
  (match b with [] => True | c :: _ => p c = false end) →
  span_while p (a ++ b) = (a, b).
Proof.
  intros Ha Hb. induction Ha as [|c a Hc Ha IH]; simpl.
  - destruct b as [|c b]; [done|]. simpl. by rewrite Hb.
  - by rewrite Hc, IH.
Qed.

Lemma match_phrase_written p rest :
  p ≠ [] → quote ∉ p →
  match_phrase (quote :: p ++ quote :: rest) = Some (p, rest).
Proof.
  intros Hne Hq. unfold match_phrase. rewrite bool_decide_eq_true_2 by done.
  rewrite span_while_app.
  - by destruct p.
  - apply Forall_forall. intros c Hc. apply negb_true_iff, bool_decide_eq_false.
    by intros ->.
  - by rewrite bool_decide_eq_true_2.
Qed.

Lemma match_word_written w rest :
  w ≠ [] → Forall (λ c, isspace c = false) w →
  (match rest with [] => True | c :: _ => isspace c = true end) →
  match_word (w ++ rest) = Some (w, rest).
Proof.
  intros Hne Hw Hrest. unfold match_word. rewrite span_while_app.
  - by destruct w.
  - eapply Forall_impl; [exact Hw|]. intros c Hc. by rewrite Hc.
  - destruct rest as [|c rest]; [done|]. by rewrite Hrest.
Qed.

Lemma findall_phrase_word_written sp items fuel :
  isspace sp = true → sp ≠ quote → Forall item_ok items →
  length (write_query sp items) ≤ fuel →
  findall_phrase_word fuel (write_query sp items) = match_of <$> items.
Proof.
  intros Hsp Hnq Hok. revert fuel.
  induction Hok as [|it items Hit Hok IH]; intros fuel Hfuel.
  { by destruct fuel. }
  cbn [write_query] in *.
  set (tail := if items is [] then [] else sp :: write_query sp items) in *.
  assert (match tail with [] => True | c :: _ => isspace c = true end) as Htail
    by (unfold tail; by destruct items).
  assert (∀ f, length tail ≤ f →
            findall_phrase_word f tail = match_of <$> items) as Hrest.
  { intros f Hf. unfold tail in *. destruct items as [|it' items'] eqn:Hitems.
    { by destruct f. }
    destruct f as [|f]; [cbn [length] in Hf; lia|].
    rewrite findall_phrase_word_cons.
    assert (match_phrase (sp :: write_query sp (it' :: items')) = None) as ->.
    { unfold match_phrase. by rewrite bool_decide_eq_false_2. }
    assert (match_word (sp :: write_query sp (it' :: items')) = None) as ->.
    { unfold match_word. cbn [span_while]. by rewrite Hsp. }
    apply IH. cbn [length] in Hf. lia. }
  clearbody tail. rewrite length_app in Hfuel.
  destruct it as [p|w]; cbn [write_item match_of fmap list_fmap] in *.
  - destruct Hit as [Hne Hq].
    destruct fuel as [|fuel]; [simpl in Hfuel; lia|].
    replace ((quote :: p ++ [quote]) ++ tail) with (quote :: p ++ quote :: tail)
      by (cbn [app]; by rewrite <- app_assoc).
    rewrite findall_phrase_word_cons, match_phrase_written by done.
    f_equal. apply Hrest. simpl in Hfuel. rewrite length_app in Hfuel.
    simpl in Hfuel. lia.
  - destruct Hit as (Hne & Hq & Hw).
    destruct w as [|c w]; [done|]. cbn [app length] in *.
    destruct fuel as [|fuel]; [lia|].
    rewrite findall_phrase_word_cons.
    assert (match_phrase (c :: w ++ tail) = None) as ->.
    { unfold match_phrase. rewrite bool_decide_eq_false_2; [done|].
      intros ->. apply Hq. left. }
    change (c :: w ++ tail) with ((c :: w) ++ tail).
    rewrite match_word_written by done.
    f_equal. apply Hrest. lia.
Qed.

Lemma parse_written sp items :
  isspace sp = true → sp ≠ quote → Forall item_ok items →
  parse_simple_search_query (write_query sp items)
  = (phrases_of items, words_of items).
Proof.
  intros Hsp Hnq Hok. unfold parse_simple_search_query.
  rewrite parse_loop, (findall_phrase_word_written sp) by done.
  cbn [fst snd app]. unfold phrases_of, words_of.
  induction Hok as [|it items Hit Hok IH]; [done|].
  cbn [fmap list_fmap omap list_omap]. rewrite !filter_cons.
  injection IH as IH1 IH2.
  destruct it as [p|w]; cbn [match_of fst snd] in *.
  - destruct Hit as [Hne _]. rewrite decide_True by done.
    rewrite decide_False by (by intros [? _]).
    cbn. by rewrite IH1, IH2.
  - destruct Hit as (Hne & _). rewrite decide_False by (intros Hn; by apply Hn).
    rewrite decide_True by done.
    cbn. by rewrite IH1, IH2.
Qed.

Lemma elem_of_phrases_words items x :
  x ∈ phrases_of items ∨ x ∈ words_of items ↔ ∃ it, it ∈ items ∧ item_text it = x.
Proof.
  unfold phrases_of, words_of. rewrite !list_elem_of_omap. split.
  - intros [(it & Hit & Hx)|(it & Hit & Hx)]; exists it;
      destruct it; simplify_eq; done.
  - intros ([p|w] & Hit & <-); [left|right]; eexists; split; done.
Qed.

(** X16. The parser reads back a written query. When phrases that
    hold no double quote and words that hold neither white space nor
    a double quote are written one after the other, each phrase
    between two double quotes, with one white-space character between
    neighbours, [parse_simple_search_query] returns exactly these
    phrases and exactly these words, each list in the order written;
    a word that is written twice is returned twice. *)
Theorem parse_written_query sp items :
  isspace sp = true → sp ≠ quote → Forall item_ok items →
  parse_simple_search_query (write_query sp items)
  = (phrases_of items, words_of items)
  ∧ length (parse_simple_search_query (write_query sp items)).1
    + length (parse_simple_search_query (write_query sp items)).2
    = length items.
Proof.
  intros Hsp Hnq Hok. rewrite parse_written by done. split; [done|].
  cbn [fst snd]. unfold phrases_of, words_of. clear Hok.
  induction items as [|[p|w] items IH]; cbn in *; lia.
Qed.

(** X17. The simple text search on a written query finds the chunks
    that hold every item: a chunk id is in the result, with score 1,
    iff the folded text of that chunk contains the folded characters
    of every phrase and of every word as a substring. Quoting changes
    what is one item, and nothing else: a word, too, is found inside
    a longer word. *)
Theorem simple_text_search_written_query corpus sp items doc_id score :
  isspace sp = true → sp ≠ quote → Forall item_ok items →
  (doc_id, score) ∈ simple_text_search corpus (write_query sp items)
  ↔ score = 1%Q
    ∧ ∃ d, corpus !! doc_id = Some d
           ∧ ∀ it, it ∈ items →
               substring (fold_text (item_text it)) (folded_text d).
Proof.
  intros Hsp Hnq Hok.
  rewrite simple_text_search_filter, parse_written by done. cbn [fst snd].
  assert (∀ d, chunk_matches (phrases_of items) (words_of items) d = true
               ↔ ∀ it, it ∈ items →
                   substring (fold_text (item_text it)) (folded_text d)) as Hm.
  { intros d. rewrite chunk_matches_spec. split.
    - intros [Hp Hw] it Hit.
      destruct (proj2 (elem_of_phrases_words items (item_text it)))
        as [Hin|Hin]; [by exists it|by apply Hp|by apply Hw].
    - intros Hall. split; intros x Hx.
      + destruct (proj1 (elem_of_phrases_words items x)) as (it & Hit & <-);
          [by left|by apply Hall].
      + destruct (proj1 (elem_of_phrases_words items x)) as (it & Hit & <-);
          [by right|by apply Hall]. }
  rewrite list_elem_of_fmap. split.
  - intros (i & [= -> ->] & Hi). split; [done|].
    apply list_elem_of_fmap in Hi as ([j d] & -> & Hjd).
    apply list_elem_of_filter in Hjd as [Hmatch Hjd].
    apply elem_of_enumerate in Hjd. exists d. split; [done|]. by apply Hm.
  - intros (-> & d & Hd & Hall). exists doc_id. split; [done|].
    apply list_elem_of_fmap. exists (doc_id, d). split; [done|].
    apply list_elem_of_filter. split; [by apply Hm|by apply elem_of_enumerate].
Qed.
End WrittenQuery.

(** ** The parser on every query *)
Section ReadQuery.
Context `{Unicode}.

(** [match_phrase] succeeds exactly where a quoted phrase opens. *)
Lemma match_phrase_None s : ¬ opens_phrase s → match_phrase s = None.
Proof.
  intros Hno. destruct (match_phrase s) as [[p rest]|] eqn:Hm; [|done].
  apply match_phrase_spec in Hm as (Hs & Hne & Hq).
  destruct Hno. by exists p, rest.
Qed.

Lemma match_phrase_opens s : match_phrase s = None → ¬ opens_phrase s.
Proof.
  intros Hm (p & rest & Hne & Hq & ->).
  by rewrite match_phrase_written in Hm.
Qed.

Lemma match_word_next s word rest :
  match_word s = Some (word, rest) →
  match rest with [] => True | c :: _ => isspace c = true end.
Proof.
  unfold match_word.
  destruct (span_while_spec (λ c, negb (isspace c)) s) as (_ & _ & Hnext).
  destruct (span_while _ s) as [[|c a] b]; [done|].
  intros [= <- <-]. simpl in Hnext. destruct b as [|c' b]; [done|].
  by apply negb_false_iff in Hnext.
Qed.

Lemma match_word_None c s : match_word (c :: s) = None → isspace c = true.
Proof.
  unfold match_word. cbn [span_while].
  destruct (isspace c); [done|]. cbn [negb].
  by destruct (span_while _ s).
Qed.

(** The scan of the pattern finds the items of a reading, one match
    for each, in order. *)
Lemma reads_findall s items :
  reads s items →
  ∀ fuel, length s ≤ fuel → findall_phrase_word fuel s = match_of <$> items.
Proof.
  induction 1 as [|p rest items Hne Hq Hr IH|w rest items Hno Hne Hw Hnext Hr IH
                  |c rest items Hno Hc Hr IH]; intros fuel Hfuel.
  - by destruct fuel.
  - destruct fuel as [|fuel]; [simpl in Hfuel; lia|].
    rewrite findall_phrase_word_cons, match_phrase_written by done.
    cbn [fmap list_fmap match_of]. f_equal. apply IH.
    simpl in Hfuel. rewrite length_app in Hfuel. simpl in Hfuel. lia.
  - apply match_phrase_None in Hno.
    destruct w as [|c w]; [done|]. cbn [app] in *.
    destruct fuel as [|fuel]; [simpl in Hfuel; lia|].
    rewrite findall_phrase_word_cons, Hno.
    change (c :: w ++ rest) with ((c :: w) ++ rest).
    rewrite match_word_written by done.
    cbn [fmap list_fmap match_of]. f_equal. apply IH.
    simpl in Hfuel. rewrite length_app in Hfuel. lia.
  - apply match_phrase_None in Hno.
    destruct fuel as [|fuel]; [simpl in Hfuel; lia|].
    rewrite findall_phrase_word_cons, Hno.
    assert (match_word (c :: rest) = None) as ->.
    { unfold match_word. cbn [span_while]. by rewrite Hc. }
    apply IH. simpl in Hfuel. lia.
Qed.

(** What the scan finds is a reading: every query has one. *)
Lemma findall_reads fuel s :
  length s ≤ fuel → reads s (item_of <$> findall_phrase_word fuel s).
Proof.
  revert s. induction fuel as [|fuel IH]; intros [|c s] Hlen;
    try (simpl in Hlen; lia); try (by constructor).
  rewrite findall_phrase_word_cons.
  destruct (match_phrase (c :: s)) as [[phrase rest]|] eqn:Hp;
    [|destruct (match_word (c :: s)) as [[word rest]|] eqn:Hw].
  - apply match_phrase_spec in Hp as (Hs & Hne & Hq). rewrite Hs.
    cbn [fmap list_fmap].
    assert (item_of (phrase, []) = Phrase phrase) as -> by (by destruct phrase).
    constructor; [done|done|]. apply IH.
    apply (f_equal length) in Hs. simpl in Hs, Hlen.
    rewrite length_app in Hs. simpl in Hs. lia.
  - pose proof (match_word_next _ _ _ Hw) as Hnext.
    apply match_phrase_opens in Hp.
    apply match_word_spec in Hw as (Hs & Hne & Hsp). rewrite Hs in *.
    cbn [fmap list_fmap]. unfold item_of at 1. cbn [fst snd].
    constructor; try done. apply IH.
    rewrite length_app in Hlen. destruct word; [done|]. simpl in Hlen. lia.
  - apply match_phrase_opens in Hp. apply match_word_None in Hw.
    constructor; try done. apply IH. simpl in Hlen. lia.
Qed.

Lemma parse_reads query_str items :
  reads query_str items →
  parse_simple_search_query query_str = (phrases_of items, words_of items).
Proof.
  intros Hr. unfold parse_simple_search_query.
  rewrite parse_loop, (reads_findall _ _ Hr) by done.
  cbn [fst snd app]. unfold phrases_of, words_of.
  induction Hr as [|p rest items Hne Hq Hr IH|w rest items Hno Hne Hw Hnext Hr IH
                   |c rest items Hno Hc Hr IH]; [done| | |done].
  - injection IH as IH1 IH2.
    cbn [fmap list_fmap omap list_omap match_of]. rewrite !filter_cons.
    cbn [fst snd]. rewrite decide_True by done.
    rewrite decide_False by (by intros [? _]).
    cbn. by rewrite IH1, IH2.
  - injection IH as IH1 IH2.
    cbn [fmap list_fmap omap list_omap match_of]. rewrite !filter_cons.
    cbn [fst snd]. rewrite decide_False by (intros Hn; by apply Hn).
    rewrite decide_True by done.
    cbn. by rewrite IH1, IH2.
Qed.

(** C5, amended. For every corpus and raw query. The query has a
    reading from left to right into quoted phrases and unquoted words
    (where a double quote, one or more characters other than a double
    quote and a double quote follow one another, the characters between
    the quotes are a phrase; elsewhere white space is passed over and a
    run of characters other than white space, up to the next white
    space or the end, is a word, double quotes inside it included).
    For every such reading, [parse_simple_search_query] returns its
    phrases and its words, each list in the order of the query, and a
    chunk id is in the result of the simple text search iff the folded
    text of that chunk contains every folded phrase and every folded
    word of the reading as a substring, and then its score is exactly
    1. The ids of the result come in ascending order. *)
Theorem simple_text_search_correct corpus raw_query :
  (∃ items, reads raw_query items)
  ∧ (∀ items, reads raw_query items →
       parse_simple_search_query raw_query = (phrases_of items, words_of items)
       ∧ ∀ doc_id score,
           (doc_id, score) ∈ simple_text_search corpus raw_query ↔
           score = 1%Q
           ∧ ∃ d, corpus !! doc_id = Some d
                  ∧ (∀ p, p ∈ phrases_of items →
                       substring (fold_text p) (folded_text d))
                  ∧ (∀ w, w ∈ words_of items →
                       substring (fold_text w) (folded_text d)))
  ∧ StronglySorted lt (simple_text_search corpus raw_query).*1.
Proof.
  split; [|split].
  - eexists. by apply (findall_reads (length raw_query)).
  - intros items Hr. pose proof (parse_reads _ _ Hr) as Hparse.
    split; [done|]. intros doc_id score.
    rewrite simple_text_search_elem, Hparse. done.
  - apply simple_text_search_sorted.
Qed.
End ReadQuery.

(** ** The load as a whole *)
Section LoadWhole.
Context `{Numeric, BM25Lib, Paths}.

Lemma all_json_files_checked folders_list :
  all_json_files (filter (λ e, checked e = true) folders_list)
  = all_json_files folders_list.
Proof.
  unfold all_json_files. induction folders_list as [|e l IH]; [done|].
  rewrite filter_cons, bind_cons. destruct (checked e) eqn:Hc.
  - rewrite decide_True by done. by rewrite bind_cons, Hc, IH.
  - rewrite decide_False by done. by rewrite IH.
Qed.

Lemma folder_errors_checked folders_list :
  folder_errors (filter (λ e, checked e = true) folders_list)
  = folder_errors folders_list.
Proof.
  unfold folder_errors. induction folders_list as [|e l IH]; [done|].
  rewrite filter_cons, bind_cons. destruct (checked e) eqn:Hc.
  - rewrite decide_True by done. by rewrite bind_cons, Hc, IH.
  - rewrite decide_False by done. by rewrite IH.
Qed.

(** X18. The rows of the folder list that are not checked play no
    part in a load: with or without them it leaves the same corpus,
    the same index, the same messages and the same status. *)
Theorem unchecked_folders_ignored folders_list :
  load_corpus_and_initialize_bm25 (filter (λ e, checked e = true) folders_list)
  = load_corpus_and_initialize_bm25 folders_list.
Proof.
  unfold load_corpus_and_initialize_bm25.
  by rewrite all_json_files_checked, folder_errors_checked.
Qed.

Lemma texts_nil_iff corpus :
  texts corpus = [] ↔ ∀ d, d ∈ corpus → text d = None.
Proof.
  unfold texts. induction corpus as [|d corpus IH]; simpl.
  - split; [by intros _ d ?%elem_of_nil|done].
  - destruct (text d) as [t|] eqn:Ht; simpl.
    + split; [done|]. intros Hall. specialize (Hall d). rewrite Ht in Hall.
      discriminate Hall. left.
    + rewrite IH. split.
      * intros Hall d' [->|Hd']%elem_of_cons; auto.
      * intros Hall d' Hd'. apply Hall. by right.
Qed.

Lemma texts_nonempty corpus :
  texts corpus ≠ [] → ∃ d, d ∈ corpus ∧ is_Some (text d).
Proof.
  unfold texts. induction corpus as [|d corpus IH]; simpl; [done|].
  destruct (text d) as [t|] eqn:Ht; simpl.
  - intros _. exists d. split; [left|by rewrite Ht].
  - intros (d' & Hd' & Ht')%IH. exists d'. split; [by right|done].
Qed.

(** X19. What a load that returns leaves, and when it returns. It
    leaves a BM25 index exactly when it reports that the model was
    initialized, and that is exactly when some chunk of the loaded
    corpus has a text; it leaves an empty corpus exactly when it
    reports that no file or no document was found. It returns
    whenever every [.json] and [.emb] file that parses holds an array
    of records and the library's index call returns; when some chunk
    has a text and the index call raises, the load raises. *)
Theorem load_outcome folders_list :
  let files := all_json_files folders_list in
  let model := tokenize <$> texts (files ≫= docs_of_file) in
  (∀ ld, load_corpus_and_initialize_bm25 folders_list = Some ld →
     (is_Some (loaded_model ld) ↔ status ld = BM25Initialized)
     ∧ (status ld = BM25Initialized
        ↔ ∃ d, d ∈ loaded_corpus ld ∧ is_Some (text d))
     ∧ (loaded_corpus ld = []
        ↔ status ld = NoJsonFilesFound ∨ status ld = NoDocumentsFound))
  ∧ (Forall well_formed files → index model = true →
     is_Some (load_corpus_and_initialize_bm25 folders_list))
  ∧ (texts (files ≫= docs_of_file) ≠ [] → index model = false →
     load_corpus_and_initialize_bm25 folders_list = None).
Proof.
  intros files model. unfold load_corpus_and_initialize_bm25.
  fold files. fold model. split; [|split].
  - intros ld. case_bool_decide as Hfiles.
    { intros [= <-]. cbn. split; [|split].
      - split; [by intros [? ?]|done].
      - split; [done|]. by intros (d & ?%elem_of_nil & _).
      - split; [by left|done]. }
    case_bool_decide as Hdocs.
    { intros [= <-]. cbn. split; [|split].
      - split; [by intros [? ?]|done].
      - split; [done|]. by intros (d & ?%elem_of_nil & _).
      - split; [by right|done]. }
    case_bool_decide as Htexts.
    { intros [= <-]. cbn. split; [|split].
      - split; [by intros [? ?]|done].
      - split; [done|]. intros (d & Hd & [t Ht]).
        rewrite texts_nil_iff in Htexts. rewrite (Htexts d Hd) in Ht. done.
      - split; [done|]. by intros [?|?]. }
    destruct (index model); [|done]. intros Hl.
    apply bind_Some in Hl as ([corpus' out] & Hpass & [= <-]).
    apply load_embeddings_for_corpus_same in Hpass. cbn. split; [|split].
    + by split.
    + split; [|done]. intros _. apply texts_nonempty.
      by rewrite (texts_same _ _ Hpass).
    + split; [|by intros [?|?]]. intros Hnil.
      apply Forall2_length in Hpass. rewrite Hnil in Hpass.
      destruct Hdocs. by apply nil_length_inv.
  - intros Hwf Hindex. repeat case_bool_decide; try done.
    by rewrite Hindex, (load_embeddings_for_corpus_spec files Hwf).
  - intros Htexts Hindex.
    assert (files ≫= docs_of_file ≠ []) as Hdocs
      by (by intros Hnil; rewrite Hnil in Htexts).
    assert (files ≠ []) as Hfiles by (by intros Hnil; rewrite Hnil in Hdocs).
    rewrite !bool_decide_eq_false_2 by done. by rewrite Hindex.
Qed.

(** X20. Whatever the files and the corpus it is run on, an embedding
    pass that returns has kept the corpus as long as it was and every
    chunk at its position, with the text, the file name and the page
    number it had; a chunk that had an embedding still has one. The
    pass only ever sets the [embedding] of a chunk. *)
Theorem embedding_pass_preserves files corpus corpus' out :
  load_embeddings_for_corpus files corpus = Some (corpus', out) →
  length corpus' = length corpus
  ∧ ∀ i d, corpus !! i = Some d →
      ∃ d', corpus' !! i = Some d' ∧ same_but_embedding d d'.
Proof.
  intros Hsame%load_embeddings_for_corpus_same.
  split; [symmetry; by eapply Forall2_length|].
  intros i d Hd. by eapply Forall2_lookup_l.
Qed.
End LoadWhole.

(** ** The count of the embedding pass *)
Section EmbeddingCount.
Context `{Numeric, BM25Lib, Paths}.

Lemma embedded_count_attach_all docs embs :
  Forall (λ d, embedding d = None) docs →
  embedded_count (attach_all docs embs) = attached_count docs embs.
Proof.
  unfold embedded_count. intros Hnone. revert embs.
  induction Hnone as [|d docs Hd Hnone IH]; intros [|r embs]; try done.
  - simpl. rewrite filter_cons, decide_False by (rewrite Hd; by intros [? ?]).
    clear IH. induction Hnone as [|d' docs' Hd' _ IH']; [done|].
    by rewrite filter_cons, decide_False by (rewrite Hd'; by intros [? ?]).
  - cbn [attach_all attached_count]. rewrite filter_cons.
    destruct r as [[e|]]; cbn.
    + rewrite decide_True by done. cbn. by rewrite IH.
    + rewrite decide_False by (rewrite Hd; by intros [? ?]). by rewrite IH.
Qed.

Lemma embedded_count_app l1 l2 :
  embedded_count (l1 ++ l2) = embedded_count l1 + embedded_count l2.
Proof. unfold embedded_count. by rewrite filter_app, length_app. Qed.

Lemma embedded_count_expected files :
  Forall (λ d, embedding d = None) (files ≫= docs_of_file) →
  embedded_count (files ≫= expected_docs) = attached_total files.
Proof.
  unfold attached_total. induction files as [|f files IH]; [done|].
  rewrite !bind_cons, Forall_app. intros [Hf Hfiles].
  rewrite embedded_count_app. cbn. rewrite <- IH by done.
  unfold expected_docs at 1. by rewrite embedded_count_attach_all.
Qed.

Lemma any_embedding_count corpus :
  any_embedding corpus = bool_decide (0 < embedded_count corpus).
Proof.
  unfold any_embedding, embedded_count.
  induction corpus as [|d corpus IH]; [done|].
  cbn [existsb]. rewrite filter_cons, IH.
  destruct (decide (is_Some (embedding d))) as [Hd|Hd].
  - rewrite bool_decide_eq_true_2 by done. cbn [length orb].
    symmetry. apply bool_decide_eq_true_2. lia.
  - by rewrite bool_decide_eq_false_2.
Qed.

(** X21. When every [.json] and [.emb] file of the list that parses
    holds an array of records, the pass on the corpus of the load
    returns, and the last line it prints carries the number of
    embeddings it has set. When, besides, no record of the [.json]
    files has an embedding of its own, that number is the number of
    chunks of the loaded corpus that carry an embedding, and the
    embeddings search is on offer exactly when it is not 0. *)
Theorem loaded_embeddings_count files :
  Forall well_formed files →
  ∃ corpus' out,
    load_embeddings_for_corpus files (files ≫= docs_of_file) = Some (corpus', out)
    ∧ last out = Some (LoadedEmbeddings (attached_total files))
    ∧ (Forall (λ d, embedding d = None) (files ≫= docs_of_file) →
       attached_total files = embedded_count corpus'
       ∧ any_embedding corpus' = bool_decide (0 < attached_total files)).
Proof.
  intros Hwf. rewrite (load_embeddings_for_corpus_spec files Hwf).
  eexists _, _. split; [done|]. split; [by rewrite last_snoc|].
  intros Hnone. rewrite any_embedding_count.
  by rewrite embedded_count_expected.
Qed.
End EmbeddingCount.

(** ** The producer of the [.emb] files *)
Section ProducerFacts.
Context `{PassageEmbedder, Numeric, BM25Lib, Paths}.

Lemma batch_step_None l : foldl batch_step None l = None.
Proof. by induction l. Qed.

Lemma batch_loop embeddings pre pages :
  foldl batch_step (Some (pre ++ pages))
    (imap (λ i e, (length pre + i, e)) embeddings)
  = if decide (length embeddings ≤ length pages)
    then Some (pre ++ batch_assigned pages embeddings) else None.
Proof.
  revert pre pages. induction embeddings as [|e embeddings IH]; intros pre pages.
  - cbn. rewrite decide_True by lia. unfold batch_assigned.
    by destruct pages.
  - rewrite imap_cons. cbn [foldl]. unfold batch_step at 2. cbn [mbind option_bind fst snd].
    destruct pages as [|page pages].
    + rewrite lookup_ge_None_2 by (rewrite length_app; simpl; lia).
      cbn. rewrite batch_step_None. by rewrite decide_False by (simpl; lia).
    + rewrite lookup_app_r by lia.
      replace (length pre + 0 - length pre) with 0 by lia. cbn [lookup list_lookup].
      cbn [mbind option_bind].
      rewrite insert_app_r. cbn [insert list_insert].
      set (page' := del_text (set_embedding page e)).
      rewrite (imap_ext _ (λ i e, (length (pre ++ [page']) + i, e)) embeddings).
      2:{ intros i x _. cbn. rewrite length_app. cbn. f_equal. lia. }
      rewrite (cons_middle page' pre pages), app_assoc, IH.
      cbn [length]. destruct (decide (length embeddings ≤ length pages)).
      * rewrite decide_True by lia. unfold batch_assigned. cbn.
        by rewrite <- app_assoc.
      * by rewrite decide_False by lia.
Qed.

(** X22. What the batch producer returns, case by case. When the
    model gives no more embeddings than there are pages, the first
    pages take the embeddings in order and lose their text, and the
    pages past the last embedding are returned as they were read,
    text included. When the model raises or gives more embeddings
    than pages, the result is the one of the page-by-page producer
    on the pages as read. In every case there are as many records as
    pages. *)
Theorem embed_pages_in_json_batch_cases pages :
  let texts := (λ page, default [] (text page)) <$> pages in
  embed_pages_in_json_batch pages
  = match passage_embed texts with
    | Some embeddings =>
        if decide (length embeddings ≤ length pages)
        then batch_assigned pages embeddings
        else embed_pages_in_json pages
    | None => embed_pages_in_json pages
    end
  ∧ length (embed_pages_in_json_batch pages) = length pages.
Proof.
  intros texts.
  assert (embed_pages_in_json_batch pages
          = match passage_embed texts with
            | Some embeddings =>
                if decide (length embeddings ≤ length pages)
                then batch_assigned pages embeddings
                else embed_pages_in_json pages
            | None => embed_pages_in_json pages
            end) as Heq.
  { unfold embed_pages_in_json_batch. fold texts.
    destruct (passage_embed texts) as [embeddings|]; [|done].
    cbn [mbind option_bind]. unfold enumerate.
    pose proof (batch_loop embeddings [] pages) as Hloop.
    cbn [app length] in Hloop.
    rewrite (imap_ext _ pair embeddings) in Hloop by done.
    rewrite Hloop. by destruct (decide _). }
  split; [done|]. rewrite Heq.
  assert (length (embed_pages_in_json pages) = length pages) as Hlen
    by (unfold embed_pages_in_json; by rewrite length_fmap).
  destruct (passage_embed texts) as [embeddings|]; [|done].
  destruct (decide _) as [Hle|]; [|done].
  unfold batch_assigned.
  rewrite length_app, length_zip_with, length_drop. lia.
Qed.

Lemma batch_assigned_all pages embeddings :
  length embeddings = length pages →
  batch_assigned pages embeddings
  = zip_with (λ page e, del_text (set_embedding page e)) pages embeddings.
Proof.
  intros Hlen. unfold batch_assigned.
  by rewrite drop_ge, app_nil_r by lia.
Qed.

(** X23. With a model that embeds every text of a batch on its own,
    the batch producer gives every page the embedding of its text,
    and a page without text the embedding of the empty string; the
    page-by-page producer gives the same to a page with a text and
    leaves a page without text as it is. The two producers return
    the same records on a file whose pages all have a text, and
    differ at every page that has neither a text nor an embedding. *)
Theorem batch_and_page_by_page pages (embed1 : str → list Q) :
  (∀ ts, passage_embed ts = Some (embed1 <$> ts)) →
  embed_pages_in_json_batch pages
  = (λ page, del_text (set_embedding page (embed1 (default [] (text page)))))
      <$> pages
  ∧ embed_pages_in_json pages
    = (λ page, if text page is Some t
               then del_text (set_embedding page (embed1 t)) else page)
        <$> pages
  ∧ (Forall (λ page, is_Some (text page)) pages →
     embed_pages_in_json_batch pages = embed_pages_in_json pages)
  ∧ (∀ i page, pages !! i = Some page → text page = None → embedding page = None →
       embed_pages_in_json_batch pages !! i ≠ embed_pages_in_json pages !! i).
Proof.
  intros Hmodel.
  assert (embed_pages_in_json_batch pages
          = (λ page, del_text (set_embedding page (embed1 (default [] (text page)))))
              <$> pages) as Hbatch.
  { destruct (embed_pages_in_json_batch_cases pages) as [-> _].
    rewrite Hmodel. rewrite decide_True by (by rewrite !length_fmap).
    rewrite batch_assigned_all by (by rewrite !length_fmap).
    clear. induction pages as [|page pages IH]; [done|]. cbn. by rewrite IH. }
  assert (embed_pages_in_json pages
          = (λ page, if text page is Some t
                     then del_text (set_embedding page (embed1 t)) else page)
              <$> pages) as Hpages.
  { unfold embed_pages_in_json. apply list_fmap_ext. intros i page _.
    unfold embed_page. destruct (text page) as [t|]; [|done].
    by rewrite Hmodel. }
  split; [done|]. split; [done|]. rewrite Hbatch, Hpages. split.
  - intros Hall. apply list_fmap_ext. intros i page Hi.
    rewrite Forall_forall in Hall.
    destruct (Hall page) as [t ->]; [by eapply list_elem_of_lookup_2|done].
  - intros i page Hi Ht He. rewrite !list_lookup_fmap, Hi. cbn. rewrite Ht.
    intros [= Heq]. apply (f_equal embedding) in Heq. cbn in Heq. congruence.
Qed.

Lemma lookup_bind_inv {A B} (g : A → list B) (l : list A) i y :
  (l ≫= g) !! i = Some y →
  ∃ before x after j,
    l = before ++ x :: after ∧ i = length (before ≫= g) + j ∧ g x !! j = Some y.
Proof.
  revert i. induction l as [|x l IH]; intros i; [done|].
  rewrite bind_cons. intros Hi.
  destruct (decide (i < length (g x))) as [Hlt|Hge].
  - rewrite lookup_app_l in Hi by done. by exists [], x, l, i.
  - rewrite lookup_app_r in Hi by lia.
    apply IH in Hi as (before & x' & after & j & -> & Hj & Hy).
    exists (x :: before), x', after, j. split; [done|]. split; [|done].
    rewrite bind_cons, length_app. lia.
Qed.

Lemma same_but_embedding_attach d r : same_but_embedding d (attach d r).
Proof. by destruct r as [[[e|]]|]. Qed.

(** A file with a produced [.emb] file, as the loader reads it. *)
Lemma produced_by_records produce f :
  produced_by produce f →
  ∃ pages,
    docs_of_file f = absolutize (dirname (file_path f)) <$> pages
    ∧ emb_records f = emb_file_of (produce pages)
    ∧ is_Some (emb_content f) ∧ well_formed f.
Proof.
  intros (pages & Hjson & Hemb). exists pages.
  unfold docs_of_file, read_file, emb_records, well_formed.
  rewrite Hjson, Hemb. cbn. rewrite mapM_fmap_Some, omap_id_Some.
  split; [done|]. split; [done|]. split; [done|]. split.
  - intros v [= <-]. by exists pages.
  - intros v [= <-]. by eexists.
Qed.

Lemma produced_no_mismatch produce f :
  (∀ pages, length (produce pages) = length pages) →
  produced_by produce f → mismatch_warnings f = [].
Proof.
  intros Hlen Hprod.
  destruct (produced_by_records produce f Hprod)
    as (pages & Hdocs & Hembs & [emb Hemb] & _).
  unfold mismatch_warnings, text_count. rewrite Hemb, Hdocs, Hembs.
  rewrite bool_decide_eq_false_2; [done|].
  unfold emb_file_of. rewrite !length_fmap, Hlen. by intros Hn.
Qed.

(** X24. The two programs fit on page files. When every [.json] file
    holds an array of page records and its [.emb] file was written by
    the page-by-page producer from it, the embedding pass of a load
    does not raise and prints no mismatch warning, and every chunk
    whose text the model could embed carries, after the pass, the
    embedding of its own text; nothing else of the chunk has
    changed. *)
Theorem produced_emb_files_align files :
  Forall (produced_by embed_pages_in_json) files →
  ∃ corpus',
    load_embeddings_for_corpus files (files ≫= docs_of_file)
    = Some (corpus', [LoadedEmbeddings (attached_total files)])
    ∧ ∀ i d, (files ≫= docs_of_file) !! i = Some d →
        ∃ d', corpus' !! i = Some d' ∧ same_but_embedding d d'
          ∧ ∀ t e rest, text d = Some t → passage_embed [t] = Some (e :: rest) →
              embedding d' = Some (np_array_float32 e).
Proof.
  intros Hprod. exists (files ≫= expected_docs). split.
  - rewrite load_embeddings_for_corpus_spec.
    2:{ eapply Forall_impl; [exact Hprod|]. intros f Hf.
        by destruct (produced_by_records _ f Hf) as (? & _ & _ & _ & ?). }
    f_equal. f_equal.
    assert (files ≫= mismatch_warnings = []) as ->; [|done].
    induction Hprod as [|f files Hf Hprod IH]; [done|].
    rewrite bind_cons, IH, app_nil_r.
    apply (produced_no_mismatch embed_pages_in_json); [|done].
    intros pages. unfold embed_pages_in_json. by rewrite length_fmap.
  - intros i d Hd.
    apply lookup_bind_inv in Hd as (before & f & after & j & -> & -> & Hj).
    rewrite <- length_bind_expected, lookup_bind_unit.
    2:{ rewrite length_expected_docs, <- length_docs_of_file.
        by eapply lookup_lt_Some. }
    unfold expected_docs. rewrite lookup_attach_all, Hj. cbn.
    eexists. split; [done|]. split; [apply same_but_embedding_attach|].
    intros t e rest Ht Hemb.
    rewrite Forall_app, Forall_cons in Hprod.
    destruct Hprod as (_ & Hf & _).
    destruct (produced_by_records _ f Hf) as (pages & Hdocs & Hembs & _).
    rewrite Hdocs, list_lookup_fmap in Hj.
    destruct (pages !! j) as [page|] eqn:Hpage; [|done].
    injection Hj as <-.
    assert (text page = Some t) as Hpt.
    { revert Ht. unfold absolutize. by destruct (_ && _). }
    rewrite Hembs. unfold emb_file_of, embed_pages_in_json.
    rewrite !list_lookup_fmap, Hpage. cbn.
    unfold embed_page. rewrite Hpt, Hemb. done.
Qed.
End ProducerFacts.

(** * Concrete runs *)

Import Examples Runs.

(** The spec's example of the span score: in [a b c a target b] the
    narrowest window with [a] and [target] has two words. *)
Example minimal_span_score_example :
  minimal_span_score (py "a b c a target b") [py "a"; py "target"] = Some (1 # 3)
  ∧ minimal_span_score (py "a b c a target b") [py "a"; py "absent"] = Some 0%Q.
Proof. split; vm_compute; reflexivity. Qed.

(** C6. The query [a a] gives the span rerank the terms [a] and [a].
    On the text [a] the only word is a window of width 1 that holds
    the one distinct term, so the score should be [1 / (1 + 1)], as it
    is for the single term [a]; with the term repeated the function
    returns [1 / (len(words) + 2) = 1 / 3], the value that the initial
    [best_span] gives. *)
Theorem span_score_of_repeated_term :
  fold_text <$> findall_word (strip (py "a a")) = [py "a"; py "a"]
  ∧ covers (split (fold_text (py "a"))) (fold_text <$> [py "a"; py "a"]) 0 0
  ∧ minimal_span_score (py "a") [py "a"; py "a"] = Some (1 # 3)
  ∧ minimal_span_score (py "a") [py "a"] = Some (1 # 2).
Proof.
  split; [vm_compute; reflexivity|].
  split; [|split; vm_compute; reflexivity].
  intros t Ht. exists 0. split; [lia|].
  vm_compute in Ht. vm_compute.
  by repeat (apply elem_of_cons in Ht as [->|Ht]); try by apply elem_of_nil in Ht.
Qed.

(** C1, as stated, fails: the library answers with two rows of equal
    score, chunk 1 before chunk 0, and the search keeps that order. *)
Lemma bm25_ties_follow_library :
  @bm25_search (answering tied_rows) two_dogs two_dogs_model (py "dog")
  = Some [(1, 1 # 2); (0, 1 # 2)]
  ∧ ¬ ties_by_ascending_id [(1, 1 # 2); (0, 1 # 2)].
Proof.
  split; [vm_compute; reflexivity|].
  intros Hties. specialize (Hties 0 1 (1, 1 # 2) (0, 1 # 2)). simpl in Hties.
  assert (1 < 0) as Hlt by (apply Hties; [lia|done|done|reflexivity]). lia.
Qed.

Lemma bm25_search_sorted_stable_witness :
  @retrieve (answering pets_rows) (word_tokenize <$> texts pets)
    (@tokenize (answering pets_rows) (py "dog")) (length pets) = Some pets_rows
  ∧ ∃ ranking,
      @bm25_search (answering pets_rows) pets (word_tokenize <$> texts pets) (py "dog")
      = Some ranking
      ∧ StronglySorted (λ x y, (y.2 <= x.2)%Q) ranking.
Proof.
  split; [reflexivity|].
  destruct (@bm25_search_sorted_stable latin1 exact (answering pets_rows) no_embedder
              pets (word_tokenize <$> texts pets) (py "dog") pets_rows eq_refl)
    as (ranking & Hsearch & _ & _ & Hsorted & _).
  exists ranking. split; [exact Hsearch|exact Hsorted].
Defined.

(** C2, as stated, fails for a tokenizer that lower-cases and splits
    but leaves diacritics in place: [café] and [CAFE] have the same
    folded form and no token in common. *)
Lemma tokenizer_keeps_diacritics :
  fold_text cafe_accent = fold_text cafe_upper
  ∧ @tokenize (answering []) cafe_accent = [cafe_accent]
  ∧ @tokenize (answering []) cafe_upper = [py "cafe"]
  ∧ ¬ (∀ query text, fold_text query = fold_text text →
         @tokenize (answering []) query = @tokenize (answering []) text).
Proof.
  split; [vm_compute; reflexivity|]. split; [vm_compute; reflexivity|].
  split; [vm_compute; reflexivity|].
  intros Hsame. specialize (Hsame cafe_accent cafe_upper).
  assert (@tokenize (answering []) cafe_accent = @tokenize (answering []) cafe_upper)
    as Heq by (apply Hsame; vm_compute; reflexivity).
  vm_compute in Heq. discriminate Heq.
Qed.

(** The tokenizer of the runs lower-cases. *)
Lemma word_tokenize_lower_cases : @lower_cases latin1 (answering []).
Proof. intros s1 s2 Hs. cbn [tokenize answering]. unfold word_tokenize. by rewrite Hs. Qed.

Lemma tokenization_symmetry_witness :
  ∃ ld model,
    @load_corpus_and_initialize_bm25 exact (answering []) no_paths demo_folders = Some ld
    ∧ loaded_model ld = Some model
    ∧ model = @tokenize (answering []) <$> texts (loaded_corpus ld)
    ∧ @bm25_search (answering []) (loaded_corpus ld) model (py "CAFE")
      = @bm25_search (answering []) (loaded_corpus ld) model (py "cafe").
Proof.
  destruct (@load_corpus_and_initialize_bm25 exact (answering []) no_paths demo_folders)
    as [ld|] eqn:Hload; [|vm_compute in Hload; discriminate Hload].
  destruct (loaded_model ld) as [model|] eqn:Hmodel.
  - exists ld, model. split; [reflexivity|]. split; [exact Hmodel|].
    destruct (@tokenization_symmetry latin1 exact (answering []) no_paths
                demo_folders ld model Hload Hmodel) as (Hm & _ & Hcase).
    split; [exact Hm|].
    destruct (Hcase word_tokenize_lower_cases) as (Hq & _).
    apply Hq. reflexivity.
  - vm_compute in Hload. injection Hload as <-. vm_compute in Hmodel.
    discriminate Hmodel.
Defined.

(** C3, as stated, fails: with no embedding in the corpus the call that
    asks for the embeddings search stores no ranking (the list stays
    empty), where a BM25 search on the same state stores two rows. *)
Lemma fallback_stores_no_ranking :
  any_embedding pets = false
  ∧ results <$> @search latin1 exact (answering pets_rows) no_embedder
                  pets_globals (py "dog") (fresh_app EmbeddingsSearch)
    = Some []
  ∧ results <$> @search latin1 exact (answering pets_rows) no_embedder
                  pets_globals (py "dog") (fresh_app BM25)
    = Some [(0, 1 # 2); (1, 1 # 4)].
Proof. repeat split; vm_compute; reflexivity. Qed.

Lemma embeddings_search_fallback_witness :
  GLOBAL_CORPUS pets_globals ≠ [] ∧ strip (py "dog") ≠ []
  ∧ ∃ a', @search latin1 exact (answering pets_rows) no_embedder
            pets_globals (py "dog") (fresh_app EmbeddingsSearch) = Some a'
          ∧ result_display a' = NoEmbFilesReverting
          ∧ search_method_combo a' = BM25
          ∧ results a' = [].
Proof.
  assert (GLOBAL_CORPUS pets_globals ≠ []) as Hc by discriminate.
  assert (strip (py "dog") ≠ []) as Hq by (vm_compute; discriminate).
  split; [exact Hc|]. split; [exact Hq|].
  destruct (@embeddings_search_fallback latin1 exact (answering pets_rows) no_embedder
              pets_globals (py "dog") (fresh_app EmbeddingsSearch)
              Hc Hq eq_refl eq_refl eq_refl)
    as (a' & Hs & Hd & Hm & Hr & _).
  exists a'. split; [exact Hs|]. split; [exact Hd|]. split; [exact Hm|exact Hr].
Defined.

(** C4, as stated, fails: on 51 chunks that all hold the query word the
    simple text search returns 51 candidates. *)
Lemma simple_text_search_uncapped :
  length (simple_text_search (replicate 51 (page "a")) (py "a")) = 51
  ∧ ¬ length (simple_text_search (replicate 51 (page "a")) (py "a"))
      ≤ MAX_SEARCH_RESULTS.
Proof.
  assert (length (simple_text_search (replicate 51 (page "a")) (py "a")) = 51)
    as Hlen by (vm_compute; reflexivity).
  split; [exact Hlen|]. rewrite Hlen. unfold MAX_SEARCH_RESULTS. lia.
Qed.

Lemma candidate_list_caps_witness :
  (∃ ranking,
     @bm25_search (answering pets_rows) pets (word_tokenize <$> texts pets) (py "dog")
     = Some ranking ∧ length ranking ≤ MAX_SEARCH_RESULTS)
  ∧ length (simple_text_search pets (py "dog")) ≤ length pets.
Proof.
  destruct (@candidate_list_caps latin1 exact (answering pets_rows) no_embedder
              pets (word_tokenize <$> texts pets) (py "dog"))
    as (Hbm25 & _ & Hsimple).
  split; [|exact Hsimple].
  destruct (Hbm25 pets_rows eq_refl) as (ranking & Hs & Hlen & _).
  exists ranking. split; [exact Hs|exact Hlen].
Defined.

(** The query of a word and a quoted phrase. A chunk that holds the
    phrase and not the word is not returned; a chunk that holds both
    is. *)
Example simple_text_search_word_and_phrase :
  parse_simple_search_query foo_exact_phrase = ([py "exact phrase"], [py "foo"])
  ∧ simple_text_search [page "An exact phrase."; page "Foo, then the EXACT phrase."]
      foo_exact_phrase
    = [(1, 1%Q)].
Proof. split; vm_compute; reflexivity. Qed.

(** The reading of that query: a word, then a phrase. *)
Example reads_word_and_phrase :
  reads foo_exact_phrase [Word (py "foo"); Phrase (py "exact phrase")].
Proof. exact (findall_reads (length foo_exact_phrase) foo_exact_phrase (le_n _)). Qed.

(** C5, as stated, fails: in the query [glued_phrase] the run
    [exact phrase] stands between two double quotes and [x] is what is
    left, and the search reads no phrase and two words: the characters
    up to the space, the first double quote among them, and the
    characters after the space, the second double quote among them. A
    chunk whose text holds the phrase and the word [x] is not
    returned. *)
Lemma glued_phrase_read_as_words :
  substring (dq ++ py "exact phrase" ++ dq) glued_phrase
  ∧ reads glued_phrase [Word (py "x" ++ dq ++ py "exact"); Word (py "phrase" ++ dq)]
  ∧ parse_simple_search_query glued_phrase
    = ([], [py "x" ++ dq ++ py "exact"; py "phrase" ++ dq])
  ∧ substring (fold_text (py "exact phrase")) (folded_text (page "x exact phrase"))
  ∧ substring (fold_text (py "x")) (folded_text (page "x exact phrase"))
  ∧ simple_text_search [page "x exact phrase"] glued_phrase = [].
Proof.
  split; [by exists (py "x"), []|].
  split; [exact (findall_reads (length glued_phrase) glued_phrase (le_n _))|].
  split; [vm_compute; reflexivity|].
  split; [apply contains_spec; vm_compute; reflexivity|].
  split; [apply contains_spec; vm_compute; reflexivity|].
  vm_compute; reflexivity.
Qed.

(** C7, as stated, fails: a chunk whose text is one space has a text
    that is not empty and an embedding, and it is not scored. *)
Lemma blank_text_not_scored :
  text blank_page = Some (py " ") ∧ py " " ≠ []
  ∧ is_Some (embedding blank_page)
  ∧ embedding_scores [blank_page] (query_embed (py "q")) = []
  ∧ embeddings_search [blank_page] (py "q") = Some [].
Proof.
  split; [reflexivity|]. split; [discriminate|]. split; [by eexists|].
  split; vm_compute; reflexivity.
Qed.

Lemma embeddings_search_correct_witness :
  ∃ ranking,
    embeddings_search [Doc (Some (py "ab")) None None (Some [3%Q]); blank_page]
      (py "q") = Some ranking
    ∧ StronglySorted (λ x y, (y.2 <= x.2)%Q) ranking.
Proof.
  destruct (@embeddings_search_correct latin1 exact no_embedder
              [Doc (Some (py "ab")) None None (Some [3%Q]); blank_page] (py "q"))
    as (_ & top_k & rest & ranking & _ & _ & _ & Hs & _ & Hsorted).
  exists ranking. split; [exact Hs|exact Hsorted].
Defined.

(** Five records against three. The first three chunks get the three
    embeddings, chunks four and five get none, one warning is printed,
    and the chunk of the next file gets its own embedding. *)
Example embedding_mismatch_five_three :
  load_embeddings_for_corpus [five_pages; one_page]
    ([five_pages; one_page] ≫= docs_of_file)
  = Some ([set_embedding (page "p1") [1%Q]; set_embedding (page "p2") [2%Q];
           set_embedding (page "p3") [3%Q]; page "p4"; page "p5";
           set_embedding (page "q1") [9%Q]],
          [MismatchWarning (py "a.json"); LoadedEmbeddings 4]).
Proof. vm_compute. reflexivity. Qed.

(** C8. The claim fails on the code when a [.json] file of the folder
    parses and is not a list of pages, here a JSON object with one
    key. The first pass raises inside its [try] on the first key,
    reports the file and adds no chunk; the embedding pass parses the
    file again, takes its [len], 1, for a number of pages and moves
    [corpus_index] on by it. With the file of five records and three
    embeddings next, the three embeddings land on chunks two to four
    instead of one to three; with the file of one record after that,
    [GLOBAL_CORPUS[corpus_index + i]] is out of range and the pass,
    and with it the whole load, raises. *)
Theorem skipped_file_shifts_embeddings :
  read_file object_file = None
  ∧ file_errors [object_file; five_pages; one_page] = [ErrorReading (py "0.json")]
  ∧ [object_file; five_pages; one_page] ≫= docs_of_file
    = [page "p1"; page "p2"; page "p3"; page "p4"; page "p5"; page "q1"]
  ∧ load_embeddings_for_corpus [object_file; five_pages]
      ([object_file; five_pages] ≫= docs_of_file)
    = Some ([page "p1"; set_embedding (page "p2") [1%Q];
             set_embedding (page "p3") [2%Q]; set_embedding (page "p4") [3%Q];
             page "p5"],
            [MismatchWarning (py "a.json"); LoadedEmbeddings 3])
  ∧ load_embeddings_for_corpus [object_file; five_pages; one_page]
      ([object_file; five_pages; one_page] ≫= docs_of_file)
    = None
  ∧ @load_corpus_and_initialize_bm25 exact (answering []) no_paths object_folders
    = None.
Proof. repeat split; vm_compute; reflexivity. Qed.

(** The files of the runs hold arrays of records. *)
Lemma demo_files_well_formed : Forall well_formed [five_pages; one_page].
Proof.
  repeat constructor; intros v Hv; injection Hv as <-; eexists; reflexivity.
Qed.

Lemma embedding_mismatch_alignment_witness :
  is_Some (emb_content five_pages)
  ∧ text_count five_pages ≠ length (emb_records five_pages)
  ∧ ∃ corpus' count,
      load_embeddings_for_corpus [five_pages; one_page]
        ([five_pages; one_page] ≫= docs_of_file)
      = Some (corpus',
              [] ++ [MismatchWarning (file_path five_pages)]
              ++ ([one_page] ≫= mismatch_warnings) ++ [LoadedEmbeddings count]).
Proof.
  assert (is_Some (emb_content five_pages)) as He by (eexists; reflexivity).
  assert (text_count five_pages ≠ length (emb_records five_pages)) as Hne
    by (vm_compute; discriminate).
  split; [exact He|]. split; [exact Hne|].
  destruct (@embedding_mismatch_alignment exact no_paths
              [] five_pages [one_page] demo_files_well_formed He Hne)
    as (corpus' & count & Hload & _).
  exists corpus', count. exact Hload.
Defined.

(** The candidates that contain the query come first, each group in
    its retrieval order, scores untouched. *)
Example rerank_exact_text_example :
  rerank_exact_text [page "The Dog barks"; page "a cat"; page "hot dog"]
    [(1, 3 # 1); (2, 2 # 1); (0, 1 # 1)] (py "DOG")
  = Some [(2, 2 # 1); (0, 1 # 1); (1, 3 # 1)].
Proof. vm_compute. reflexivity. Qed.

Lemma rerank_exact_text_stable_partition_witness :
  (∀ c, c ∈ [(1, 3 # 1); (0, 1 # 1)] →
     is_Some (text_at [page "The Dog barks"; page "a cat"] c.1))
  ∧ rerank_exact_text [page "The Dog barks"; page "a cat"]
      [(1, 3 # 1); (0, 1 # 1)] (py "DOG")
    = Some (filter (λ c, exact_hit [page "The Dog barks"; page "a cat"] (py "DOG") c = true)
              [(1, 3 # 1); (0, 1 # 1)]
            ++ filter (λ c, exact_hit [page "The Dog barks"; page "a cat"] (py "DOG") c = false)
                 [(1, 3 # 1); (0, 1 # 1)]).
Proof.
  assert (∀ c, c ∈ [(1, 3 # 1); (0, 1 # 1)] →
            is_Some (text_at [page "The Dog barks"; page "a cat"] c.1)) as Htext.
  { intros c Hc. apply elem_of_cons in Hc as [->|Hc]; [eexists; reflexivity|].
    apply elem_of_cons in Hc as [->|Hc]; [eexists; reflexivity|].
    by apply elem_of_nil in Hc. }
  split; [exact Htext|].
  exact (proj1 (@rerank_exact_text_stable_partition latin1
                  [page "The Dog barks"; page "a cat"]
                  [(1, 3 # 1); (0, 1 # 1)] (py "DOG") Htext)).
Defined.

(** A record without text in front shifts the index. *)
Example bm25_index_shifted :
  texts [Doc None None None None; page "dog"] = [py "dog"]
  ∧ texts [page "cat"; page "dog"] = [py "cat"; py "dog"].
Proof. split; reflexivity. Qed.

Lemma bm25_index_alignment_witness :
  ∃ ld model,
    @load_corpus_and_initialize_bm25 exact (answering []) no_paths demo_folders = Some ld
    ∧ loaded_model ld = Some model
    ∧ length model = length (loaded_corpus ld).
Proof.
  destruct (@load_corpus_and_initialize_bm25 exact (answering []) no_paths demo_folders)
    as [ld|] eqn:Hload; [|vm_compute in Hload; discriminate Hload].
  destruct (loaded_model ld) as [model|] eqn:Hmodel.
  - exists ld, model. split; [reflexivity|]. split; [exact Hmodel|].
    destruct (@bm25_index_alignment exact (answering []) no_paths
                demo_folders ld model Hload Hmodel) as (_ & Haligned & _).
    apply Haligned. intros d Hd.
    vm_compute in Hload. injection Hload as <-. simpl in Hd.
    repeat (apply elem_of_cons in Hd as [->|Hd]; [eexists; reflexivity|]).
    by apply elem_of_nil in Hd.
  - vm_compute in Hload. injection Hload as <-. vm_compute in Hmodel.
    discriminate Hmodel.
Defined.

(** ** Runs of the properties of the whole program *)

(** The ranking of [pets_app] names chunks of [pets]. *)
Lemma pets_app_valid i : i < 2 → results_valid pets_globals (pets_app i).
Proof.
  intros Hi. split.
  - repeat constructor.
  - intros _. exact Hi.
Defined.

Lemma navigation_wraps_witness :
  current_result_index (pets_app 1) < length (results (pets_app 1))
  ∧ ∃ a', show_next_chunk pets_globals (pets_app 1) = Some a'
          ∧ results a' = results (pets_app 1)
          ∧ current_result_index a' = 0.
Proof.
  assert (current_result_index (pets_app 1) < length (results (pets_app 1)))
    as Hi by (vm_compute; lia).
  split; [exact Hi|].
  destruct (show_next_chunk pets_globals (pets_app 1)) as [a'|] eqn:Hn;
    [|vm_compute in Hn; discriminate Hn].
  exists a'. split; [reflexivity|].
  destruct (proj1 (navigation_wraps pets_globals (pets_app 1) a' Hi) Hn)
    as (Hres & Hidx & _).
  split; [exact Hres|exact Hidx].
Defined.

Lemma next_previous_inverse_witness :
  current_result_index (pets_app 1) < length (results (pets_app 1))
  ∧ ∃ a1, show_next_chunk pets_globals (pets_app 1) = Some a1
          ∧ show_previous_chunk pets_globals a1
            = show_current_chunk pets_globals (pets_app 1).
Proof.
  assert (current_result_index (pets_app 1) < length (results (pets_app 1)))
    as Hi by (vm_compute; lia).
  split; [exact Hi|].
  destruct (show_next_chunk pets_globals (pets_app 1)) as [a1|] eqn:Hn;
    [|vm_compute in Hn; discriminate Hn].
  exists a1. split; [reflexivity|].
  exact (proj1 (next_previous_inverse pets_globals (pets_app 1) a1 Hi) Hn).
Defined.

Lemma press_next_cycle_witness :
  results_valid pets_globals (pets_app 1)
  ∧ ∃ a', press_next 2 pets_globals (pets_app 1) = Some a'
          ∧ current_result_index a' = 1.
Proof.
  assert (results_valid pets_globals (pets_app 1)) as Hv
    by (apply pets_app_valid; lia).
  assert (results (pets_app 1) ≠ []) as Hne by discriminate.
  split; [exact Hv|].
  exact (proj1 (proj2 (press_next_cycle pets_globals (pets_app 1) Hv Hne))).
Defined.

Lemma navigation_never_raises_witness :
  results_valid pets_globals (pets_app 0)
  ∧ ∃ a1 a2,
      show_next_chunk pets_globals (pets_app 0) = Some a1
      ∧ show_previous_chunk pets_globals (pets_app 0) = Some a2.
Proof.
  assert (results_valid pets_globals (pets_app 0)) as Hv
    by (apply pets_app_valid; lia).
  split; [exact Hv|].
  destruct (navigation_never_raises pets_globals (pets_app 0) Hv)
    as (a1 & a2 & Hn & _ & Hp & _).
  exists a1, a2. split; [exact Hn|exact Hp].
Defined.

Lemma search_frame_witness :
  ∃ a', @search latin1 exact (answering pets_rows) no_embedder
          pets_globals (py "dog") (fresh_app BM25) = Some a'
        ∧ query_terms a' = fold_text <$> findall_word (strip (py "dog"))
        ∧ rerank_combo a' = NoReranking.
Proof.
  destruct (@search latin1 exact (answering pets_rows) no_embedder
              pets_globals (py "dog") (fresh_app BM25)) as [a'|] eqn:Hs;
    [|vm_compute in Hs; discriminate Hs].
  exists a'. split; [reflexivity|].
  destruct (@search_frame latin1 exact (answering pets_rows) no_embedder
              pets_globals (py "dog") (fresh_app BM25) a' Hs)
    as (Hq & Hr & _).
  split; [exact Hq|exact Hr].
Defined.

Lemma rerank_selection_ignored_witness :
  update_rerank_combo_status (search_method_combo (fresh_app SimpleTextSearch))
  = false
  ∧ @search latin1 exact (answering pets_rows) no_embedder
      pets_globals (py "dog") (set_rerank ExactTextSearch (fresh_app SimpleTextSearch))
    = set_rerank ExactTextSearch
      <$> @search latin1 exact (answering pets_rows) no_embedder
            pets_globals (py "dog") (fresh_app SimpleTextSearch).
Proof.
  assert (update_rerank_combo_status
            (search_method_combo (fresh_app SimpleTextSearch)) = false) as Hm
    by reflexivity.
  split; [exact Hm|].
  exact (@rerank_selection_ignored latin1 exact (answering pets_rows) no_embedder
           pets_globals (py "dog") (fresh_app SimpleTextSearch) ExactTextSearch Hm).
Defined.

(** Before the first search nothing is stored. *)
Lemma fresh_app_valid g m : results_valid g (fresh_app m).
Proof.
  split.
  - constructor.
  - intros Hne. destruct Hne. reflexivity.
Defined.

Lemma search_outside_bm25_never_raises_witness :
  search_method_combo (fresh_app SimpleTextSearch) ≠ BM25
  ∧ ∃ a', @search latin1 exact (answering pets_rows) no_embedder
            pets_globals (py "dog") (fresh_app SimpleTextSearch) = Some a'
          ∧ results_valid pets_globals a'.
Proof.
  assert (search_method_combo (fresh_app SimpleTextSearch) ≠ BM25) as Hm
    by discriminate.
  split; [exact Hm|].
  exact (@search_outside_bm25_never_raises latin1 exact (answering pets_rows)
           no_embedder pets_globals (py "dog") (fresh_app SimpleTextSearch) Hm
           (fresh_app_valid pets_globals SimpleTextSearch)).
Defined.

Lemma search_idempotent_witness :
  ∃ a', @search latin1 exact (answering pets_rows) no_embedder
          pets_globals (py "dog") (fresh_app BM25) = Some a'
        ∧ @search latin1 exact (answering pets_rows) no_embedder
            pets_globals (py "dog") a' = Some a'.
Proof.
  destruct (@search latin1 exact (answering pets_rows) no_embedder
              pets_globals (py "dog") (fresh_app BM25)) as [a'|] eqn:Hs;
    [|vm_compute in Hs; discriminate Hs].
  exists a'. split; [reflexivity|].
  apply (@search_idempotent latin1 exact (answering pets_rows) no_embedder
           pets_globals (py "dog") (fresh_app BM25) a' Hs).
  pose proof Hs as Hs'. vm_compute in Hs'. injection Hs' as <-. reflexivity.
Defined.

Lemma rerank_keeps_candidates_witness :
  (∀ documents, length (cross_encoder_rerank (py "cat") documents) = length documents)
  ∧ ∃ l', @rerank latin1 no_embedder (Globals pets None true true) EmbeddingsRerank
            pets_rows [py "cat"] (py "cat") = Some l'
          ∧ l'.*1 ≡ₚ pets_rows.*1.
Proof.
  assert (∀ documents,
            length (cross_encoder_rerank (py "cat") documents) = length documents)
    as Henc by (intros documents; apply length_fmap).
  split; [exact Henc|].
  destruct (@rerank latin1 no_embedder (Globals pets None true true) EmbeddingsRerank
              pets_rows [py "cat"] (py "cat")) as [l'|] eqn:Hr;
    [|vm_compute in Hr; discriminate Hr].
  exists l'. split; [reflexivity|].
  exact (@rerank_keeps_candidates latin1 no_embedder (Globals pets None true true)
           EmbeddingsRerank pets_rows [py "cat"] (py "cat") l' Hr (λ _, Henc)).
Defined.

Lemma search_bm25_never_raises_witness :
  Forall (λ c : nat * Q, c.1 < length (GLOBAL_CORPUS pets_globals)) pets_rows
  ∧ ∃ a', @search latin1 exact (answering pets_rows) no_embedder
            pets_globals (py "dog") (fresh_app BM25) = Some a'
          ∧ results_valid pets_globals a'.
Proof.
  assert (Forall (λ c : nat * Q, c.1 < length (GLOBAL_CORPUS pets_globals)) pets_rows)
    as Hin by (repeat constructor).
  split; [exact Hin|].
  refine (@search_bm25_never_raises latin1 exact (answering pets_rows) no_embedder
            pets_globals (py "dog") (fresh_app BM25) (word_tokenize <$> texts pets)
            pets_rows eq_refl eq_refl eq_refl Hin _
            (fresh_app_valid pets_globals BM25)).
  intros Hr. destruct Hr. reflexivity.
Defined.

(** In the text [x y] the words are [x] and [y]. *)
Lemma words_x_y : split (fold_text (py "x y")) = [py "x"; py "y"].
Proof. vm_compute. reflexivity. Defined.

Lemma narrowest_x_y :
  narrowest (split (fold_text (py "x y"))) (fold_text <$> [py "x"; py "y"]) 1.
Proof.
  rewrite words_x_y.
  change (fold_text <$> [py "x"; py "y"]) with [py "x"; py "y"].
  split.
  - exists 0, 1. split; [simpl; lia|]. split; [|reflexivity].
    intros t Ht. apply elem_of_cons in Ht as [->|Ht].
    + exists 0. split; [lia|reflexivity].
    + apply elem_of_cons in Ht as [->|Ht]; [|by apply elem_of_nil in Ht].
      exists 1. split; [lia|reflexivity].
  - intros a b Hc.
    destruct (Hc (py "x")) as (p & Hp & Hx); [left|].
    destruct (Hc (py "y")) as (q & Hq & Hy); [right; left|].
    destruct p as [|[|p]]; [|vm_compute in Hx; discriminate Hx
                            |vm_compute in Hx; discriminate Hx].
    destruct q as [|[|q]]; [vm_compute in Hy; discriminate Hy|
                            |vm_compute in Hy; discriminate Hy].
    lia.
Defined.

Lemma minimal_span_score_by_width_witness :
  fold_text <$> [py "x"; py "y"] ≠ []
  ∧ NoDup (fold_text <$> [py "x"; py "y"])
  ∧ narrowest (split (fold_text (py "x y"))) (fold_text <$> [py "x"; py "y"]) 1
  ∧ minimal_span_score (py "x y") [py "x"; py "y"] = Some (1 # 3).
Proof.
  assert (fold_text <$> [py "x"; py "y"] ≠ []) as Hne by discriminate.
  assert (NoDup (fold_text <$> [py "x"; py "y"])) as Hnd
    by (refine (bool_decide_unpack _ _); vm_compute; exact I).
  split; [exact Hne|]. split; [exact Hnd|]. split; [exact narrowest_x_y|].
  exact (@minimal_span_score_by_width latin1 (py "x y") [py "x"; py "y"] 1
           Hne Hnd narrowest_x_y).
Defined.

Lemma minimal_span_score_degenerate_witness :
  ¬ NoDup (fold_text <$> [py "a"; py "a"])
  ∧ minimal_span_score (py "a b") [py "a"; py "a"] = Some (1 # 4).
Proof.
  assert (¬ NoDup (fold_text <$> [py "a"; py "a"])) as Hnd.
  { change (fold_text <$> [py "a"; py "a"]) with [py "a"; py "a"].
    intros Hn. apply NoDup_cons in Hn as [Hout _]. apply Hout. left. }
  split; [exact Hnd|].
  refine (@minimal_span_score_degenerate latin1 (py "a b") [py "a"; py "a"]
            (or_intror Hnd) _).
  change (fold_text <$> [py "a"; py "a"]) with [py "a"; py "a"].
  change (split (fold_text (py "a b"))) with [py "a"; py "b"].
  intros t Ht. apply elem_of_cons in Ht as [->|Ht]; [left|].
  apply elem_of_cons in Ht as [->|Ht]; [left|by apply elem_of_nil in Ht].
Defined.

(** The items of the query [foo "exact phrase"]. *)
Lemma foo_exact_phrase_ok :
  Forall item_ok [Word (py "foo"); Phrase (py "exact phrase")].
Proof.
  repeat constructor; try discriminate;
    refine (bool_decide_unpack _ _); vm_compute; exact I.
Defined.

Lemma parse_written_query_witness :
  write_query 32 [Word (py "foo"); Phrase (py "exact phrase")] = foo_exact_phrase
  ∧ parse_simple_search_query foo_exact_phrase
    = ([py "exact phrase"], [py "foo"]).
Proof.
  split; [reflexivity|].
  refine (proj1 (@parse_written_query latin1 32%N
                   [Word (py "foo"); Phrase (py "exact phrase")]
                   eq_refl _ foo_exact_phrase_ok)).
  discriminate.
Defined.

Lemma simple_text_search_written_query_witness :
  (1, 1%Q) ∈ simple_text_search pets
               (write_query 32 [Word (py "dog"); Phrase (py "cat dog")])
  ↔ 1%Q = 1%Q
    ∧ ∃ d, pets !! 1 = Some d
           ∧ ∀ it, it ∈ [Word (py "dog"); Phrase (py "cat dog")] →
               substring (fold_text (item_text it)) (folded_text d).
Proof.
  refine (@simple_text_search_written_query latin1 pets 32%N
            [Word (py "dog"); Phrase (py "cat dog")] 1 1%Q eq_refl _ _).
  - discriminate.
  - repeat constructor; try discriminate;
      refine (bool_decide_unpack _ _); vm_compute; exact I.
Defined.

Lemma embedding_pass_preserves_witness :
  ∃ corpus' out,
    @load_embeddings_for_corpus exact [five_pages; one_page]
      ([five_pages; one_page] ≫= docs_of_file) = Some (corpus', out)
    ∧ length corpus' = length ([five_pages; one_page] ≫= docs_of_file).
Proof.
  destruct (@load_embeddings_for_corpus exact [five_pages; one_page]
              ([five_pages; one_page] ≫= docs_of_file))
    as [[corpus' out]|] eqn:Hl; [|vm_compute in Hl; discriminate Hl].
  exists corpus', out. split; [reflexivity|].
  exact (proj1 (@embedding_pass_preserves exact [five_pages; one_page]
                  ([five_pages; one_page] ≫= docs_of_file) corpus' out Hl)).
Defined.

Lemma loaded_embeddings_count_witness :
  Forall well_formed [five_pages; one_page]
  ∧ ∃ corpus' out,
      @load_embeddings_for_corpus exact [five_pages; one_page]
        ([five_pages; one_page] ≫= docs_of_file) = Some (corpus', out)
      ∧ last out = Some (LoadedEmbeddings 4).
Proof.
  split; [exact demo_files_well_formed|].
  destruct (@loaded_embeddings_count exact no_paths [five_pages; one_page]
              demo_files_well_formed)
    as (corpus' & out & Hl & Hlast & _).
  exists corpus', out. split; [exact Hl|exact Hlast].
Defined.

Lemma batch_and_page_by_page_witness :
  (∀ ts, passage_embed ts = Some (length_vector <$> ts))
  ∧ embed_pages_in_json_batch two_pages
    = (λ page, del_text (set_embedding page
                           (length_vector (default [] (text page)))))
        <$> two_pages.
Proof.
  assert (∀ ts, passage_embed ts = Some (length_vector <$> ts)) as Hmodel
    by (intros ts; reflexivity).
  split; [exact Hmodel|].
  exact (proj1 (@batch_and_page_by_page length_embedder two_pages length_vector
                  Hmodel)).
Defined.

Lemma produced_emb_files_align_witness :
  Forall (produced_by embed_pages_in_json) [produced_file]
  ∧ ∃ corpus',
      @load_embeddings_for_corpus exact [produced_file]
        ([produced_file] ≫= docs_of_file)
      = Some (corpus', [LoadedEmbeddings (attached_total [produced_file])]).
Proof.
  assert (Forall (produced_by embed_pages_in_json) [produced_file]) as Hp.
  { constructor; [|constructor]. exists two_pages. split; reflexivity. }
  split; [exact Hp|].
  destruct (@produced_emb_files_align length_embedder exact no_paths
              [produced_file] Hp) as (corpus' & Hl & _).
  exists corpus'. exact Hl.
Defined.
